(** * The canvas scene editor (components/CanvasEditor.tsx)

    A shallow embedding of the interactive editor: its data model, the
    pointer-event handlers, the repaint effect and the export function,
    followed by the properties of the specification that concern them.

    Conventions of the embedding.

    - A JavaScript [number] is a rational ([Q]), compared with [==]
      ([Qeq]).  The sums made while an image is dragged and the scaling
      of an image that is added are rounded as IEEE doubles are
      ([round64]); the differences and sums of pointer positions made
      for hit tests and resizing are exact.  The values NaN and Infinity
      are not represented.
    - React state is one record, [EditorState]; a handler is a function on
      it.  A handler that would raise a [TypeError] (reading a property
      of [undefined]) returns [None]; so does one that would store
      [undefined] where the model has a point.
    - A handler is a closure of the render that created it.
      [handleMouseDown], [handleMouseMove], [handleMouseUp] and [step]
      are the handlers of the render of the state they are given, run
      when nothing has been queued since: every event is rendered before
      the next one is handled.  [handleMouseDown_from],
      [handleMouseMove_from], [handleMouseUp_from] and [tick] are the
      handlers of a render that may be out of date, with renders as
      events of their own.
    - The 2D drawing context is modelled by its style registers, its
      current path and the list of paint operations composited so far on
      the canvas (source-over, in order).  Two canvases holding the same
      list hold the same pixels. *)

From Stdlib Require Import QArith Qabs Qminmax Qreduction Qpower Lqa Ascii String.
From stdpp Require Import base list strings pretty.

Open Scope Q_scope.

(** ** Numbers *)

(** [a > b], [a >= b] and [a <= b] on numbers, as tests. *)
Definition Qgtb (a b : Q) : bool := negb (Qle_bool a b).
Definition Qgeb (a b : Q) : bool := Qle_bool b a.
Definition Qleb (a b : Q) : bool := Qle_bool a b.

(** ** Doubles *)

(** [n * 2 ^ e]. *)
Definition scale2 (n e : Z) : Q :=
  if (0 <=? e)%Z then inject_Z (n * 2 ^ e)
  else Qmake n (Z.to_pos (2 ^ (- e))).

(** The integer nearest to [num / den], the even one of the two when
    it is half way; [num] is not negative and [den] is positive. *)
Definition nearestEven (num den : Z) : Z :=
  let q := (num / den)%Z in
  match (2 * (num mod den) ?= den)%Z with
  | Lt => q
  | Gt => (q + 1)%Z
  | Eq => if Z.even q then q else (q + 1)%Z
  end.

(** The exponent of the leading bit of [a / d], both positive. *)
Definition leadingExponent (a d : Z) : Z :=
  let l := (Z.log2 a - Z.log2 d)%Z in
  if (if (0 <=? l)%Z then (d * 2 ^ l <=? a)%Z else (d <=? a * 2 ^ (- l))%Z)
  then l else (l - 1)%Z.

(** The double nearest to a number: 53 significant bits, an exponent
    not below that of the subnormal numbers, a tie going to the even
    significand.  The result is in lowest terms.  A number beyond the
    largest double, which JavaScript turns into Infinity, is rounded as
    if the exponent had no upper limit. *)
Definition round64 (q : Q) : Q :=
  let a := Z.abs (Qnum q) in
  let d := Zpos (Qden q) in
  if (a =? 0)%Z then 0
  else
    let e := Z.max (leadingExponent a d - 52) (-1074) in
    let m := if (0 <=? e)%Z then nearestEven a (d * 2 ^ e)
             else nearestEven (a * 2 ^ (- e)) d in
    Qred (scale2 (Z.sgn (Qnum q) * m) e).

Arguments round64 : simpl never.

(** [x + y], [x * y] and [x / y] on doubles; a number that is not a
    double stands for the double nearest to it. *)
Definition fadd (x y : Q) : Q := round64 (round64 x + round64 y).
Definition fmul (x y : Q) : Q := round64 (round64 x * round64 y).
Definition fdiv (x y : Q) : Q := round64 (round64 x / round64 y).

(** The largest double. *)
Definition MAX_VALUE : Q := inject_Z ((2 ^ 53 - 1) * 2 ^ 971).

(** A number that is a double. *)
Definition isDouble (q : Q) : bool :=
  Qeq_bool (round64 q) q && Qle_bool (Qabs q) MAX_VALUE.

(** ** Types *)

Inductive Tool := move | pencil | eraser | line | rectangle | circle.
Inductive Action := none | drawing | dragging | resizing.
Inductive ResizeHandle := tl | tr | bl | br.

Record Point := mkPoint { px : Q; py : Q }.

(** A decoded [HTMLImageElement]: its source and its intrinsic size in
    whole pixels, which is what [img.width] and [img.height] give for
    an image that is not in the document.  A picture without intrinsic
    size (width 0), for which [addImageToCanvas] computes Infinity, is
    not represented. *)
Record HTMLImage := mkHTMLImage {
  src : string;
  naturalWidth : positive;
  naturalHeight : positive
}.

(** A whole number of pixels as a number. *)
Definition pixels (n : positive) : Q := inject_Z (Zpos n).

Record PlacedImage := mkPlacedImage {
  img_id : string;
  img_image : HTMLImage;
  img_x : Q;
  img_y : Q;
  img_width : Q;
  img_height : Q
}.

Record CanvasElement := mkCanvasElement {
  el_id : string;
  el_tool : Tool;
  el_points : list Point;
  el_color : string;
  el_width : Q
}.

(** The part of [UploadedFile] (types.ts) the editor reads. *)
Record UploadedFile := mkUploadedFile {
  file_id : string;
  previewUrl : string
}.

#[global] Instance Tool_eq_dec : EqDecision Tool.
Proof. solve_decision. Defined.
#[global] Instance Action_eq_dec : EqDecision Action.
Proof. solve_decision. Defined.
#[global] Instance ResizeHandle_eq_dec : EqDecision ResizeHandle.
Proof. solve_decision. Defined.

(** ** Helper functions *)

Definition isDrawingTool (t : Tool) : bool :=
  bool_decide (t ∈ [pencil; line; rectangle; circle; eraser]).

Definition canChangeColor (t : Tool) : bool :=
  bool_decide (t ∈ [pencil; line; rectangle; circle]).

Definition handleSize_hit : Q := 10.

(** The four corner handles of an image, in the insertion order of the
    object literal, which is the order [Object.entries] visits. *)
Definition handles_of (image : PlacedImage) : list (ResizeHandle * Point) :=
  [ (tl, mkPoint (img_x image) (img_y image));
    (tr, mkPoint (img_x image + img_width image) (img_y image));
    (bl, mkPoint (img_x image) (img_y image + img_height image));
    (br, mkPoint (img_x image + img_width image)
                 (img_y image + img_height image)) ].

Definition in_handle_box (x y : Q) (pos : Point) : bool :=
  Qgeb x (px pos - handleSize_hit / 2) && Qleb x (px pos + handleSize_hit / 2) &&
  Qgeb y (py pos - handleSize_hit / 2) && Qleb y (py pos + handleSize_hit / 2).

Fixpoint first_handle (x y : Q) (hs : list (ResizeHandle * Point))
  : option ResizeHandle :=
  match hs with
  | [] => None
  | (name, pos) :: rest =>
      if in_handle_box x y pos then Some name else first_handle x y rest
  end.

Definition getHandleAtPosition (x y : Q) (image : PlacedImage)
  : option ResizeHandle :=
  first_handle x y (handles_of image).

Definition getCursorForHandle (handle : option ResizeHandle) : string :=
  match handle with
  | Some tl | Some br => "nwse-resize"
  | Some tr | Some bl => "nesw-resize"
  | None => "move"
  end.

(** [Array.prototype.findIndex]: the index of the first element that
    satisfies the predicate; [None] stands for [-1]. *)
Fixpoint findIndex {A} (p : A -> bool) (l : list A) : option nat :=
  match l with
  | [] => None
  | a :: rest => if p a then Some O else S <$> findIndex p rest
  end.

(** ** Component state *)

(** The [useState] cells of [CanvasEditor], and [canvas.style.cursor]. *)
Record EditorState := mkEditorState {
  placedImages : list PlacedImage;
  elements : list CanvasElement;
  activeTool : Tool;
  action : Action;
  selectedImageIndex : option nat;
  selectedElement : option CanvasElement;
  resizeHandle : option ResizeHandle;
  strokeColor : string;
  strokeWidth : Q;
  mousePosition : option Point;
  backgroundColor : string;
  backgroundImage : option HTMLImage;
  cursor : string
}.

(** The initial values given to [useState]. *)
Definition initialState : EditorState :=
  {| placedImages := []; elements := []; activeTool := move; action := none;
     selectedImageIndex := None; selectedElement := None;
     resizeHandle := None; strokeColor := "#000000"; strokeWidth := 5;
     mousePosition := None; backgroundColor := "#FFFFFF";
     backgroundImage := None; cursor := EmptyString |}.

Definition setPlacedImages (v : list PlacedImage) (s : EditorState) :=
  mkEditorState v (elements s) (activeTool s) (action s)
    (selectedImageIndex s) (selectedElement s) (resizeHandle s)
    (strokeColor s) (strokeWidth s) (mousePosition s) (backgroundColor s)
    (backgroundImage s) (cursor s).
Definition setElements (v : list CanvasElement) (s : EditorState) :=
  mkEditorState (placedImages s) v (activeTool s) (action s)
    (selectedImageIndex s) (selectedElement s) (resizeHandle s)
    (strokeColor s) (strokeWidth s) (mousePosition s) (backgroundColor s)
    (backgroundImage s) (cursor s).
Definition setActiveTool (v : Tool) (s : EditorState) :=
  mkEditorState (placedImages s) (elements s) v (action s)
    (selectedImageIndex s) (selectedElement s) (resizeHandle s)
    (strokeColor s) (strokeWidth s) (mousePosition s) (backgroundColor s)
    (backgroundImage s) (cursor s).
Definition setAction (v : Action) (s : EditorState) :=
  mkEditorState (placedImages s) (elements s) (activeTool s) v
    (selectedImageIndex s) (selectedElement s) (resizeHandle s)
    (strokeColor s) (strokeWidth s) (mousePosition s) (backgroundColor s)
    (backgroundImage s) (cursor s).
Definition setSelectedImageIndex (v : option nat) (s : EditorState) :=
  mkEditorState (placedImages s) (elements s) (activeTool s) (action s)
    v (selectedElement s) (resizeHandle s)
    (strokeColor s) (strokeWidth s) (mousePosition s) (backgroundColor s)
    (backgroundImage s) (cursor s).
Definition setSelectedElement (v : option CanvasElement) (s : EditorState) :=
  mkEditorState (placedImages s) (elements s) (activeTool s) (action s)
    (selectedImageIndex s) v (resizeHandle s)
    (strokeColor s) (strokeWidth s) (mousePosition s) (backgroundColor s)
    (backgroundImage s) (cursor s).
Definition setResizeHandle (v : option ResizeHandle) (s : EditorState) :=
  mkEditorState (placedImages s) (elements s) (activeTool s) (action s)
    (selectedImageIndex s) (selectedElement s) v
    (strokeColor s) (strokeWidth s) (mousePosition s) (backgroundColor s)
    (backgroundImage s) (cursor s).
Definition setStrokeColor (v : string) (s : EditorState) :=
  mkEditorState (placedImages s) (elements s) (activeTool s) (action s)
    (selectedImageIndex s) (selectedElement s) (resizeHandle s)
    v (strokeWidth s) (mousePosition s) (backgroundColor s)
    (backgroundImage s) (cursor s).
Definition setStrokeWidth (v : Q) (s : EditorState) :=
  mkEditorState (placedImages s) (elements s) (activeTool s) (action s)
    (selectedImageIndex s) (selectedElement s) (resizeHandle s)
    (strokeColor s) v (mousePosition s) (backgroundColor s)
    (backgroundImage s) (cursor s).
Definition setMousePosition (v : option Point) (s : EditorState) :=
  mkEditorState (placedImages s) (elements s) (activeTool s) (action s)
    (selectedImageIndex s) (selectedElement s) (resizeHandle s)
    (strokeColor s) (strokeWidth s) v (backgroundColor s)
    (backgroundImage s) (cursor s).
Definition setBackgroundColor (v : string) (s : EditorState) :=
  mkEditorState (placedImages s) (elements s) (activeTool s) (action s)
    (selectedImageIndex s) (selectedElement s) (resizeHandle s)
    (strokeColor s) (strokeWidth s) (mousePosition s) v
    (backgroundImage s) (cursor s).
Definition setBackgroundImage (v : option HTMLImage) (s : EditorState) :=
  mkEditorState (placedImages s) (elements s) (activeTool s) (action s)
    (selectedImageIndex s) (selectedElement s) (resizeHandle s)
    (strokeColor s) (strokeWidth s) (mousePosition s) (backgroundColor s)
    v (cursor s).
Definition setCursor (v : string) (s : EditorState) :=
  mkEditorState (placedImages s) (elements s) (activeTool s) (action s)
    (selectedImageIndex s) (selectedElement s) (resizeHandle s)
    (strokeColor s) (strokeWidth s) (mousePosition s) (backgroundColor s)
    (backgroundImage s) v.

(** ** Pointer events *)

(** The fields of a [React.MouseEvent] the handlers read, and the
    bounding rectangle of the canvas at the time of the event. *)
Record MouseEvent := mkMouseEvent {
  clientX : Q;
  clientY : Q;
  movementX : Q;
  movementY : Q
}.

Record DOMRect := mkDOMRect { rect_left : Q; rect_top : Q }.

Definition getMousePos (rect : DOMRect) (e : MouseEvent) : Point :=
  {| px := clientX e - rect_left rect; py := clientY e - rect_top rect |}.

(** The bounding-box test of [handleMouseDown]. *)
Definition hits (pos : Point) (img : PlacedImage) : bool :=
  Qgeb (px pos) (img_x img) && Qleb (px pos) (img_x img + img_width img) &&
  Qgeb (py pos) (img_y img) && Qleb (py pos) (img_y img + img_height img).

(** [uuid] is the value [crypto.randomUUID()] returns in this call. *)
Definition handleMouseDown (rect : DOMRect) (e : MouseEvent) (uuid : string)
    (s : EditorState) : option EditorState :=
  let pos := getMousePos rect e in
  if decide (activeTool s = move) then
    let hit_test :=
      match findIndex (hits pos) (placedImages s) with
      | Some imageIndex =>
          Some (setSelectedImageIndex (Some imageIndex) (setAction dragging s))
      | None => Some (setSelectedImageIndex None s)
      end in
    match selectedImageIndex s with
    | Some i =>
        match placedImages s !! i with
        | Some img =>
            match getHandleAtPosition (px pos) (py pos) img with
            | Some handle =>
                Some (setResizeHandle (Some handle) (setAction resizing s))
            | None => hit_test
            end
        | None => None
        end
    | None => hit_test
    end
  else
    let newElement :=
      {| el_id := uuid; el_tool := activeTool s; el_points := [pos];
         el_color := strokeColor s; el_width := strokeWidth s |} in
    Some (setSelectedElement (Some newElement) (setAction drawing s)).

(** The rectangle a resize through [handle] to pointer position [(x, y)]
    proposes for [img]. *)
Definition resized (handle : ResizeHandle) (x y : Q) (img : PlacedImage)
  : PlacedImage :=
  let originalX := img_x img in
  let originalY := img_y img in
  let originalWidth := img_width img in
  let originalHeight := img_height img in
  match handle with
  | tl => mkPlacedImage (img_id img) (img_image img) x y
            (originalX + originalWidth - x) (originalY + originalHeight - y)
  | tr => mkPlacedImage (img_id img) (img_image img) originalX y
            (x - originalX) (originalY + originalHeight - y)
  | bl => mkPlacedImage (img_id img) (img_image img) x originalY
            (originalX + originalWidth - x) (y - originalY)
  | br => mkPlacedImage (img_id img) (img_image img) originalX originalY
            (x - originalX) (y - originalY)
  end.

(** The updater passed to [setPlacedImages] in the resizing branch.  At an
    index outside the array the copied object has no fields, the computed
    width is NaN, the test fails and the array is returned as it was. *)
Definition resizeUpdater (i : nat) (handle : ResizeHandle) (x y : Q)
    (prev : list PlacedImage) : list PlacedImage :=
  match prev !! i with
  | Some old =>
      let img := resized handle x y old in
      if Qgtb (img_width img) 10 && Qgtb (img_height img) 10
      then <[i := img]> prev else prev
  | None => prev
  end.

(** The updater of the dragging branch, run once on the array it is
    given: [img.x += e.movementX] and [img.y += e.movementY] on the
    selected image object, in doubles; at an index outside the array,
    [img.x] raises.  The object is changed in place, so the array the
    updater was given holds the moved image too; that array is the
    state of a render that is over, which nothing reads any more. *)
Definition dragUpdater (i : nat) (e : MouseEvent) (prev : list PlacedImage)
  : option (list PlacedImage) :=
  match prev !! i with
  | Some img =>
      Some (<[i := mkPlacedImage (img_id img) (img_image img)
                     (fadd (img_x img) (movementX e))
                     (fadd (img_y img) (movementY e))
                     (img_width img) (img_height img)]> prev)
  | None => None
  end.

(** The points of the in-progress element after a pointer move: appended
    for the freehand tools, otherwise the pair of the first point and the
    pointer.  On an empty array the source would build [[undefined, pos]],
    which is no array of points; the model gives [None] there. *)
Definition extendPoints (tool : Tool) (pos : Point) (points : list Point)
  : option (list Point) :=
  if decide (tool = pencil \/ tool = eraser) then Some (points ++ [pos])
  else match points with
       | p0 :: _ => Some [p0; pos]
       | [] => None
       end.

(** The hover cursor written to [canvas.style.cursor]. *)
Definition hoverCursor (pos : Point) (s : EditorState) : option string :=
  match action s with
  | none =>
      if decide (activeTool s = move) then
        match selectedImageIndex s with
        | Some i =>
            match placedImages s !! i with
            | Some img =>
                Some (getCursorForHandle
                        (getHandleAtPosition (px pos) (py pos) img))
            | None => None
            end
        | None => Some (if isDrawingTool (activeTool s) then "none" else "default")
        end
      else Some (if isDrawingTool (activeTool s) then "none" else "default")
  | _ => Some (cursor s)
  end.

Definition handleMouseMove (rect : DOMRect) (e : MouseEvent)
    (s : EditorState) : option EditorState :=
  let pos := getMousePos rect e in
  c ← hoverCursor pos s;
  let s1 := setCursor c (setMousePosition (Some pos) s) in
  match action s, selectedImageIndex s, resizeHandle s, selectedElement s with
  | dragging, Some i, _, _ =>
      imgs ← dragUpdater i e (placedImages s);
      Some (setPlacedImages imgs s1)
  | resizing, Some i, Some handle, _ =>
      Some (setPlacedImages
              (resizeUpdater i handle (px pos) (py pos) (placedImages s)) s1)
  | drawing, _, _, Some el =>
      pts ← extendPoints (el_tool el) pos (el_points el);
      Some (setSelectedElement
              (Some (mkCanvasElement (el_id el) (el_tool el) pts
                       (el_color el) (el_width el))) s1)
  | _, _, _, _ => Some s1
  end.

(** [handleMouseUp] of the render of [s], run when nothing has been
    queued since that render: the element it commits is the one [s]
    has.  [handleMouseUp_from] is the handler of a render that may be
    out of date. *)
Definition handleMouseUp (s : EditorState) : EditorState :=
  let s1 :=
    match action s, selectedElement s with
    | drawing, Some el => setElements (elements s ++ [el]) s
    | _, _ => s
    end in
  setResizeHandle None (setSelectedElement None (setAction none s1)).

(** The [onMouseLeave] handler of the canvas. *)
Definition handleMouseLeave (s : EditorState) : EditorState :=
  setMousePosition None (handleMouseUp s).

Definition MAX_WIDTH : Q := 150.

(** The [onload] callback of [addImageToCanvas], run once [img] is
    decoded. *)
Definition addImageToCanvas (file : UploadedFile) (img : HTMLImage)
    (s : EditorState) : EditorState :=
  let scale := fdiv MAX_WIDTH (pixels (naturalWidth img)) in
  let newWidth := MAX_WIDTH in
  let newHeight := fmul (pixels (naturalHeight img)) scale in
  setPlacedImages
    (placedImages s ++
       [ {| img_id := file_id file; img_image := img; img_x := 50;
            img_y := 50; img_width := newWidth; img_height := newHeight |} ])
    s.

Definition handleBackgroundColorChange (value : string) (s : EditorState)
  : EditorState :=
  setBackgroundImage None (setBackgroundColor value s).

(** [files0] is [e.target.files[0]] once read and decoded; nothing
    happens when no file was chosen. *)
Definition handleBackgroundImageUpload (files0 : option HTMLImage)
    (s : EditorState) : EditorState :=
  match files0 with
  | Some img => setBackgroundImage (Some img) s
  | None => s
  end.

(** The [onClick] of a [ToolButton]. *)
Definition selectTool (tool : Tool) (s : EditorState) : EditorState :=
  setSelectedImageIndex None (setActiveTool tool s).

(** ** The event loop *)

Inductive Event :=
| MouseDown (rect : DOMRect) (e : MouseEvent) (uuid : string)
| MouseMove (rect : DOMRect) (e : MouseEvent)
| MouseUp
| MouseLeave
| ToolClick (tool : Tool)
| StrokeColorInput (value : string)
| StrokeWidthInput (value : Q)
| BackgroundColorInput (value : string)
| BackgroundImageLoaded (img : HTMLImage)
| FurnitureLoaded (file : UploadedFile) (img : HTMLImage).

Definition step (ev : Event) (s : EditorState) : option EditorState :=
  match ev with
  | MouseDown rect e uuid => handleMouseDown rect e uuid s
  | MouseMove rect e => handleMouseMove rect e s
  | MouseUp => Some (handleMouseUp s)
  | MouseLeave => Some (handleMouseLeave s)
  | ToolClick tool => Some (selectTool tool s)
  | StrokeColorInput v => Some (setStrokeColor v s)
  | StrokeWidthInput v => Some (setStrokeWidth v s)
  | BackgroundColorInput v => Some (handleBackgroundColorChange v s)
  | BackgroundImageLoaded img => Some (handleBackgroundImageUpload (Some img) s)
  | FurnitureLoaded file img => Some (addImageToCanvas file img s)
  end.

Fixpoint run (evs : list Event) (s : EditorState) : option EditorState :=
  match evs with
  | [] => Some s
  | ev :: rest => s' ← step ev s; run rest s'
  end.

(** ** Events between renders *)

(** The handlers of the render that had the state [r], run when the
    pending state is [s].  What a handler reads of the state is what its
    render had; what it queues is applied to the pending state at the
    next render: a value replaces the cell, an updater [prev => ...] is
    given the pending value of the cell.  A [TypeError] raised in an
    updater is raised at that render; the model gives [None] at the
    event.  [canvas.style.cursor] is no state of React: it is read and
    written at the event, so the cursor kept while an action is under
    way is that of [s]. *)
Definition handleMouseDown_from (r : EditorState) (rect : DOMRect)
    (e : MouseEvent) (uuid : string) (s : EditorState) : option EditorState :=
  let pos := getMousePos rect e in
  if decide (activeTool r = move) then
    let hit_test :=
      match findIndex (hits pos) (placedImages r) with
      | Some imageIndex =>
          Some (setSelectedImageIndex (Some imageIndex) (setAction dragging s))
      | None => Some (setSelectedImageIndex None s)
      end in
    match selectedImageIndex r with
    | Some i =>
        match placedImages r !! i with
        | Some img =>
            match getHandleAtPosition (px pos) (py pos) img with
            | Some handle =>
                Some (setResizeHandle (Some handle) (setAction resizing s))
            | None => hit_test
            end
        | None => None
        end
    | None => hit_test
    end
  else
    let newElement :=
      {| el_id := uuid; el_tool := activeTool r; el_points := [pos];
         el_color := strokeColor r; el_width := strokeWidth r |} in
    Some (setSelectedElement (Some newElement) (setAction drawing s)).

(** In the drawing branch the test on the tool reads the element of the
    render, and the updater spreads [prev], the pending element: the
    pending [null] makes it raise. *)
Definition handleMouseMove_from (r : EditorState) (rect : DOMRect)
    (e : MouseEvent) (s : EditorState) : option EditorState :=
  let pos := getMousePos rect e in
  c ← hoverCursor pos (setCursor (cursor s) r);
  let s1 := setCursor c (setMousePosition (Some pos) s) in
  match action r, selectedImageIndex r, resizeHandle r, selectedElement r with
  | dragging, Some i, _, _ =>
      imgs ← dragUpdater i e (placedImages s);
      Some (setPlacedImages imgs s1)
  | resizing, Some i, Some handle, _ =>
      Some (setPlacedImages
              (resizeUpdater i handle (px pos) (py pos) (placedImages s)) s1)
  | drawing, _, _, Some selected =>
      prev ← selectedElement s;
      pts ← extendPoints (el_tool selected) pos (el_points prev);
      Some (setSelectedElement
              (Some (mkCanvasElement (el_id prev) (el_tool prev) pts
                       (el_color prev) (el_width prev))) s1)
  | _, _, _, _ => Some s1
  end.

(** The element committed is the one the render had. *)
Definition handleMouseUp_from (r s : EditorState) : EditorState :=
  let s1 :=
    match action r, selectedElement r with
    | drawing, Some el => setElements (elements s ++ [el]) s
    | _, _ => s
    end in
  setResizeHandle None (setSelectedElement None (setAction none s1)).

Definition handleMouseLeave_from (r s : EditorState) : EditorState :=
  setMousePosition None (handleMouseUp_from r s).

(** The other handlers read nothing of the state. *)
Definition step_from (r : EditorState) (ev : Event) (s : EditorState)
  : option EditorState :=
  match ev with
  | MouseDown rect e uuid => handleMouseDown_from r rect e uuid s
  | MouseMove rect e => handleMouseMove_from r rect e s
  | MouseUp => Some (handleMouseUp_from r s)
  | MouseLeave => Some (handleMouseLeave_from r s)
  | _ => step ev s
  end.

(** The component between two events: the state of the last render,
    whose handlers are installed and whose frame is on the canvas, and
    the state the next render will have. *)
Record Live := mkLive {
  rendered : EditorState;
  queued : EditorState
}.

(** The component just rendered with the state [s]. *)
Definition mounted (s : EditorState) : Live := mkLive s s.

(** An event handled by the installed handlers, or a render. *)
Inductive Tick :=
| Dispatch (ev : Event)
| Render.

Definition tick (t : Tick) (l : Live) : option Live :=
  match t with
  | Dispatch ev =>
      s' ← step_from (rendered l) ev (queued l);
      Some (mkLive (rendered l) s')
  | Render => Some (mounted (queued l))
  end.

Fixpoint play (ts : list Tick) (l : Live) : option Live :=
  match ts with
  | [] => Some l
  | t :: rest => l' ← tick t l; play rest l'
  end.

(** Every event followed by a render. *)
Definition renderEach (evs : list Event) : list Tick :=
  flat_map (fun ev => [Dispatch ev; Render]) evs.

(** ** The 2D drawing context *)

(** The radius of an arc: a number, or the square root of one (the
    circle tool computes [Math.sqrt] of a sum of squares). *)
Inductive Radius := RExact (r : Q) | RSqrt (r2 : Q).

(** Sub-paths added to the current path.  Both calls of [ctx.arc] in
    the source sweep from [0] to [2 * Math.PI]. *)
Inductive PathCmd :=
| MoveTo (x y : Q)
| LineTo (x y : Q)
| RectPath (x y w h : Q)
| ArcFull (x y : Q) (radius : Radius).

(** The stroke registers in force when a stroke is painted. *)
Record Pen := mkPen {
  pen_style : string;
  pen_width : Q;
  pen_cap : string;
  pen_join : string
}.

(** What has been composited on a canvas, oldest first. *)
#[warnings="-register-all"]
Inductive Paint :=
| PClearRect (x y w h : Q)
| PFillRect (style : string) (x y w h : Q)
| PStrokeRect (pen : Pen) (x y w h : Q)
| PStrokePath (pen : Pen) (path : list PathCmd)
| PDrawImage (img : HTMLImage) (x y w h : Q)
| PDrawCanvas (content : list Paint) (x y : Q).

Record Ctx2D := mkCtx2D {
  canvas_width : Q;
  canvas_height : Q;
  fillStyle : string;
  pen : Pen;
  path : list PathCmd;
  content : list Paint
}.

(** A canvas element just created, with the default registers. *)
Definition newCanvas (w h : Q) : Ctx2D :=
  {| canvas_width := w; canvas_height := h; fillStyle := "#000000";
     pen := mkPen "#000000" 1 "butt" "miter"; path := []; content := [] |}.

Definition Draw := Ctx2D -> Ctx2D.

Definition seqDraw (a b : Draw) : Draw := fun c => b (a c).
Notation "a >>> b" := (seqDraw a b) (at level 90, right associativity).
Definition skip : Draw := fun c => c.

Definition set_fillStyle (v : string) : Draw := fun c =>
  mkCtx2D (canvas_width c) (canvas_height c) v (pen c) (path c) (content c).
Definition set_pen (v : Pen) : Draw := fun c =>
  mkCtx2D (canvas_width c) (canvas_height c) (fillStyle c) v (path c)
    (content c).
Definition set_path (v : list PathCmd) : Draw := fun c =>
  mkCtx2D (canvas_width c) (canvas_height c) (fillStyle c) (pen c) v
    (content c).
Definition set_content (v : list Paint) : Draw := fun c =>
  mkCtx2D (canvas_width c) (canvas_height c) (fillStyle c) (pen c) (path c) v.

Definition set_strokeStyle (v : string) : Draw := fun c =>
  set_pen (mkPen v (pen_width (pen c)) (pen_cap (pen c)) (pen_join (pen c))) c.
Definition set_lineWidth (v : Q) : Draw := fun c =>
  set_pen (mkPen (pen_style (pen c)) v (pen_cap (pen c)) (pen_join (pen c))) c.
Definition set_lineCap (v : string) : Draw := fun c =>
  set_pen (mkPen (pen_style (pen c)) (pen_width (pen c)) v (pen_join (pen c))) c.
Definition set_lineJoin (v : string) : Draw := fun c =>
  set_pen (mkPen (pen_style (pen c)) (pen_width (pen c)) (pen_cap (pen c)) v) c.

Definition paint (p : Paint) : Draw := fun c =>
  set_content (content c ++ [p]) c.

(** Clearing the whole canvas leaves nothing of what was painted. *)
Definition clearRect (x y w h : Q) : Draw := fun c =>
  if Qleb x 0 && Qleb y 0 && Qgeb (x + w) (canvas_width c)
     && Qgeb (y + h) (canvas_height c)
  then set_content [] c
  else paint (PClearRect x y w h) c.

Definition fillRect (x y w h : Q) : Draw := fun c =>
  paint (PFillRect (fillStyle c) x y w h) c.
Definition strokeRect (x y w h : Q) : Draw := fun c =>
  paint (PStrokeRect (pen c) x y w h) c.
Definition drawImage (img : HTMLImage) (x y w h : Q) : Draw :=
  paint (PDrawImage img x y w h).
(** [ctx.drawImage(canvas, x, y)] with a canvas as the source. *)
Definition drawCanvas (source : Ctx2D) (x y : Q) : Draw :=
  paint (PDrawCanvas (content source) x y).

Definition beginPath : Draw := set_path [].
Definition addPath (p : PathCmd) : Draw := fun c => set_path (path c ++ [p]) c.
Definition moveTo (x y : Q) : Draw := addPath (MoveTo x y).
Definition lineTo (x y : Q) : Draw := addPath (LineTo x y).
Definition rect (x y w h : Q) : Draw := addPath (RectPath x y w h).
Definition arc (x y : Q) (radius : Radius) : Draw := addPath (ArcFull x y radius).
Definition stroke : Draw := fun c => paint (PStrokePath (pen c) (path c)) c.

Definition forEach {A} (f : A -> Draw) (l : list A) : Draw :=
  fun c => fold_left (fun c a => f a c) l c.

Fixpoint forEachFrom {A} (f : A -> nat -> Draw) (index : nat) (l : list A)
  : Draw :=
  match l with
  | [] => skip
  | a :: rest => f a index >>> forEachFrom f (S index) rest
  end.

(** ** The repaint effect *)

Definition drawBackground (s : EditorState) : Draw := fun c =>
  match backgroundImage s with
  | Some img => drawImage img 0 0 (canvas_width c) (canvas_height c) c
  | None =>
      (set_fillStyle (backgroundColor s) >>>
       fillRect 0 0 (canvas_width c) (canvas_height c)) c
  end.

Definition isFreehand (t : Tool) : bool :=
  bool_decide (t = pencil \/ t = eraser).

Definition drawElement (backgroundColor : string) (el : CanvasElement) : Draw :=
  beginPath >>>
  set_strokeStyle (if decide (el_tool el = eraser) then backgroundColor
                   else el_color el) >>>
  set_lineWidth (if decide (el_tool el = eraser) then 20 else el_width el) >>>
  set_lineCap "round" >>>
  set_lineJoin "round" >>>
  match el_tool el, el_points el with
  | pencil, p0 :: _ | eraser, p0 :: _ =>
      moveTo (px p0) (py p0) >>>
      forEach (fun point => lineTo (px point) (py point)) (el_points el)
  | line, p0 :: p1 :: _ =>
      moveTo (px p0) (py p0) >>> lineTo (px p1) (py p1)
  | rectangle, start :: end_ :: _ =>
      rect (px start) (py start) (px end_ - px start) (py end_ - py start)
  | circle, start :: end_ :: _ =>
      arc (px start) (py start)
        (RSqrt ((px end_ - px start) ^ 2 + (py end_ - py start) ^ 2))
  | _, _ => skip
  end >>>
  stroke.

Definition handleSize : Q := 8.

(** The outline and the four corner squares of the selected image. *)
Definition drawSelection (img : PlacedImage) : Draw :=
  set_strokeStyle "#007bff" >>>
  set_lineWidth 2 >>>
  strokeRect (img_x img) (img_y img) (img_width img) (img_height img) >>>
  set_fillStyle "#FFFFFF" >>>
  set_strokeStyle "#000000" >>>
  set_lineWidth 1 >>>
  forEach
    (fun handle =>
       fillRect (px handle - handleSize / 2) (py handle - handleSize / 2)
         handleSize handleSize >>>
       strokeRect (px handle - handleSize / 2) (py handle - handleSize / 2)
         handleSize handleSize)
    [ mkPoint (img_x img) (img_y img);
      mkPoint (img_x img + img_width img) (img_y img);
      mkPoint (img_x img) (img_y img + img_height img);
      mkPoint (img_x img + img_width img) (img_y img + img_height img) ].

Definition drawPlacedImage (selected : option nat) (img : PlacedImage)
    (index : nat) : Draw :=
  drawImage (img_image img) (img_x img) (img_y img) (img_width img)
    (img_height img) >>>
  (if decide (selected = Some index) then drawSelection img else skip).

(** The brush-size circle under the pointer. *)
Definition drawPreview (s : EditorState) : Draw :=
  match mousePosition s with
  | Some pos =>
      if isDrawingTool (activeTool s) && bool_decide (action s = none) then
        set_strokeStyle (if decide (activeTool s = eraser) then "#000000"
                         else strokeColor s) >>>
        set_lineWidth 1 >>>
        beginPath >>>
        arc (px pos) (py pos)
          (RExact ((if decide (activeTool s = eraser) then 20
                    else strokeWidth s) / 2)) >>>
        stroke
      else skip
  | None => skip
  end.

(** The body of [useLayoutEffect], run on the context of the mounted
    canvas after every state change. *)
Definition repaint (s : EditorState) : Draw := fun c =>
  (clearRect 0 0 (canvas_width c) (canvas_height c) >>>
   drawBackground s >>>
   forEach (drawElement (backgroundColor s)) (elements s) >>>
   match selectedElement s with
   | Some el => drawElement (backgroundColor s) el
   | None => skip
   end >>>
   forEachFrom (drawPlacedImage (selectedImageIndex s)) 0 (placedImages s) >>>
   drawPreview s) c.

(** ** Export *)

(** [String.prototype.split] on the separator [","]. *)
Fixpoint split_comma (s : string) : list string :=
  match s with
  | EmptyString => [EmptyString]
  | String ch rest =>
      if Ascii.eqb ch ","%char then EmptyString :: split_comma rest
      else match split_comma rest with
           | hd :: more => String ch hd :: more
           | [] => [String ch EmptyString]
           end
  end.

(** The temporary canvas of [getCanvasAsBase64] once painted: a new
    canvas of the size of the mounted one, the background, then the
    mounted canvas copied on top. *)
Definition exportCanvas (canvas : Ctx2D) (s : EditorState) : Ctx2D :=
  (drawBackground s >>> drawCanvas canvas 0 0)
    (newCanvas (canvas_width canvas) (canvas_height canvas)).

Section ExportToDataURL.

(** The browser's JPEG encoder followed by base64, as a function of the
    size of a canvas and of what is painted on it. *)
Variable jpegBase64 : Q -> Q -> list Paint -> string.

(** [canvas.toDataURL('image/jpeg')]; a canvas without area gives
    ["data:,"]. *)
Definition toDataURL (c : Ctx2D) : string :=
  if Qeq_bool (canvas_width c) 0 || Qeq_bool (canvas_height c) 0
  then "data:,"
  else "data:image/jpeg;base64," +:+
       jpegBase64 (canvas_width c) (canvas_height c) (content c).

(** [canvas] is [canvasRef.current]: [None] before the component is
    mounted. *)
Definition getCanvasAsBase64 (canvas : option Ctx2D) (s : EditorState)
  : option string :=
  match canvas with
  | None => None
  | Some canvas => split_comma (toDataURL (exportCanvas canvas s)) !! 1%nat
  end.

End ExportToDataURL.

(** The mounted canvas element: 800 by 600. *)
Definition mountedCanvas : Ctx2D := newCanvas 800 600.

(** ** Geometry of rectangles *)

(** The sub-path that [rect(x, y, w, h)] adds to the current path is
    the closed polygon through these four corners, whatever the signs of
    [w] and [h]. *)
Definition rectCorners (x y w h : Q) : list Point :=
  [mkPoint x y; mkPoint (x + w) y; mkPoint (x + w) (y + h); mkPoint x (y + h)].

(** An axis-aligned box by its extreme coordinates. *)
Record Box := mkBox {
  box_left : Q;
  box_top : Q;
  box_right : Q;
  box_bottom : Q
}.

(** The box that the corners of [rect(x, y, w, h)] span. *)
Definition rectBox (x y w h : Q) : Box :=
  {| box_left := Qmin x (x + w); box_top := Qmin y (y + h);
     box_right := Qmax x (x + w); box_bottom := Qmax y (y + h) |}.

Definition sameBox (a b : Box) : Prop :=
  box_left a == box_left b /\ box_top a == box_top b /\
  box_right a == box_right b /\ box_bottom a == box_bottom b.

Definition samePoint (a b : Point) : Prop := px a == px b /\ py a == py b.

(** ** Reading a pixel *)

(** What can be said of one pixel of a canvas from the paints composited
    on it: it shows an opaque colour, or nothing was painted there, or
    the model does not tell (image content, freehand strokes, partially
    covered pixels).  Colours are the opaque [#rrggbb] strings of the
    editor. *)
Inductive Sample := Opaque (style : string) | NotCovered | Unknown.

(** The pixel column (or row) [i] spans [[i, i + 1]]. *)
Definition within (lo hi i : Q) : bool := Qleb lo i && Qleb (i + 1) hi.
Definition apart (lo hi i : Q) : bool := Qleb (i + 1) lo || Qleb hi i.

Definition boxSample (style : string) (b : Box) (i j : Q) : Sample :=
  if within (box_left b) (box_right b) i && within (box_top b) (box_bottom b) j
  then Opaque style
  else if apart (box_left b) (box_right b) i
          || apart (box_top b) (box_bottom b) j
  then NotCovered
  else Unknown.

(** A stroked rectangle covers the band of half the line width on either
    side of each edge; the corners, which depend on the join, are left
    undetermined. *)
Definition strokeRectSample (pen : Pen) (b : Box) (i j : Q) : Sample :=
  let half := pen_width pen / 2 in
  let on_edge lo hi edge k l :=
    within (edge - half) (edge + half) k && within lo hi l in
  if Qleb (pen_width pen) 0 then Unknown
  else if on_edge (box_top b) (box_bottom b) (box_left b) i j
          || on_edge (box_top b) (box_bottom b) (box_right b) i j
          || on_edge (box_left b) (box_right b) (box_top b) j i
          || on_edge (box_left b) (box_right b) (box_bottom b) j i
  then Opaque (pen_style pen)
  else if apart (box_left b - half) (box_right b + half) i
          || apart (box_top b - half) (box_bottom b + half) j
          || (within (box_left b + half) (box_right b - half) i
              && within (box_top b + half) (box_bottom b - half) j)
  then NotCovered
  else Unknown.

(** The last paint that covers the pixel decides. *)
Fixpoint paintSample (p : Paint) (i j : Q) {struct p} : Sample :=
  match p with
  | PFillRect style x y w h => boxSample style (rectBox x y w h) i j
  | PStrokeRect pen x y w h => strokeRectSample pen (rectBox x y w h) i j
  | PStrokePath _ [] => NotCovered
  | PStrokePath _ (_ :: _) => Unknown
  | PDrawImage _ x y w h | PClearRect x y w h =>
      match boxSample EmptyString (rectBox x y w h) i j with
      | NotCovered => NotCovered
      | _ => Unknown
      end
  | PDrawCanvas source x y =>
      if Qeq_bool x 0 && Qeq_bool y 0 then
        (fix contentSample (l : list Paint) : Sample :=
           match l with
           | [] => NotCovered
           | q :: rest =>
               match contentSample rest with
               | NotCovered => paintSample q i j
               | decided => decided
               end
           end) source
      else Unknown
  end.

Fixpoint contentSample (l : list Paint) (i j : Q) : Sample :=
  match l with
  | [] => NotCovered
  | q :: rest =>
      match contentSample rest i j with
      | NotCovered => paintSample q i j
      | decided => decided
      end
  end.

(** The pixel with top-left corner [(i, j)] of a canvas. *)
Definition pixelAt (c : Ctx2D) (i j : Q) : Sample :=
  if within 0 (canvas_width c) i && within 0 (canvas_height c) j
  then contentSample (content c) i j
  else Unknown.

(** ** Predicates on states *)

(** The selected index points into the array of placed images, and the
    element being drawn has a first point. *)
Definition wf (s : EditorState) : Prop :=
  (forall i, selectedImageIndex s = Some i ->
             (i < length (placedImages s))%nat) /\
  (forall el, selectedElement s = Some el -> el_points el <> []).

(** The size floor of a placed image. *)
Definition valid (img : PlacedImage) : Prop :=
  10 < img_width img /\ 10 < img_height img.

(** The events of the pointer on the canvas. *)
Definition pointerEvent (ev : Event) : Prop :=
  match ev with
  | MouseDown _ _ _ | MouseMove _ _ | MouseUp | MouseLeave => True
  | _ => False
  end.

(** The pointer is inside the bounding box of an image, borders
    included. *)
Definition inside (pos : Point) (img : PlacedImage) : Prop :=
  img_x img <= px pos /\ px pos <= img_x img + img_width img /\
  img_y img <= py pos /\ py pos <= img_y img + img_height img.

(** No image is selected, or the pointer is on none of the corner handles
    of the selected one. *)
Definition noHandleHit (pos : Point) (s : EditorState) : Prop :=
  match selectedImageIndex s with
  | None => True
  | Some i => exists img, placedImages s !! i = Some img /\
                          getHandleAtPosition (px pos) (py pos) img = None
  end.

(** The points of an element whose draw started at [p0] and whose
    pointer then visited [ps]: all of them for the freehand tools, the
    first and the last for the others. *)
Definition gesturePoints (tool : Tool) (p0 : Point) (ps : list Point)
  : list Point :=
  if decide (tool = pencil \/ tool = eraser) then p0 :: ps
  else match last ps with
       | Some p => [p0; p]
       | None => [p0]
       end.



(** The positions of the pointer moves among the ticks, in order. *)
Fixpoint positions (ts : list Tick) : list Point :=
  match ts with
  | [] => []
  | Dispatch (MouseMove rect e) :: rest => getMousePos rect e :: positions rest
  | _ :: rest => positions rest
  end.


(** The pen and the path with which [drawElement] strokes an element. *)
Definition elementPen (backgroundColor : string) (el : CanvasElement) : Pen :=
  mkPen (if decide (el_tool el = eraser) then backgroundColor else el_color el)
        (if decide (el_tool el = eraser) then 20 else el_width el)
        "round" "round".

Definition elementPath (el : CanvasElement) : list PathCmd :=
  match el_tool el, el_points el with
  | pencil, p0 :: _ | eraser, p0 :: _ =>
      MoveTo (px p0) (py p0) ::
      map (fun point => LineTo (px point) (py point)) (el_points el)
  | line, p0 :: p1 :: _ => [MoveTo (px p0) (py p0); LineTo (px p1) (py p1)]
  | rectangle, start :: end_ :: _ =>
      [RectPath (px start) (py start) (px end_ - px start)
         (py end_ - py start)]
  | circle, start :: end_ :: _ =>
      [ArcFull (px start) (py start)
         (RSqrt ((px end_ - px start) ^ 2 + (py end_ - py start) ^ 2))]
  | _, _ => []
  end.

(** What [drawElement] and [drawBackground] paint. *)
Definition elementPaint (backgroundColor : string) (el : CanvasElement)
  : Paint :=
  PStrokePath (elementPen backgroundColor el) (elementPath el).

Definition backgroundPaint (s : EditorState) (w h : Q) : Paint :=
  match backgroundImage s with
  | Some img => PDrawImage img 0 0 w h
  | None => PFillRect (backgroundColor s) 0 0 w h
  end.

(** What [drawPlacedImage] paints for an image that is not selected. *)
Definition imagePaint (img : PlacedImage) : Paint :=
  PDrawImage (img_image img) (img_x img) (img_y img) (img_width img)
    (img_height img).

(** A drawing that only adds to what the canvas holds. *)
Definition appends (d : Draw) : Prop :=
  forall c, exists l, content (d c) = content c ++ l.

(** The pointer movement accumulated over a sequence of move events. *)
Definition totalMovementX (moves : list (DOMRect * MouseEvent)) : Q :=
  foldr (fun m acc => movementX m.2 + acc) 0 moves.
Definition totalMovementY (moves : list (DOMRect * MouseEvent)) : Q :=
  foldr (fun m acc => movementY m.2 + acc) 0 moves.

(** The coordinate of an image dragged from [x] through the movements
    [ds]: each is added in doubles, in the order of the events. *)
Fixpoint dragSum (x : Q) (ds : list Q) : Q :=
  match ds with
  | [] => x
  | d :: rest => dragSum (fadd x d) rest
  end.

(** None of these sums is rounded, and none leaves the range of the
    doubles. *)
Fixpoint exactSums (x : Q) (ds : list Q) : Prop :=
  match ds with
  | [] => True
  | d :: rest =>
      fadd x d == x + d /\ Qabs (x + d) <= MAX_VALUE /\
      exactSums (fadd x d) rest
  end.

(** Whole numbers whose running sums from [x] stay within [2 ^ 53]. *)
Fixpoint wholeSums (x : Z) (ds : list Z) : Prop :=
  match ds with
  | [] => True
  | d :: rest =>
      (Z.abs x <= 2 ^ 53)%Z /\ (Z.abs d <= 2 ^ 53)%Z /\
      (Z.abs (x + d) <= 2 ^ 53)%Z /\ wholeSums (x + d) rest
  end.

(** The state with the selection cleared, the pointer away from the
    canvas and no element in progress. *)
Definition withoutEphemeral (s : EditorState) : EditorState :=
  setSelectedImageIndex None
    (setMousePosition None (setSelectedElement None s)).

(** The brush-size circle is not shown. *)
Definition previewHidden (s : EditorState) : Prop :=
  mousePosition s = None \/ isDrawingTool (activeTool s) = false \/
  action s <> none.

(** A string without a comma, as base64 text is. *)
Fixpoint comma_free (s : string) : bool :=
  match s with
  | EmptyString => true
  | String ch rest => negb (Ascii.eqb ch ","%char) && comma_free rest
  end.

(** A drawing that leaves the size of the canvas alone. *)
Definition keeps_size (d : Draw) : Prop :=
  forall c, canvas_width (d c) = canvas_width c /\
            canvas_height (d c) = canvas_height c.

(** ** Sample scenes *)

Definition chairFile : UploadedFile := mkUploadedFile "chair" "blob:chair".
Definition chairPhoto : HTMLImage := mkHTMLImage "blob:chair" 300%positive 200%positive.
Definition chair : PlacedImage := mkPlacedImage "chair" chairPhoto 50 50 150 100.

Definition origin : DOMRect := mkDOMRect 0 0.
(** A pointer event at a position of the viewport, without movement. *)
Definition at_ (x y : Q) : MouseEvent := mkMouseEvent x y 0 0.

(** The chair selected and its bottom-right handle held. *)
Definition resizingScene : EditorState :=
  {| placedImages := [chair]; elements := []; activeTool := move;
     action := resizing; selectedImageIndex := Some O;
     selectedElement := None; resizeHandle := Some br;
     strokeColor := "#000000"; strokeWidth := 5;
     mousePosition := Some (mkPoint 200 150); backgroundColor := "#FFFFFF";
     backgroundImage := None; cursor := "nwse-resize" |}.

(** Towards the top-left corner (rejected), back out, release, grab the
    top-left handle and pull it inwards. *)
Definition resizeMoves : list Event :=
  [ MouseMove origin (at_ 55 55); MouseMove origin (at_ 300 300); MouseUp;
    MouseDown origin (at_ 50 50) "unused"; MouseMove origin (at_ 100 100);
    MouseMove origin (at_ 295 295); MouseLeave ].

Definition tableFile : UploadedFile := mkUploadedFile "table" "blob:table".
Definition tablePhoto : HTMLImage := mkHTMLImage "blob:table" 300%positive 200%positive.
Definition table : PlacedImage :=
  mkPlacedImage "table" tablePhoto 100 80 150 100.

(** The chair, and the table added after it and overlapping it; nothing
    selected, the move tool armed. *)
Definition overlapScene : EditorState :=
  setPlacedImages [chair; table] initialState.

(** The pencil armed over an empty white canvas. *)
Definition pencilScene : EditorState := setActiveTool pencil initialState.

(** A pencil stroke through three points, not yet released. *)
Definition strokeInProgress : CanvasElement :=
  mkCanvasElement "stroke-1" pencil
    [mkPoint 10 10; mkPoint 20 15; mkPoint 30 30] "#000000" 5.

Definition drawingScene : EditorState :=
  setMousePosition (Some (mkPoint 30 30))
    (setSelectedElement (Some strokeInProgress)
       (setAction drawing pencilScene)).

(** A committed pencil stroke, and an eraser stroke across it that is
    still in progress. *)
Definition pencilStroke : CanvasElement :=
  mkCanvasElement "stroke-0" pencil [mkPoint 10 10; mkPoint 60 60] "#000000" 5.

Definition eraserStroke : CanvasElement :=
  mkCanvasElement "stroke-1" eraser [mkPoint 10 60; mkPoint 60 10] "#000000" 5.

Definition erasingScene : EditorState :=
  setSelectedElement (Some eraserStroke)
    (setAction drawing
       (setElements [pencilStroke] (setActiveTool eraser initialState))).

(** Three moves of the pointer. *)
Definition threeMoves : list (DOMRect * MouseEvent) :=
  [ (origin, at_ 20 15); (origin, at_ 30 30); (origin, at_ 110 60) ].


(** A drag of the chair in two steps of (10, -5). *)
Definition dragMoves : list (DOMRect * MouseEvent) :=
  [ (origin, mkMouseEvent 70 55 10 (-5)); (origin, mkMouseEvent 80 50 10 (-5)) ].

(** The double nearest to 4/3: a movement of two device pixels on a
    display at 150%. *)
Definition twoDevicePixels : Q := round64 (4 # 3).

(** A drag in three steps, of which the first and the last are not whole
    pixels; the movements are doubles and total (20, -10). *)
Definition fractionalMoves : list (DOMRect * MouseEvent) :=
  [ (origin, mkMouseEvent (60 + twoDevicePixels) 60 twoDevicePixels 0);
    (origin, mkMouseEvent (80 + twoDevicePixels) 50 20 (-10));
    (origin, mkMouseEvent 80 50 (- twoDevicePixels) 0) ].

Definition roomPhoto : HTMLImage :=
  mkHTMLImage "data:image/png;base64,room" 1600%positive 1200%positive.

(** Red is chosen as the background, a room photo is then loaded as the
    background, and a stroke is drawn with the eraser. *)
Definition eraseOverPhoto : list Event :=
  [ BackgroundColorInput "#FF0000"; BackgroundImageLoaded roomPhoto;
    ToolClick eraser; MouseDown origin (at_ 10 60) "stroke-1";
    MouseMove origin (at_ 60 10); MouseUp; MouseLeave ].

(** The chair, then the table, added from their thumbnails. *)
Definition addChairAndTable : list Event :=
  [ FurnitureLoaded chairFile chairPhoto; FurnitureLoaded tableFile tablePhoto ].

(** The events that add the chair and select it with a click. *)
Definition selectChair : list Event :=
  [ FurnitureLoaded chairFile chairPhoto;
    MouseDown origin (at_ 60 60) "unused"; MouseUp; MouseLeave ].

(** The two images and a pencil stroke, nothing selected, the move tool
    armed and the pointer resting on the canvas. *)
Definition hoverScene : EditorState :=
  setMousePosition (Some (mkPoint 300 300))
    (setElements [pencilStroke] overlapScene).

(** A stand-in for the browser's encoder. *)
Definition sampleEncoder (w h : Q) (frame : list Paint) : string :=
  "/9j/4AAQSkZJRgABAQ".

(** ** Corners of a placed image *)




(** The chair selected, the move tool armed, nothing in progress. *)
Definition chairSelected : EditorState :=
  setSelectedImageIndex (Some O) (setPlacedImages [chair] initialState).

(** The table being dragged while the chair lies under it. *)
Definition draggingTable : EditorState :=
  setSelectedImageIndex (Some 1%nat) (setAction dragging overlapScene).

(** ** Invariants of the editor *)



Definition isRelease (ev : Event) : bool :=
  match ev with
  | MouseUp | MouseLeave => true
  | _ => false
  end.

Definition isFurnitureLoaded (ev : Event) : bool :=
  match ev with
  | FurnitureLoaded _ _ => true
  | _ => false
  end.

(** A press with the line tool, a drag, a release away from the canvas,
    then a chair and a click on it. *)
Definition mixedSession : list Event :=
  [ ToolClick line; MouseDown origin (at_ 10 10) "line-1";
    MouseMove origin (at_ 40 40); MouseLeave;
    FurnitureLoaded chairFile chairPhoto; ToolClick move;
    MouseDown origin (at_ 60 60) "unused"; MouseUp ].

(** The state in which [mixedSession] leaves the editor. *)
Definition afterMixedSession : EditorState :=
  default initialState (run mixedSession initialState).

(** ** Layers of the frame *)

(** The paints of the layer above the drawings: placed images, the
    outline and handles of the selected one, and the brush-size
    circle. *)
Definition isOverlayPaint (p : Paint) : Prop :=
  match p with
  | PDrawImage _ _ _ _ _ | PStrokeRect _ _ _ _ _ | PFillRect _ _ _ _ _ => True
  | PStrokePath stroke_pen [ArcFull _ _ (RExact _)] =>
      pen_width stroke_pen = 1
  | _ => False
  end.

(** The drawing layer: the committed elements in insertion order, then
    the element in progress. *)
Definition drawingLayer (s : EditorState) : list Paint :=
  map (elementPaint (backgroundColor s))
    (elements s ++ match selectedElement s with
                   | Some el => [el]
                   | None => []
                   end).

(** A drawing that adds paints of the overlay only. *)
Definition appendsOverlay (d : Draw) : Prop :=
  forall c, exists l, content (d c) = content c ++ l /\ Forall isOverlayPaint l.

(** The pencil armed, width 8, the pointer resting at (40, 40). *)
Definition brushScene : EditorState :=
  setMousePosition (Some (mkPoint 40 40)) (setStrokeWidth 8 pencilScene).

(** ** What a repaint reads of the context *)

(** Two contexts of canvases of the same size. *)
Definition sameSize (c c' : Ctx2D) : Prop :=
  canvas_width c = canvas_width c' /\ canvas_height c = canvas_height c'.

(** The same size and the same line cap and line join registers. *)
Definition sameLook (c c' : Ctx2D) : Prop :=
  sameSize c c' /\ pen_cap (pen c) = pen_cap (pen c') /\
  pen_join (pen c) = pen_join (pen c').

(** The same look and the same paints on the canvas. *)
Definition agree (c c' : Ctx2D) : Prop :=
  sameLook c c' /\ content c = content c'.

(** * The generation service (services/geminiService.ts)

    The requests to the model and the reading of files are the
    environment: what a [FileReader] delivers for a file is a field of
    the file, and what the awaited model calls deliver is an argument. *)

(** ** Strings of JavaScript *)

Definition newline : string := String "010"%char EmptyString.

(** A value used as a condition: [undefined] and the empty string are
    false. *)
Definition truthy (v : option string) : bool :=
  match v with
  | Some (String _ _) => true
  | _ => false
  end.

(** A value inside a template literal: [undefined] prints as such. *)
Definition interpolate (v : option string) : string :=
  default "undefined" v.

(** [Array.prototype.join]. *)
Fixpoint join (sep : string) (l : list string) : string :=
  match l with
  | [] => EmptyString
  | [a] => a
  | a :: rest => a +:+ sep +:+ join sep rest
  end.

(** [String.prototype.includes]. *)
Fixpoint includes (search s : string) : bool :=
  String.prefix search s ||
  match s with
  | EmptyString => false
  | String _ rest => includes search rest
  end.

(** ** Files *)

(** A [File]: its name, its MIME type and what [readAsDataURL] delivers
    for it, the data URL, or [None] when the reader fails. *)
Record File := mkFile {
  file_name : string;
  file_type : string;
  file_dataURL : option string
}.

(** The whole of [UploadedFile] (types.ts). *)
Record FurnitureFile := mkFurnitureFile {
  uploaded : UploadedFile;
  file : File;
  width : option string;
  height : option string;
  depth : option string;
  units : option string
}.

(** The promise of [fileToBase64] once settled: [None] when it is
    rejected, otherwise the value it resolves with, which is
    [undefined] when the data URL has no comma. *)
Definition fileToBase64 (f : File) : option (option string) :=
  match file_dataURL f with
  | Some result => Some (split_comma result !! 1%nat)
  | None => None
  end.

(** ** The prompt *)

(** [BASE_RENDER_PROMPT] (constants.ts). *)
Definition BASE_RENDER_PROMPT : string :=
  "Create a super realistic interior design rendering using the " +:+
  "uploaded furniture items. Arrange them in a harmonious, modern, " +:+
  "and cozy environment that feels functional and stylish. The space " +:+
  "should be well-lit with plenty of natural daylight streaming in " +:+
  "through windows, emphasizing brightness and warmth." +:+
  newline +:+ newline +:+
  "Focus on making the furniture the central elements of the design, " +:+
  "integrating them naturally into the room. Use textures, shadows, " +:+
  "and reflections to make the rendering lifelike. Add complementary " +:+
  "décor elements such as indoor plants, rugs, artworks, or lamps if " +:+
  "needed, but always keep the uploaded furniture pieces as the main " +:+
  "highlights." +:+
  newline +:+ newline +:+
  "The environment should feel welcoming, modern, and minimalistic, " +:+
  "with Scandinavian and contemporary influences. Prioritize neutral " +:+
  "tones, wood textures, soft textiles, and natural materials. Ensure " +:+
  "realistic proportions and correct spatial arrangement so that the " +:+
  "furniture looks practical and usable in a real home." +:+
  newline +:+ newline +:+
  "Avoid cartoonish, blurry, abstract, low-resolution, artificial, or " +:+
  "overly stylized images. Avoid distorted furniture proportions, " +:+
  "floating objects, or items that look computer-generated. Exclude " +:+
  "unrealistic lighting such as neon glows, unnatural colors, or " +:+
  "overexposed highlights. No empty white backgrounds, surreal " +:+
  "elements, or cluttered arrangements.".

Record GenerationOptions := mkGenerationOptions {
  opt_location : option string;
  opt_description : option string;
  opt_canvasImage : option string
}.

(** The line of one file in [dimensionDetails], [null] unless it has a
    width and a height. *)
Definition dimensionLine (i : nat) (f : FurnitureFile) : option string :=
  if truthy (width f) && truthy (height f) then
    Some ("- Furniture piece seen in image #" +:+ pretty (i + 1)%nat +:+
          ": Width " +:+ interpolate (width f) +:+ interpolate (units f) +:+
          ", Height " +:+ interpolate (height f) +:+ interpolate (units f) +:+
          (if truthy (depth f)
           then ", Depth " +:+ interpolate (depth f) +:+ interpolate (units f)
           else EmptyString) +:+
          ".")
  else None.

(** The lines that survive [filter(Boolean)]. *)
Definition dimensionLines (files : list FurnitureFile) : list string :=
  omap id (imap dimensionLine files).

Definition dimensionDetails (files : list FurnitureFile) : string :=
  join newline (dimensionLines files).

Definition dimensionPrompt (files : list FurnitureFile) : string :=
  match dimensionDetails files with
  | EmptyString => EmptyString
  | details =>
      newline +:+ newline +:+
      "Please adhere to the following furniture dimensions to ensure realistic proportions and scale within the scene:" +:+
      newline +:+ details
  end.

Definition sketchPreamble : string :=
  "Using the provided canvas sketch as a layout guide, create a super realistic interior design rendering. The sketch shows the desired placement of furniture and custom drawings. High-resolution versions of the furniture items are also provided for detail. ".

Definition buildPrompt (options : GenerationOptions)
    (files : list FurnitureFile) : string :=
  if truthy (opt_canvasImage options) then
    sketchPreamble +:+ BASE_RENDER_PROMPT +:+ " " +:+ dimensionPrompt files
  else
    BASE_RENDER_PROMPT +:+
    (if truthy (opt_location options)
     then " The room should be a " +:+ interpolate (opt_location options) +:+ "."
     else EmptyString) +:+
    (if truthy (opt_description options)
     then " Additional details: " +:+ interpolate (opt_description options) +:+ "."
     else EmptyString) +:+
    dimensionPrompt files.

(** ** The request *)

Inductive Part :=
| InlineData (data : option string) (mimeType : string)
| TextPart (text : string).

(** [contents.parts]: the sketch if there is one, the furniture pictures
    in the order of the files, the prompt. *)
Definition buildContents (options : GenerationOptions)
    (files : list FurnitureFile) (base64Images : list (option string))
  : list Part :=
  (if truthy (opt_canvasImage options)
   then [InlineData (opt_canvasImage options) "image/jpeg"]
   else []) ++
  zip_with (fun b64 f => InlineData b64 (file_type (file f)))
    base64Images files ++
  [TextPart (buildPrompt options files)].

(** ** The response *)

Record InlineBlob := mkInlineBlob {
  blob_data : option string;
  blob_mimeType : option string
}.

Record ResponsePart := mkResponsePart { inlineData : option InlineBlob }.

(** [cand_parts] is [candidate.content.parts]; [None] when the content
    or its parts are missing, which raises on access. *)
Record Candidate := mkCandidate { cand_parts : option (list ResponsePart) }.

Record Response := mkResponse { candidates : option (list Candidate) }.

(** What is thrown and caught: an [Error] with its message, or another
    value. *)
Inductive Thrown := ErrorWith (message : string) | NotAnError.

(** The data URL of the first part of a candidate that carries inline
    data. *)
Fixpoint firstImage (parts : list ResponsePart) : option string :=
  match parts with
  | [] => None
  | part :: rest =>
      match inlineData part with
      | Some blob =>
          Some ("data:" +:+ interpolate (blob_mimeType blob) +:+
                ";base64," +:+ interpolate (blob_data blob))
      | None => firstImage rest
      end
  end.

Section Collecting.

(** The message of the [TypeError] the engine raises on a candidate
    without parts. *)
Variable typeErrorMessage : string.

Fixpoint collectCandidates (cs : list Candidate) (acc : list string)
  : Thrown + list string :=
  match cs with
  | [] => inr acc
  | candidate :: rest =>
      match cand_parts candidate with
      | None => inl (ErrorWith typeErrorMessage)
      | Some parts =>
          collectCandidates rest
            (match firstImage parts with
             | Some imageUrl => acc ++ [imageUrl]
             | None => acc
             end)
      end
  end.

(** The loop over the responses that fills [generatedImages]. *)
Fixpoint collectImages (responses : list Response) (acc : list string)
  : Thrown + list string :=
  match responses with
  | [] => inr acc
  | response :: rest =>
      match candidates response with
      | Some (c :: cs) =>
          match collectCandidates (c :: cs) acc with
          | inr acc' => collectImages rest acc'
          | inl thrown => inl thrown
          end
      | _ => collectImages rest acc
      end
  end.

(** What [generateRenderings] ends with. *)
Inductive Outcome := Returned (images : list string) | Raised (message : string).

Definition MSG_NO_KEY : string := "API_KEY environment variable is not set.".
Definition MSG_NO_IMAGES : string :=
  "The model did not return any images. Please try again with different furniture.".
Definition MSG_INVALID : string :=
  "The request was invalid. Please check the uploaded images and try again. It's possible one of the images is in a format the model cannot process.".
Definition MSG_FAILED : string :=
  "Failed to generate interior design renderings. Please check the console for details.".

(** The [catch] block. *)
Definition rethrow (error : Thrown) : Outcome :=
  match error with
  | ErrorWith message =>
      if includes "400" message then Raised MSG_INVALID else Raised MSG_FAILED
  | NotAnError => Raised MSG_FAILED
  end.

(** The furniture pictures once all the reads have settled; [None] when
    one was rejected. *)
Definition readAll (files : list FurnitureFile) : option (list (option string)) :=
  mapM (fun f => fileToBase64 (file f)) files.

(** The requests made: one per image asked for, all with the same
    contents; none without a key or when a file cannot be read. *)
Definition requestsSent (apiKey : option string) (files : list FurnitureFile)
    (options : GenerationOptions) (numImages : nat) : list (list Part) :=
  if truthy apiKey then
    match readAll files with
    | Some base64Images =>
        replicate numImages (buildContents options files base64Images)
    | None => []
    end
  else [].

(** [apiKey] is [process.env.API_KEY]; [responses] is what awaiting the
    requests gives, the responses or the error of the one that failed. *)
Definition generateRenderings (apiKey : option string)
    (files : list FurnitureFile) (options : GenerationOptions)
    (numImages : nat) (responses : Thrown + list Response) : Outcome :=
  if truthy apiKey then
    match readAll files with
    | None => rethrow NotAnError
    | Some _ =>
        match responses with
        | inl thrown => rethrow thrown
        | inr received =>
            match collectImages received [] with
            | inl thrown => rethrow thrown
            | inr [] => rethrow (ErrorWith MSG_NO_IMAGES)
            | inr generatedImages => Returned generatedImages
            end
        end
    end
  else Raised MSG_NO_KEY.

End Collecting.

(** * The application (App.tsx) *)

Record AppState := mkAppState {
  uploadedFiles : list FurnitureFile;
  generatedImages : list string;
  isLoading : bool;
  error : option string;
  location : string;
  customLocation : string;
  userDescription : string;
  isAdvancedMode : bool;
  activeImageIndex : Z;
  numImages : nat
}.

Definition initialApp : AppState :=
  {| uploadedFiles := []; generatedImages := []; isLoading := false;
     error := None; location := "livingroom"; customLocation := EmptyString;
     userDescription := EmptyString; isAdvancedMode := false;
     activeImageIndex := 0%Z; numImages := 4%nat |}.

Definition setUploadedFiles (v : list FurnitureFile) (s : AppState) :=
  mkAppState v (generatedImages s) (isLoading s) (error s) (location s)
    (customLocation s) (userDescription s) (isAdvancedMode s)
    (activeImageIndex s) (numImages s).
Definition setGeneratedImages (v : list string) (s : AppState) :=
  mkAppState (uploadedFiles s) v (isLoading s) (error s) (location s)
    (customLocation s) (userDescription s) (isAdvancedMode s)
    (activeImageIndex s) (numImages s).
Definition setIsLoading (v : bool) (s : AppState) :=
  mkAppState (uploadedFiles s) (generatedImages s) v (error s) (location s)
    (customLocation s) (userDescription s) (isAdvancedMode s)
    (activeImageIndex s) (numImages s).
Definition setError (v : option string) (s : AppState) :=
  mkAppState (uploadedFiles s) (generatedImages s) (isLoading s) v (location s)
    (customLocation s) (userDescription s) (isAdvancedMode s)
    (activeImageIndex s) (numImages s).
Definition setLocation (v : string) (s : AppState) :=
  mkAppState (uploadedFiles s) (generatedImages s) (isLoading s) (error s) v
    (customLocation s) (userDescription s) (isAdvancedMode s)
    (activeImageIndex s) (numImages s).
Definition setCustomLocation (v : string) (s : AppState) :=
  mkAppState (uploadedFiles s) (generatedImages s) (isLoading s) (error s)
    (location s) v (userDescription s) (isAdvancedMode s)
    (activeImageIndex s) (numImages s).
Definition setUserDescription (v : string) (s : AppState) :=
  mkAppState (uploadedFiles s) (generatedImages s) (isLoading s) (error s)
    (location s) (customLocation s) v (isAdvancedMode s)
    (activeImageIndex s) (numImages s).
Definition setIsAdvancedMode (v : bool) (s : AppState) :=
  mkAppState (uploadedFiles s) (generatedImages s) (isLoading s) (error s)
    (location s) (customLocation s) (userDescription s) v
    (activeImageIndex s) (numImages s).
Definition setActiveImageIndex (v : Z) (s : AppState) :=
  mkAppState (uploadedFiles s) (generatedImages s) (isLoading s) (error s)
    (location s) (customLocation s) (userDescription s) (isAdvancedMode s)
    v (numImages s).
Definition setNumImages (v : nat) (s : AppState) :=
  mkAppState (uploadedFiles s) (generatedImages s) (isLoading s) (error s)
    (location s) (customLocation s) (userDescription s) (isAdvancedMode s)
    (activeImageIndex s) v.

(** ** Uploads *)

(** One chosen file with what [crypto.randomUUID] and
    [URL.createObjectURL] gave for it. *)
Record ChosenFile := mkChosenFile {
  chosen_uuid : string;
  chosen_url : string;
  chosen_file : File
}.

Definition newUpload (c : ChosenFile) : FurnitureFile :=
  {| uploaded := {| file_id := chosen_uuid c; previewUrl := chosen_url c |};
     file := chosen_file c;
     width := Some EmptyString; height := Some EmptyString;
     depth := Some EmptyString; units := Some "cm" |}.

(** [files] is [event.target.files]. *)
Definition handleFileChange (files : option (list ChosenFile)) (s : AppState)
  : AppState :=
  match files with
  | Some chosen =>
      setUploadedFiles (uploadedFiles s ++ List.map newUpload chosen) s
  | None => s
  end.

Definition fileId (f : FurnitureFile) : string := file_id (uploaded f).

Definition handleRemoveFile (id : string) (s : AppState) : AppState :=
  setUploadedFiles
    (List.filter (fun f => negb (String.eqb (fileId f) id)) (uploadedFiles s)) s.

Inductive DimensionField := FieldWidth | FieldHeight | FieldDepth | FieldUnits.

(** [{ ...f, [field]: value }]. *)
Definition withField (field : DimensionField) (value : string)
    (f : FurnitureFile) : FurnitureFile :=
  match field with
  | FieldWidth =>
      mkFurnitureFile (uploaded f) (file f) (Some value) (height f) (depth f) (units f)
  | FieldHeight =>
      mkFurnitureFile (uploaded f) (file f) (width f) (Some value) (depth f) (units f)
  | FieldDepth =>
      mkFurnitureFile (uploaded f) (file f) (width f) (height f) (Some value) (units f)
  | FieldUnits =>
      mkFurnitureFile (uploaded f) (file f) (width f) (height f) (depth f) (Some value)
  end.

Definition handleDimensionChange (id : string) (field : DimensionField)
    (value : string) (s : AppState) : AppState :=
  setUploadedFiles
    (List.map (fun f => if String.eqb (fileId f) id then withField field value f else f)
       (uploadedFiles s)) s.

(** ** The carousel *)

(** The updaters of the two arrow buttons; [%] is the remainder that
    takes the sign of the dividend. *)
Definition previousIndex (len : nat) (prev : Z) : Z :=
  Z.rem (prev - 1 + Z.of_nat len) (Z.of_nat len).

Definition nextIndex (len : nat) (prev : Z) : Z :=
  Z.rem (prev + 1) (Z.of_nat len).

(** [generatedImages[activeImageIndex]]. *)
Definition activeImage (s : AppState) : option string :=
  if (activeImageIndex s <? 0)%Z then None
  else generatedImages s !! Z.to_nat (activeImageIndex s).

(** The link that [handleDownload] clicks: its [href] and its
    [download] name; none when there is no active image. *)
Definition handleDownload (s : AppState) : option (string * string) :=
  match activeImage s with
  | Some (String ch rest) =>
      Some (String ch rest,
            "interior-design-" +:+ pretty (activeImageIndex s + 1)%Z +:+ ".png")
  | _ => None
  end.

(** ** Generation *)

Definition MSG_NO_FILES : string := "Please upload at least one furniture image.".
Definition MSG_UNKNOWN : string := "An unknown error occurred.".

(** What [canvasRef.current] gives access to: the canvas element of the
    mounted editor and the state its [getCanvasAsBase64] closes over. *)
Record EditorHandle := mkEditorHandle {
  editor_canvas : option Ctx2D;
  editor_state : EditorState
}.

(** The arguments of a call of [generateRenderings]. *)
Record Request := mkRequest {
  req_files : list FurnitureFile;
  req_options : GenerationOptions;
  req_numImages : nat
}.

Section Application.

Variable jpegBase64 : Q -> Q -> list Paint -> string.
Variable typeErrorMessage : string.

(** [process.env.API_KEY]. *)
Variable apiKey : option string.

Definition canvasImage (canvasRef : option EditorHandle) (s : AppState)
  : option string :=
  match isAdvancedMode s, canvasRef with
  | true, Some editor =>
      let b64 :=
        getCanvasAsBase64 jpegBase64 (editor_canvas editor) (editor_state editor) in
      if truthy b64 then b64 else None
  | _, _ => None
  end.

Definition finalLocation (s : AppState) : string :=
  if String.eqb (location s) "other" then customLocation s else location s.

(** The call made by [handleGenerate]; none without uploads. *)
Definition generateRequest (canvasRef : option EditorHandle) (s : AppState)
  : option Request :=
  match uploadedFiles s with
  | [] => None
  | _ =>
      Some {| req_files := uploadedFiles s;
              req_options :=
                {| opt_location :=
                     if isAdvancedMode s then None else Some (finalLocation s);
                   opt_description := Some (userDescription s);
                   opt_canvasImage := canvasImage canvasRef s |};
              req_numImages := numImages s |}
  end.

(** [handleGenerate] up to its [await]. *)
Definition handleGenerate_begin (s : AppState) : AppState :=
  match uploadedFiles s with
  | [] => setError (Some MSG_NO_FILES) s
  | _ => setGeneratedImages [] (setError None (setIsLoading true s))
  end.

(** [handleGenerate] after its [await]: the end of [try], or [catch],
    then [finally].  What [generateRenderings] throws is always an
    [Error]. *)
Definition handleGenerate_settle (outcome : Outcome) (s : AppState) : AppState :=
  setIsLoading false
    match outcome with
    | Returned results => setActiveImageIndex 0 (setGeneratedImages results s)
    | Raised message => setError (Some message) s
    end.

Definition performRequest (r : Request) (responses : Thrown + list Response)
  : Outcome :=
  generateRenderings typeErrorMessage apiKey (req_files r) (req_options r)
    (req_numImages r) responses.

(** [handleGenerate] from the click to the end, when nothing else
    happens in between. *)
Definition handleGenerate (canvasRef : option EditorHandle)
    (responses : Thrown + list Response) (s : AppState) : AppState :=
  match generateRequest canvasRef s with
  | None => handleGenerate_begin s
  | Some r =>
      handleGenerate_settle (performRequest r responses) (handleGenerate_begin s)
  end.

(** ** The application as a machine *)

(** The application between two events: its state and the call of
    [generateRenderings] that has not settled yet. *)
Record App := mkApp { app_state : AppState; in_flight : option Request }.

Definition initialMachine : App := mkApp initialApp None.

Inductive AppEvent :=
| FilesChosen (files : option (list ChosenFile))
| RemoveClick (id : string)
| DimensionInput (id : string) (field : DimensionField) (value : string)
| LocationClick (id : string)
| CustomLocationInput (value : string)
| DescriptionInput (value : string)
| AdvancedToggle
| NumImagesInput (value : nat)
| GenerateClick (canvasRef : option EditorHandle)
| GenerateSettled (responses : Thrown + list Response)
| PreviousClick
| NextClick
| DotClick (index : nat).

(** The results section is rendered. *)
Definition resultsShown (s : AppState) : bool :=
  negb (isLoading s) &&
  match generatedImages s with [] => false | _ => true end.

(** The arrows and the dots are rendered. *)
Definition carouselShown (s : AppState) : bool :=
  resultsShown s && (1 <? length (generatedImages s))%nat.

(** Steps 2 and 3 of the page are rendered. *)
Definition customizeShown (s : AppState) : bool :=
  match uploadedFiles s with [] => false | _ => true end.

(** The form of the simple mode is rendered. *)
Definition simpleFormShown (s : AppState) : bool :=
  customizeShown s && negb (isAdvancedMode s).

(** The Generate button is rendered and enabled. *)
Definition generateEnabled (s : AppState) : bool :=
  negb (isLoading s) &&
  match uploadedFiles s with [] => false | _ => true end.

(** The card of an upload with this id is rendered. *)
Definition hasUpload (id : string) (s : AppState) : bool :=
  existsb (fun f => String.eqb (fileId f) id) (uploadedFiles s).

(** The ids of [locationOptions]. *)
Definition locationOptions : list string :=
  ["livingroom"; "bedroom"; "bathroom"; "outdoor"; "other"].

Definition updateApp (f : AppState -> AppState) (a : App) : option App :=
  Some (mkApp (f (app_state a)) (in_flight a)).

(** One event; [None] when the control that raises it is not on the
    page or cannot give that value (the slider goes from 1 to 10), or
    when nothing is awaited. *)
Definition appStep (e : AppEvent) (a : App) : option App :=
  let s := app_state a in
  match e with
  | FilesChosen files => updateApp (handleFileChange files) a
  | RemoveClick id =>
      if hasUpload id s then updateApp (handleRemoveFile id) a else None
  | DimensionInput id field value =>
      if hasUpload id s
      then updateApp (handleDimensionChange id field value) a
      else None
  | LocationClick id =>
      if simpleFormShown s && bool_decide (id ∈ locationOptions)
      then updateApp (setLocation id) a
      else None
  | CustomLocationInput value =>
      if simpleFormShown s && String.eqb (location s) "other"
      then updateApp (setCustomLocation value) a
      else None
  | DescriptionInput value =>
      if simpleFormShown s then updateApp (setUserDescription value) a else None
  | AdvancedToggle =>
      if customizeShown s
      then updateApp (setIsAdvancedMode (negb (isAdvancedMode s))) a
      else None
  | NumImagesInput value =>
      if customizeShown s && (1 <=? value)%nat && (value <=? 10)%nat
      then updateApp (setNumImages value) a
      else None
  | GenerateClick canvasRef =>
      if generateEnabled s
      then Some (mkApp (handleGenerate_begin s) (generateRequest canvasRef s))
      else None
  | GenerateSettled responses =>
      match in_flight a with
      | Some r =>
          Some (mkApp (handleGenerate_settle (performRequest r responses) s) None)
      | None => None
      end
  | PreviousClick =>
      if carouselShown s
      then updateApp
             (setActiveImageIndex
                (previousIndex (length (generatedImages s)) (activeImageIndex s))) a
      else None
  | NextClick =>
      if carouselShown s
      then updateApp
             (setActiveImageIndex
                (nextIndex (length (generatedImages s)) (activeImageIndex s))) a
      else None
  | DotClick index =>
      if carouselShown s && (index <? length (generatedImages s))%nat
      then updateApp (setActiveImageIndex (Z.of_nat index)) a
      else None
  end.

Fixpoint appRun (evs : list AppEvent) (a : App) : option App :=
  match evs with
  | [] => Some a
  | e :: rest =>
      match appStep e a with
      | Some a' => appRun rest a'
      | None => None
      end
  end.

End Application.

(** ** Descriptions used by the statements about the service *)

(** The candidates of all the responses, in order. *)
Definition allCandidates (responses : list Response) : list Candidate :=
  concat (List.map (fun response => default [] (candidates response)) responses).

(** The picture taken from a candidate. *)
Definition candidateImage (candidate : Candidate) : option string :=
  match cand_parts candidate with
  | Some parts => firstImage parts
  | None => None
  end.

(** A file that gets a line in the dimension section. *)
Definition hasDimensions (f : FurnitureFile) : bool :=
  truthy (width f) && truthy (height f).

(** The position at which the furniture pictures start in the parts. *)
Definition firstFurniturePart (options : GenerationOptions) : nat :=
  if truthy (opt_canvasImage options) then 1%nat else 0%nat.

(** ** A sample generation *)

Definition chairPng : File :=
  mkFile "chair.png" "image/png" (Some "data:image/png;base64,iVBORw0KGgo=").
Definition tableJpg : File :=
  mkFile "table.jpg" "image/jpeg" (Some "data:image/jpeg;base64,/9j/4AAQ").
Definition chosenChair : ChosenFile := mkChosenFile "chair" "blob:chair" chairPng.
Definition chosenTable : ChosenFile := mkChosenFile "table" "blob:table" tableJpg.

Definition renderedPart (data : string) : ResponsePart :=
  mkResponsePart (Some (mkInlineBlob (Some data) (Some "image/png"))).
Definition textOnlyPart : ResponsePart := mkResponsePart None.

(** Three responses: a candidate with a text part and two pictures, no
    candidate at all, a candidate with one picture. *)
Definition sampleResponses : list Response :=
  [ mkResponse
      (Some [mkCandidate (Some [textOnlyPart; renderedPart "AAAA"; renderedPart "BBBB"])]);
    mkResponse None;
    mkResponse (Some [mkCandidate (Some [renderedPart "CCCC"])]) ].

Definition sampleOptions : GenerationOptions :=
  mkGenerationOptions None (Some "Large windows") (Some "/9j/4AAQSkZJRgABAQ").

Definition sampleFiles : list FurnitureFile :=
  [ withField FieldHeight "90" (withField FieldWidth "45" (newUpload chosenChair));
    newUpload chosenTable ].

(** ** What the application keeps true *)

Definition knownMessage (message : string) : Prop :=
  message = MSG_NO_KEY \/ message = MSG_INVALID \/ message = MSG_FAILED.

Definition appInvariant (a : App) : Prop :=
  let s := app_state a in
  (isLoading s = true <-> is_Some (in_flight a)) /\
  (isLoading s = true -> generatedImages s = [] /\ error s = None) /\
  (generatedImages s <> [] ->
   error s = None /\
   (0 <= activeImageIndex s < Z.of_nat (length (generatedImages s)))%Z) /\
  Forall (fun url => String.prefix "data:" url = true) (generatedImages s) /\
  (forall message, error s = Some message -> knownMessage message).

(** Two files are chosen, the chair is given a width and a height,
    three designs are asked for and generated, and the next picture is
    looked at. *)
Definition sampleSession : list AppEvent :=
  [ FilesChosen (Some [chosenChair; chosenTable]);
    DimensionInput "chair" FieldWidth "45";
    DimensionInput "chair" FieldHeight "90";
    NumImagesInput 3;
    GenerateClick None;
    GenerateSettled (inr sampleResponses);
    NextClick ].

Definition afterSampleSession : App :=
  default initialMachine
    (appRun sampleEncoder "undefined is not iterable" (Some "key")
       sampleSession initialMachine).

(** A file is chosen and a generation is started without a key. *)
Definition failedSession : list AppEvent :=
  [ FilesChosen (Some [chosenChair]);
    GenerateClick None;
    GenerateSettled (inr sampleResponses) ].

Definition afterFailedSession : App :=
  default initialMachine
    (appRun sampleEncoder "undefined is not iterable" None
       failedSession initialMachine).

(** The chair is uploaded and the advanced mode is switched on; the
    editor is mounted and untouched. *)
Definition advancedApp : AppState :=
  setIsAdvancedMode true (handleFileChange (Some [chosenChair]) initialApp).

Definition untouchedEditor : EditorHandle :=
  mkEditorHandle (Some mountedCanvas) initialState.

(** What the controls keep true of the choices and of the call that is
    awaited. *)
Definition appBounds (a : App) : Prop :=
  (1 <= numImages (app_state a) <= 10)%nat /\
  location (app_state a) ∈ locationOptions /\
  (forall r, in_flight a = Some r ->
             req_files r <> [] /\ (1 <= req_numImages r <= 10)%nat).

(** Two files are chosen, three designs are asked for and the
    generation is started; the answer is awaited. *)
Definition awaitingSession : list AppEvent :=
  [ FilesChosen (Some [chosenChair; chosenTable]);
    NumImagesInput 3;
    GenerateClick None ].

Definition whileAwaiting : App :=
  default initialMachine
    (appRun sampleEncoder "undefined is not iterable" (Some "key")
       awaitingSession initialMachine).

(** * Properties *)

(** ** Number tests *)

Lemma Qgtb_true (a b : Q) : Qgtb a b = true <-> b < a.
Proof.
  unfold Qgtb. rewrite negb_true_iff, <- not_true_iff_false, Qle_bool_iff.
  split; [apply Qnot_le_lt | apply Qlt_not_le].
Qed.

Lemma Qgtb_false (a b : Q) : Qgtb a b = false <-> a <= b.
Proof. unfold Qgtb. rewrite negb_false_iff. apply Qle_bool_iff. Qed.

Lemma Qgeb_true (a b : Q) : Qgeb a b = true <-> b <= a.
Proof. apply Qle_bool_iff. Qed.

Lemma Qleb_true (a b : Q) : Qleb a b = true <-> a <= b.
Proof. apply Qle_bool_iff. Qed.

(** ** [findIndex] *)

Lemma findIndex_Some {A} (p : A -> bool) (l : list A) (i : nat) :
  findIndex p l = Some i <->
  exists a, l !! i = Some a /\ p a = true /\
            forall j b, (j < i)%nat -> l !! j = Some b -> p b = false.
Proof.
  revert i. induction l as [|a l IH]; intros i; simpl.
  - split; [discriminate | intros (b & Hb & _); discriminate].
  - destruct (p a) eqn:Hpa.
    + split.
      * intros [= <-]. exists a. repeat split; auto. intros j b Hj. lia.
      * intros (b & Hb & Hpb & Hfirst). destruct i as [|i]; [reflexivity|].
        specialize (Hfirst O a ltac:(lia) eq_refl). congruence.
    + split.
      * destruct (findIndex p l) as [k|] eqn:Hk; [|discriminate].
        simpl. intros [= <-].
        destruct (proj1 (IH k) eq_refl) as (b & Hb & Hpb & Hfirst).
        exists b. repeat split; auto.
        intros [|j] c Hj Hc; simpl in Hc; [congruence|].
        apply (Hfirst j); [lia | exact Hc].
      * intros (b & Hb & Hpb & Hfirst). destruct i as [|i].
        { simpl in Hb. congruence. }
        simpl in Hb.
        assert (findIndex p l = Some i) as ->; [|reflexivity].
        apply IH. exists b. repeat split; auto.
        intros j c Hj Hc. apply (Hfirst (S j) c); [lia | exact Hc].
Qed.

Lemma findIndex_None {A} (p : A -> bool) (l : list A) :
  findIndex p l = None <-> forall a, a ∈ l -> p a = false.
Proof.
  induction l as [|a l IH]; simpl.
  - split; [intros _ b Hb; inversion Hb | reflexivity].
  - destruct (p a) eqn:Hpa.
    + split; [discriminate|]. intros H.
      rewrite (H a) in Hpa; [discriminate | left].
    + destruct (findIndex p l) as [k|]; simpl.
      * split; [discriminate|]. intros H.
        assert (Some k = @None nat); [|discriminate].
        apply IH. intros b Hb. apply H. right. exact Hb.
      * split; [|reflexivity]. intros _ b Hb.
        apply elem_of_cons in Hb as [->|Hb]; [exact Hpa|].
        destruct IH as [IH _]. apply IH; [reflexivity | exact Hb].
Qed.

Lemma findIndex_lt {A} (p : A -> bool) (l : list A) (i : nat) :
  findIndex p l = Some i -> (i < length l)%nat.
Proof.
  intros (a & Ha & _)%findIndex_Some. eapply lookup_lt_Some, Ha.
Qed.

(** ** Well-formed states *)

Lemma wf_initialState : wf initialState.
Proof. split; simpl; intros; discriminate. Qed.

Lemma resizeUpdater_length i handle x y prev :
  length (resizeUpdater i handle x y prev) = length prev.
Proof.
  unfold resizeUpdater. repeat case_match; rewrite ?length_insert; reflexivity.
Qed.


Lemma extendPoints_nonempty tool pos points pts :
  extendPoints tool pos points = Some pts -> pts <> [].
Proof.
  unfold extendPoints. repeat case_match; intros [= <-]; try discriminate.
  destruct points; discriminate.
Qed.

(** Closes a goal in which the selected index is read outside the
    array although the state is well formed. *)
Ltac index_in_range :=
  match goal with
  | Hsel : forall i, Some ?n = Some i -> _, H : _ !! ?n = None |- _ =>
      apply lookup_ge_None in H; specialize (Hsel n eq_refl); lia
  | Hsel : forall i, selectedImageIndex ?s = Some i -> _,
    Hi : selectedImageIndex ?s = Some ?n, H : _ !! ?n = None |- _ =>
      apply lookup_ge_None in H; specialize (Hsel n Hi); lia
  end.

Lemma hoverCursor_wf pos s : wf s -> is_Some (hoverCursor pos s).
Proof.
  intros [Hsel _]. unfold hoverCursor.
  repeat case_match; eauto; index_in_range.
Qed.

Lemma handleMouseDown_wf rect e uuid s :
  wf s -> exists s', handleMouseDown rect e uuid s = Some s' /\ wf s'.
Proof.
  intros [Hsel Hel]. unfold handleMouseDown.
  destruct (findIndex _ (placedImages s)) as [k|] eqn:Hk.
  all: repeat case_match; simplify_eq; try (eexists; split; [reflexivity|]).
  all: try (split; simpl; intros; simplify_eq; eauto using findIndex_lt;
            discriminate).
  all: index_in_range.
Qed.

Lemma handleMouseMove_wf rect e s :
  wf s -> exists s', handleMouseMove rect e s = Some s' /\ wf s'.
Proof.
  intros Hwf. pose proof Hwf as [Hsel Hel]. unfold handleMouseMove.
  destruct (hoverCursor_wf (getMousePos rect e) s Hwf) as [c ->]. simpl.
  destruct (action s) eqn:Hact; destruct (selectedImageIndex s) as [i|] eqn:Hi;
    destruct (resizeHandle s) as [h|] eqn:Hh;
    destruct (selectedElement s) as [el|] eqn:Hse; simpl.
  all: try (eexists; split; [reflexivity|]; split; simpl; intros;
            simplify_eq; rewrite ?resizeUpdater_length; eauto; fail).
  all: try (destruct (extendPoints _ _ _) as [pts|] eqn:Hpts; simpl;
            [ eexists; split; [reflexivity|]; split; simpl; intros;
              simplify_eq; simpl; eauto using extendPoints_nonempty
            | exfalso; revert Hpts; unfold extendPoints;
              specialize (Hel el eq_refl);
              destruct (el_points el); repeat case_match; congruence ]; fail).
  all: pose proof (Hsel i eq_refl) as Hlt;
       apply lookup_lt_is_Some in Hlt as [img Himg];
       unfold dragUpdater; rewrite Himg; simpl;
       eexists; split; [reflexivity|]; split; simpl; intros; simplify_eq;
       rewrite ?length_insert; eauto.
Qed.

Lemma handleMouseUp_wf s : wf s -> wf (handleMouseUp s).
Proof.
  intros [Hsel Hel]. unfold handleMouseUp.
  split; simpl; [|discriminate].
  repeat case_match; simpl; exact Hsel.
Qed.

Lemma step_wf ev s : wf s -> exists s', step ev s = Some s' /\ wf s'.
Proof.
  intros Hwf. destruct ev; simpl.
  - apply handleMouseDown_wf, Hwf.
  - apply handleMouseMove_wf, Hwf.
  - eexists; split; [reflexivity | apply handleMouseUp_wf, Hwf].
  - eexists; split; [reflexivity|].
    apply handleMouseUp_wf in Hwf as [Hsel Hel]. split; simpl; auto.
  - eexists; split; [reflexivity|]. destruct Hwf as [_ Hel].
    split; simpl; [discriminate | exact Hel].
  - eexists; split; [reflexivity | exact Hwf].
  - eexists; split; [reflexivity | exact Hwf].
  - eexists; split; [reflexivity | exact Hwf].
  - eexists; split; [reflexivity | exact Hwf].
  - eexists; split; [reflexivity|]. destruct Hwf as [Hsel Hel].
    split; simpl; [|exact Hel].
    intros i Hi. rewrite length_app. apply Hsel in Hi. simpl. lia.
Qed.

(** Every sequence of events runs to completion from a well-formed
    state, and so from the initial one: no handler raises. *)
Lemma run_wf evs s : wf s -> exists s', run evs s = Some s' /\ wf s'.
Proof.
  revert s. induction evs as [|ev evs IH]; intros s Hwf; simpl.
  - eauto.
  - destruct (step_wf ev s Hwf) as (s1 & -> & Hwf1). simpl. apply IH, Hwf1.
Qed.

Lemma run_initialState evs :
  exists s, run evs initialState = Some s /\ wf s.
Proof. apply run_wf, wf_initialState. Qed.

(** ** The size floor of placed images *)

Lemma resizeUpdater_cases i handle x y prev :
  (exists old,
      prev !! i = Some old /\ valid (resized handle x y old) /\
      resizeUpdater i handle x y prev = <[i := resized handle x y old]> prev)
  \/ resizeUpdater i handle x y prev = prev.
Proof.
  unfold resizeUpdater. destruct (prev !! i) as [old|] eqn:Hold; [|right; reflexivity].
  destruct (Qgtb (img_width _) 10) eqn:Hw; simpl; [|right; reflexivity].
  destruct (Qgtb (img_height _) 10) eqn:Hh; simpl; [|right; reflexivity].
  left. exists old. repeat split; auto; apply Qgtb_true; assumption.
Qed.

Lemma resizeUpdater_valid j handle x y prev i img :
  prev !! i = Some img -> valid img ->
  exists img', resizeUpdater j handle x y prev !! i = Some img' /\ valid img'.
Proof.
  intros Himg Hvalid.
  destruct (resizeUpdater_cases j handle x y prev)
    as [(old & Hold & Hnew & ->) | ->]; [|eauto].
  destruct (decide (j = i)) as [->|Hne].
  - rewrite list_lookup_insert_eq by (eapply lookup_lt_Some, Himg). eauto.
  - rewrite list_lookup_insert_ne by exact Hne. eauto.
Qed.

Lemma resizeUpdater_rejects i handle x y prev old :
  prev !! i = Some old ->
  img_width (resized handle x y old) <= 10 \/
  img_height (resized handle x y old) <= 10 ->
  resizeUpdater i handle x y prev = prev.
Proof.
  intros Hold Hsmall. unfold resizeUpdater. rewrite Hold.
  destruct Hsmall as [H|H]; apply Qgtb_false in H; rewrite H;
    [reflexivity | rewrite andb_false_r; reflexivity].
Qed.

Lemma resizeUpdater_accepts i handle x y prev old :
  prev !! i = Some old -> valid (resized handle x y old) ->
  resizeUpdater i handle x y prev !! i = Some (resized handle x y old).
Proof.
  intros Hold [Hw Hh]. unfold resizeUpdater. rewrite Hold.
  apply Qgtb_true in Hw, Hh. rewrite Hw, Hh. simpl.
  apply list_lookup_insert_eq. eapply lookup_lt_Some, Hold.
Qed.

Lemma dragUpdater_valid j e prev imgs i img :
  dragUpdater j e prev = Some imgs -> prev !! i = Some img -> valid img ->
  exists img', imgs !! i = Some img' /\ valid img'.
Proof.
  unfold dragUpdater. destruct (prev !! j) as [old|] eqn:Hold; [|discriminate].
  intros [= <-] Himg Hvalid. destruct (decide (j = i)) as [->|Hne].
  - rewrite list_lookup_insert_eq by (eapply lookup_lt_Some, Himg).
    eexists. split; [reflexivity|]. rewrite Himg in Hold. injection Hold as <-.
    exact Hvalid.
  - rewrite list_lookup_insert_ne by exact Hne. eauto.
Qed.

Lemma handleMouseDown_images rect e uuid s s' :
  handleMouseDown rect e uuid s = Some s' -> placedImages s' = placedImages s.
Proof.
  unfold handleMouseDown. repeat case_match; intros; simplify_eq; reflexivity.
Qed.

Lemma handleMouseUp_images s : placedImages (handleMouseUp s) = placedImages s.
Proof. unfold handleMouseUp. repeat case_match; reflexivity. Qed.

Lemma handleMouseMove_valid rect e s s' i img :
  handleMouseMove rect e s = Some s' ->
  placedImages s !! i = Some img -> valid img ->
  exists img', placedImages s' !! i = Some img' /\ valid img'.
Proof.
  unfold handleMouseMove. intros Hmove Himg Hvalid.
  destruct (hoverCursor _ s) as [c|]; [simpl in Hmove | discriminate].
  repeat case_match; simplify_option_eq; simpl;
    eauto using resizeUpdater_valid, dragUpdater_valid.
Qed.

Lemma step_valid ev s s' i img :
  pointerEvent ev -> step ev s = Some s' ->
  placedImages s !! i = Some img -> valid img ->
  exists img', placedImages s' !! i = Some img' /\ valid img'.
Proof.
  destruct ev; simpl; intros Hev Hstep Himg Hvalid; try contradiction.
  - erewrite handleMouseDown_images; eauto.
  - eapply handleMouseMove_valid; eauto.
  - injection Hstep as <-. rewrite handleMouseUp_images. eauto.
  - injection Hstep as <-.
    change (placedImages (handleMouseLeave s))
      with (placedImages (handleMouseUp s)).
    rewrite handleMouseUp_images. eauto.
Qed.

Lemma run_valid evs s s' i img :
  Forall pointerEvent evs -> run evs s = Some s' ->
  placedImages s !! i = Some img -> valid img ->
  exists img', placedImages s' !! i = Some img' /\ valid img'.
Proof.
  revert s img. induction evs as [|ev evs IH]; simpl;
    intros s img Hevs Hrun Himg Hvalid.
  - injection Hrun as <-. eauto.
  - apply Forall_cons in Hevs as [Hev Hevs].
    destruct (step ev s) as [s1|] eqn:Hstep; [simpl in Hrun | discriminate].
    destruct (step_valid ev s s1 i img Hev Hstep Himg Hvalid)
      as (img1 & Himg1 & Hvalid1).
    eapply IH; eauto.
Qed.

Lemma handleMouseMove_resizing rect e s i handle :
  action s = resizing -> selectedImageIndex s = Some i ->
  resizeHandle s = Some handle ->
  handleMouseMove rect e s =
  Some (setPlacedImages
          (resizeUpdater i handle (px (getMousePos rect e))
             (py (getMousePos rect e)) (placedImages s))
          (setCursor (cursor s)
             (setMousePosition (Some (getMousePos rect e)) s))).
Proof.
  intros Hact Hi Hh. unfold handleMouseMove, hoverCursor.
  rewrite Hact, Hi, Hh. reflexivity.
Qed.

(** C2.  Take a placed image with width > 10 and height > 10 in a
    well-formed state.  Every sequence of pointer events on the canvas,
    among them the moves of a resize through any of the four corner
    handles, is handled without error and leaves that image with
    width > 10 and height > 10.  A resize move whose recomputed rectangle
    has width <= 10 or height <= 10 leaves the array of placed images, and
    so the x, y, width and height of the image, exactly as it was. *)
Theorem resize_floor_invariant (s : EditorState) (evs : list Event)
    (i : nat) (img : PlacedImage)
    (Hwf : wf s) (Hevs : Forall pointerEvent evs)
    (Himg : placedImages s !! i = Some img) (Hvalid : valid img) :
  (exists s' img',
      run evs s = Some s' /\ placedImages s' !! i = Some img' /\
      10 < img_width img' /\ 10 < img_height img') /\
  (forall rect e handle,
      action s = resizing -> selectedImageIndex s = Some i ->
      resizeHandle s = Some handle ->
      let pos := getMousePos rect e in
      img_width (resized handle (px pos) (py pos) img) <= 10 \/
      img_height (resized handle (px pos) (py pos) img) <= 10 ->
      exists s', handleMouseMove rect e s = Some s' /\
                 placedImages s' = placedImages s /\
                 placedImages s' !! i = Some img).
Proof.
  split.
  - destruct (run_wf evs s Hwf) as (s' & Hrun & _).
    destruct (run_valid evs s s' i img Hevs Hrun Himg Hvalid)
      as (img' & Himg' & Hw & Hh).
    exists s', img'. auto.
  - intros rect e handle Hact Hi Hh pos Hsmall.
    rewrite (handleMouseMove_resizing rect e s i handle Hact Hi Hh).
    eexists. split; [reflexivity|].
    change (placedImages (setPlacedImages ?l _)) with l.
    fold pos. rewrite (resizeUpdater_rejects _ _ _ _ _ img Himg Hsmall).
    split; [reflexivity | exact Himg].
Qed.

Lemma resize_floor_invariant_witness :
  wf resizingScene /\ placedImages resizingScene !! O = Some chair /\
  valid chair /\
  exists s' img',
    run resizeMoves resizingScene = Some s' /\
    placedImages s' !! O = Some img' /\
    10 < img_width img' /\ 10 < img_height img'.
Proof.
  assert (Hwf : wf resizingScene).
  { split; simpl; intros i Hi; [injection Hi as <-; lia | discriminate]. }
  assert (Hvalid : valid chair).
  { split; reflexivity. }
  assert (Hevs : Forall pointerEvent resizeMoves).
  { repeat constructor. }
  split; [exact Hwf|]. split; [reflexivity|]. split; [exact Hvalid|].
  exact (proj1 (resize_floor_invariant resizingScene resizeMoves O chair
                  Hwf Hevs eq_refl Hvalid)).
Defined.

(** ** Hit-testing on pointer-down *)

Lemma hits_inside pos img : hits pos img = true <-> inside pos img.
Proof.
  unfold hits, inside. rewrite !andb_true_iff, !Qgeb_true, !Qleb_true. tauto.
Qed.

Lemma hits_outside pos img : hits pos img = false <-> ~ inside pos img.
Proof. rewrite <- hits_inside. destruct (hits pos img); split; congruence. Qed.

Lemma handleMouseDown_hit_test rect e uuid s :
  activeTool s = move -> noHandleHit (getMousePos rect e) s ->
  handleMouseDown rect e uuid s =
  match findIndex (hits (getMousePos rect e)) (placedImages s) with
  | Some imageIndex =>
      Some (setSelectedImageIndex (Some imageIndex) (setAction dragging s))
  | None => Some (setSelectedImageIndex None s)
  end.
Proof.
  intros Htool Hno. unfold handleMouseDown, noHandleHit in *. rewrite Htool.
  destruct (decide (move = move)); [|congruence].
  destruct (selectedImageIndex s) as [i|]; [|reflexivity].
  destruct Hno as (img & -> & ->). reflexivity.
Qed.

(** C3, as the code has it.  On pointer-down with the move tool, when no
    resize handle is hit, the image selected and dragged is the one of
    lowest index, that is the earliest added, among the placed images
    whose bounding box contains the pointer, whatever is drawn above it;
    when no box contains the pointer the selection is cleared and the
    action is left as it was. *)
Theorem hit_test_first_added (rect : DOMRect) (e : MouseEvent) (uuid : string)
    (s : EditorState)
    (Htool : activeTool s = move)
    (Hno : noHandleHit (getMousePos rect e) s) :
  let pos := getMousePos rect e in
  exists s', handleMouseDown rect e uuid s = Some s' /\
    placedImages s' = placedImages s /\
    ((exists i img,
         selectedImageIndex s' = Some i /\ action s' = dragging /\
         placedImages s !! i = Some img /\ inside pos img /\
         forall j other, (j < i)%nat -> placedImages s !! j = Some other ->
                         ~ inside pos other)
     \/ (selectedImageIndex s' = None /\ action s' = action s /\
         forall img, img ∈ placedImages s -> ~ inside pos img)).
Proof.
  intros pos. rewrite (handleMouseDown_hit_test rect e uuid s Htool Hno).
  fold pos. destruct (findIndex (hits pos) (placedImages s)) as [i|] eqn:Hfind.
  - eexists. split; [reflexivity|]. split; [reflexivity|]. left.
    apply findIndex_Some in Hfind as (img & Himg & Hhit & Hfirst).
    exists i, img. repeat split; auto; try (apply hits_inside, Hhit).
    intros j other Hj Hother. apply hits_outside. eauto.
  - eexists. split; [reflexivity|]. split; [reflexivity|]. right.
    repeat split. intros img Himg. apply hits_outside.
    eapply findIndex_None in Hfind; eauto.
Qed.

Lemma hit_test_first_added_witness :
  activeTool overlapScene = move /\
  noHandleHit (getMousePos origin (at_ 120 100)) overlapScene /\
  exists s', handleMouseDown origin (at_ 120 100) "unused" overlapScene = Some s' /\
    placedImages s' = placedImages overlapScene /\
    ((exists i img,
         selectedImageIndex s' = Some i /\ action s' = dragging /\
         placedImages overlapScene !! i = Some img /\
         inside (getMousePos origin (at_ 120 100)) img /\
         forall j other, (j < i)%nat ->
                         placedImages overlapScene !! j = Some other ->
                         ~ inside (getMousePos origin (at_ 120 100)) other)
     \/ (selectedImageIndex s' = None /\ action s' = action overlapScene /\
         forall img, img ∈ placedImages overlapScene ->
                     ~ inside (getMousePos origin (at_ 120 100)) img)).
Proof.
  split; [reflexivity|]. split; [exact I|].
  exact (hit_test_first_added origin (at_ 120 100) "unused" overlapScene
           eq_refl I).
Defined.

(** C3, as the specification has it, fails: once the chair and then the
    table have been added, both at their default place, the pointer at
    (120, 100) is inside the chair (index 0) and inside the table
    (index 1, added later and drawn above it), no image is selected, and
    pointer-down with the move tool selects the chair. *)
Lemma hit_test_topmost_counterexample :
  exists s first second s',
    run addChairAndTable initialState = Some s /\
    placedImages s = [first; second] /\
    img_id first = "chair" /\ img_id second = "table" /\
    activeTool s = move /\ selectedImageIndex s = None /\
    inside (getMousePos origin (at_ 120 100)) first /\
    inside (getMousePos origin (at_ 120 100)) second /\
    handleMouseDown origin (at_ 120 100) "unused" s = Some s' /\
    action s' = dragging /\ selectedImageIndex s' = Some O /\
    selectedImageIndex s' <> Some 1%nat.
Proof.
  eexists _, _, _, _. split; [vm_compute; reflexivity|].
  split; [reflexivity|]. do 4 (split; [reflexivity|]).
  split; [repeat split; vm_compute; discriminate|].
  split; [repeat split; vm_compute; discriminate|].
  split; [vm_compute; reflexivity|].
  repeat split; discriminate.
Qed.

(** ** Drawing on the context *)

Lemma appends_skip : appends skip.
Proof. intros c. exists []. symmetry. apply app_nil_r. Qed.

Lemma appends_paint p : appends (paint p).
Proof. intros c. exists [p]. reflexivity. Qed.

Lemma appends_seq a b : appends a -> appends b -> appends (a >>> b).
Proof.
  intros Ha Hb c. unfold seqDraw.
  destruct (Ha c) as [l1 H1]. destruct (Hb (a c)) as [l2 H2].
  exists (l1 ++ l2). rewrite H2, H1. symmetry. apply app_assoc.
Qed.

Lemma appends_registers (d : Draw) :
  (forall c, content (d c) = content c) -> appends d.
Proof. intros H c. exists []. rewrite H. symmetry. apply app_nil_r. Qed.

Lemma appends_forEach {A} (f : A -> Draw) (l : list A) :
  (forall a, appends (f a)) -> appends (forEach f l).
Proof.
  intros Hf. unfold forEach. induction l as [|a l IH]; intros c; simpl.
  - exists []. symmetry. apply app_nil_r.
  - destruct (Hf a c) as [l1 H1]. destruct (IH (f a c)) as [l2 H2].
    exists (l1 ++ l2). rewrite H2, H1. symmetry. apply app_assoc.
Qed.

Lemma appends_forEachFrom {A} (f : A -> nat -> Draw) (k : nat) (l : list A) :
  (forall a i, appends (f a i)) -> appends (forEachFrom f k l).
Proof.
  intros Hf. revert k. induction l as [|a l IH]; intros k; simpl.
  - apply appends_skip.
  - apply appends_seq; auto.
Qed.

Lemma appends_keeps (d : Draw) (p : Paint) (c : Ctx2D) :
  appends d -> p ∈ content c -> p ∈ content (d c).
Proof.
  intros Hd Hp. destruct (Hd c) as [l ->]. apply elem_of_app. left. exact Hp.
Qed.

Create HintDb draw.
#[local] Hint Resolve appends_skip appends_paint appends_seq appends_forEach
  appends_forEachFrom : draw.
#[local] Hint Extern 1 (appends (set_fillStyle _)) =>
  apply appends_registers; reflexivity : draw.
#[local] Hint Extern 1 (appends (set_strokeStyle _)) =>
  apply appends_registers; reflexivity : draw.
#[local] Hint Extern 1 (appends (set_lineWidth _)) =>
  apply appends_registers; reflexivity : draw.
#[local] Hint Extern 1 (appends (set_lineCap _)) =>
  apply appends_registers; reflexivity : draw.
#[local] Hint Extern 1 (appends (set_lineJoin _)) =>
  apply appends_registers; reflexivity : draw.
#[local] Hint Extern 1 (appends beginPath) =>
  apply appends_registers; reflexivity : draw.
#[local] Hint Extern 1 (appends (fillRect _ _ _ _)) =>
  intros ?; eexists; reflexivity : draw.
#[local] Hint Extern 1 (appends (strokeRect _ _ _ _)) =>
  intros ?; eexists; reflexivity : draw.
#[local] Hint Extern 1 (appends (drawImage _ _ _ _ _)) =>
  intros ?; eexists; reflexivity : draw.
#[local] Hint Extern 1 (appends (arc _ _ _)) =>
  apply appends_registers; reflexivity : draw.
#[local] Hint Extern 1 (appends stroke) =>
  intros ?; eexists; reflexivity : draw.

Lemma forEach_lineTo (points : list Point) (c : Ctx2D) :
  forEach (fun point => lineTo (px point) (py point)) points c =
  set_path (path c ++ map (fun point => LineTo (px point) (py point)) points) c.
Proof.
  unfold forEach. revert c. induction points as [|p points IH]; intros c; simpl.
  - rewrite app_nil_r. destruct c; reflexivity.
  - rewrite IH. unfold lineTo, addPath, set_path. simpl.
    rewrite <- app_assoc. reflexivity.
Qed.

(** [drawElement] strokes one path with a pen of its own, whatever the
    registers and the path were, and leaves that pen behind. *)
Lemma drawElement_paints (bg : string) (el : CanvasElement) (c : Ctx2D) :
  drawElement bg el c =
  mkCtx2D (canvas_width c) (canvas_height c) (fillStyle c) (elementPen bg el)
    (elementPath el)
    (content c ++ [PStrokePath (elementPen bg el) (elementPath el)]).
Proof.
  unfold drawElement, elementPen, elementPath, seqDraw.
  destruct (el_tool el); destruct (el_points el) as [|p0 [|p1 rest]];
    try reflexivity.
  all: rewrite forEach_lineTo; reflexivity.
Qed.

Lemma appends_drawElement bg el : appends (drawElement bg el).
Proof. intros c. rewrite drawElement_paints. eexists. reflexivity. Qed.

Lemma forEach_drawElement (bg : string) (els : list CanvasElement) (c : Ctx2D) :
  content (forEach (drawElement bg) els c) =
  content c ++ map (elementPaint bg) els.
Proof.
  unfold forEach. revert c. induction els as [|el els IH]; intros c; simpl.
  - symmetry. apply app_nil_r.
  - rewrite IH, drawElement_paints. simpl. rewrite <- app_assoc. reflexivity.
Qed.

Lemma appends_drawSelection img : appends (drawSelection img).
Proof. unfold drawSelection. repeat (apply appends_seq); auto 10 with draw. Qed.

Lemma appends_drawPlacedImage sel img i : appends (drawPlacedImage sel img i).
Proof.
  unfold drawPlacedImage. apply appends_seq; [auto with draw|].
  case_match; auto using appends_drawSelection with draw.
Qed.

Lemma appends_drawPreview s : appends (drawPreview s).
Proof.
  unfold drawPreview. repeat case_match; auto 10 with draw.
Qed.

#[local] Hint Resolve appends_drawElement appends_drawSelection
  appends_drawPlacedImage appends_drawPreview : draw.

(** ** Drawing gestures *)

Lemma handleMouseDown_drawing rect e uuid s :
  activeTool s <> move ->
  handleMouseDown rect e uuid s =
  Some (setSelectedElement
          (Some (mkCanvasElement uuid (activeTool s) [getMousePos rect e]
                   (strokeColor s) (strokeWidth s)))
          (setAction drawing s)).
Proof.
  intros Htool. unfold handleMouseDown.
  destruct (decide (activeTool s = move)); [contradiction | reflexivity].
Qed.

Lemma handleMouseMove_drawing rect e s el pts :
  action s = drawing -> selectedElement s = Some el ->
  extendPoints (el_tool el) (getMousePos rect e) (el_points el) = Some pts ->
  handleMouseMove rect e s =
  Some (setSelectedElement
          (Some (mkCanvasElement (el_id el) (el_tool el) pts (el_color el)
                   (el_width el)))
          (setCursor (cursor s)
             (setMousePosition (Some (getMousePos rect e)) s))).
Proof.
  intros Hact Hel Hpts. unfold handleMouseMove, hoverCursor.
  rewrite Hact, Hel. simpl.
  destruct (selectedImageIndex s), (resizeHandle s); rewrite Hpts; reflexivity.
Qed.

Lemma extendPoints_gesture tool p0 qs pos :
  extendPoints tool pos (gesturePoints tool p0 qs) =
  Some (gesturePoints tool p0 (qs ++ [pos])).
Proof.
  unfold extendPoints, gesturePoints.
  destruct (decide (tool = pencil \/ tool = eraser)); [reflexivity|].
  rewrite last_snoc. destruct (last qs); reflexivity.
Qed.

(** The moves of a draw in progress: each is handled, the action stays
    [drawing], nothing is committed, and the points grow as
    [gesturePoints] says. *)
Lemma run_drawing_moves (moves : list (DOMRect * MouseEvent)) :
  forall s id tool p0 qs color width,
    action s = drawing ->
    selectedElement s =
      Some (mkCanvasElement id tool (gesturePoints tool p0 qs) color width) ->
    exists s',
      run (map (fun m => MouseMove m.1 m.2) moves) s = Some s' /\
      action s' = drawing /\ elements s' = elements s /\
      placedImages s' = placedImages s /\
      selectedElement s' =
        Some (mkCanvasElement id tool
                (gesturePoints tool p0
                   (qs ++ map (fun m => getMousePos m.1 m.2) moves))
                color width).
Proof.
  induction moves as [|[rect e] moves IH]; intros s id tool p0 qs color width
    Hact Hel; simpl.
  - exists s. rewrite app_nil_r. auto.
  - rewrite (handleMouseMove_drawing rect e s _ _ Hact Hel
               (extendPoints_gesture tool p0 qs (getMousePos rect e))).
    simpl.
    edestruct IH as (s' & Hrun & Hact' & Hels & Himgs & Hsel);
      [| | exists s'; split; [exact Hrun|]]; [exact Hact | reflexivity |].
    rewrite <- app_assoc in Hsel. auto.
Qed.

Lemma handleMouseUp_commits s el :
  action s = drawing -> selectedElement s = Some el ->
  handleMouseUp s =
  setResizeHandle None
    (setSelectedElement None
       (setAction none (setElements (elements s ++ [el]) s))).
Proof. intros Hact Hel. unfold handleMouseUp. rewrite Hact, Hel. reflexivity. Qed.

(** A whole draw: pointer-down, moves, then pointer-up or
    pointer-leave. *)
Lemma run_draw_gesture rect e0 uuid (moves : list (DOMRect * MouseEvent))
    (release : Event) (s : EditorState) :
  activeTool s <> move -> release = MouseUp \/ release = MouseLeave ->
  exists s',
    run (MouseDown rect e0 uuid ::
         map (fun m => MouseMove m.1 m.2) moves ++ [release]) s = Some s' /\
    elements s' =
      elements s ++
      [mkCanvasElement uuid (activeTool s)
         (gesturePoints (activeTool s) (getMousePos rect e0)
            (map (fun m => getMousePos m.1 m.2) moves))
         (strokeColor s) (strokeWidth s)] /\
    action s' = none /\ selectedElement s' = None /\
    resizeHandle s' = None /\ placedImages s' = placedImages s /\
    (release = MouseLeave -> mousePosition s' = None).
Proof.
  intros Htool Hrel. cbn [run step].
  rewrite (handleMouseDown_drawing rect e0 uuid s Htool). cbn [mbind option_bind].
  destruct (run_drawing_moves moves
              (setSelectedElement
                 (Some (mkCanvasElement uuid (activeTool s)
                          [getMousePos rect e0] (strokeColor s)
                          (strokeWidth s)))
                 (setAction drawing s))
              uuid (activeTool s) (getMousePos rect e0) [] (strokeColor s)
              (strokeWidth s) eq_refl)
    as (s1 & Hrun & Hact & Hels & Himgs & Hsel).
  { unfold gesturePoints. simpl. case_match; reflexivity. }
  assert (Hsplit : forall evs1 evs2 a b,
             run evs1 a = Some b -> run (evs1 ++ evs2) a = run evs2 b).
  { induction evs1 as [|ev evs1 IH]; intros evs2 a b; simpl.
    - intros [= ->]. reflexivity.
    - destruct (step ev a); simpl; [apply IH | discriminate]. }
  rewrite (Hsplit _ [release] _ _ Hrun).
  simpl in Hsel. simpl in Hels. simpl in Himgs.
  destruct Hrel as [-> | ->]; cbn [run step mbind option_bind];
    eexists; (split; [reflexivity|]); unfold handleMouseLeave;
    rewrite (handleMouseUp_commits s1 _ Hact Hsel); simpl;
    rewrite Hels, Himgs; repeat split; auto; discriminate.
Qed.

Lemma handleMouseUp_idle s :
  action s = none -> elements (handleMouseUp s) = elements s.
Proof. intros Hact. unfold handleMouseUp. rewrite Hact. reflexivity. Qed.

(** ** Gestures between renders *)

Lemma setCursor_same (s : EditorState) : setCursor (cursor s) s = s.
Proof. destruct s; reflexivity. Qed.

(** With nothing queued since the render, the handlers are those of
    [step]. *)
Lemma handleMouseMove_from_same rect e s :
  handleMouseMove_from s rect e s = handleMouseMove rect e s.
Proof.
  unfold handleMouseMove_from, handleMouseMove. rewrite setCursor_same.
  destruct (hoverCursor (getMousePos rect e) s); [|reflexivity].
  cbn [mbind option_bind].
  destruct (action s), (selectedImageIndex s), (resizeHandle s),
    (selectedElement s); reflexivity.
Qed.

Lemma step_from_same (ev : Event) (s : EditorState) :
  step_from s ev s = step ev s.
Proof.
  destruct ev; try reflexivity. apply handleMouseMove_from_same.
Qed.

(** Rendering after every event is [run]. *)
Lemma play_renderEach (evs : list Event) :
  forall s, play (renderEach evs) (mounted s) = mounted <$> run evs s.
Proof.
  induction evs as [|ev evs IH]; intros s; [reflexivity|].
  cbn [renderEach flat_map app play tick rendered queued mounted run].
  rewrite step_from_same. destruct (step ev s) as [s'|]; [|reflexivity].
  cbn [mbind option_bind tick queued]. apply IH.
Qed.



Lemma positions_app (ts1 ts2 : list Tick) :
  positions (ts1 ++ ts2) = positions ts1 ++ positions ts2.
Proof.
  induction ts1 as [|t ts1 IH]; [reflexivity|].
  destruct t as [[]|]; simpl; rewrite IH; reflexivity.
Qed.






(** ** The frame on the mounted canvas *)

Lemma clearRect_all (c : Ctx2D) :
  clearRect 0 0 (canvas_width c) (canvas_height c) c = set_content [] c.
Proof.
  unfold clearRect.
  assert (Hw : Qgeb (0 + canvas_width c) (canvas_width c) = true).
  { apply Qgeb_true. rewrite Qplus_0_l. apply Qle_refl. }
  assert (Hh : Qgeb (0 + canvas_height c) (canvas_height c) = true).
  { apply Qgeb_true. rewrite Qplus_0_l. apply Qle_refl. }
  rewrite Hw, Hh. reflexivity.
Qed.

Lemma clearRect_all_seq (d : Draw) (c : Ctx2D) :
  (clearRect 0 0 (canvas_width c) (canvas_height c) >>> d) c
  = d (set_content [] c).
Proof. unfold seqDraw. rewrite clearRect_all. reflexivity. Qed.

Lemma drawBackground_content (s : EditorState) (c : Ctx2D) :
  content (drawBackground s c) =
  content c ++ [backgroundPaint s (canvas_width c) (canvas_height c)].
Proof.
  unfold drawBackground, backgroundPaint.
  destruct (backgroundImage s); reflexivity.
Qed.

Lemma drawBackground_size (s : EditorState) (c : Ctx2D) :
  canvas_width (drawBackground s c) = canvas_width c /\
  canvas_height (drawBackground s c) = canvas_height c.
Proof. unfold drawBackground. destruct (backgroundImage s); split; reflexivity. Qed.

(** What is painted after the committed elements. *)
Lemma appends_overlay (s : EditorState) :
  appends (match selectedElement s with
           | Some el => drawElement (backgroundColor s) el
           | None => skip
           end >>>
           forEachFrom (drawPlacedImage (selectedImageIndex s)) 0
             (placedImages s) >>>
           drawPreview s).
Proof.
  apply appends_seq; [destruct (selectedElement s); auto with draw|].
  apply appends_seq; auto with draw.
Qed.

(** Every repaint starts from a cleared canvas: the background, then the
    committed elements in insertion order, then the rest. *)
Lemma repaint_prefix (s : EditorState) (c : Ctx2D) :
  exists rest,
    content (repaint s c) =
    backgroundPaint s (canvas_width c) (canvas_height c) ::
    map (elementPaint (backgroundColor s)) (elements s) ++ rest.
Proof.
  unfold repaint. unfold seqDraw at 1 2 3. rewrite clearRect_all.
  destruct (appends_overlay s
              (forEach (drawElement (backgroundColor s)) (elements s)
                 (drawBackground s (set_content [] c)))) as [rest Hrest].
  exists rest. rewrite Hrest, forEach_drawElement, drawBackground_content.
  reflexivity.
Qed.

Lemma repaint_element (s : EditorState) (c : Ctx2D) (el : CanvasElement) :
  el ∈ elements s ->
  elementPaint (backgroundColor s) el ∈ content (repaint s c).
Proof.
  intros Hel. destruct (repaint_prefix s c) as [rest ->].
  apply elem_of_cons. right. apply elem_of_app. left.
  apply list_elem_of_fmap. exists el. auto.
Qed.

(** ** Committing a draw *)




(** A whole draw, each event rendered before the next, ended by
    pointer-leave commits the element that the same draw ended by
    pointer-up commits. *)
Lemma leave_ends_gesture_like_up rect e0 uuid
    (moves : list (DOMRect * MouseEvent)) (s : EditorState) :
  activeTool s <> move ->
  exists left_ upped,
    run (MouseDown rect e0 uuid ::
         map (fun m => MouseMove m.1 m.2) moves ++ [MouseLeave]) s
      = Some left_ /\
    run (MouseDown rect e0 uuid ::
         map (fun m => MouseMove m.1 m.2) moves ++ [MouseUp]) s
      = Some upped /\
    elements left_ = elements upped /\
    length (elements left_) = S (length (elements s)).
Proof.
  intros Htool.
  destruct (run_draw_gesture rect e0 uuid moves MouseLeave s Htool)
    as (s1 & Hrun1 & Hels1 & _); [auto|].
  destruct (run_draw_gesture rect e0 uuid moves MouseUp s Htool)
    as (s2 & Hrun2 & Hels2 & _); [auto|].
  exists s1, s2. repeat split; auto; [congruence|].
  rewrite Hels1, length_app. simpl. lia.
Qed.

(** C5.  Releasing an eraser stroke appends it to the committed elements
    and removes none: the count grows by one and every earlier element
    keeps its index.  [drawElement] paints the eraser element as one more
    stroke, 20 wide with round caps and joins, in the background colour
    it is given, and on every repaint that colour is the state's current
    background colour; the stroke is painted after the earlier elements,
    which are painted as before. *)
Theorem eraser_overpaints (s : EditorState) (el : CanvasElement)
    (Hact : action s = drawing) (Hel : selectedElement s = Some el)
    (Htool : el_tool el = eraser) :
  let s' := handleMouseUp s in
  elements s' = elements s ++ [el] /\
  length (elements s') = S (length (elements s)) /\
  (forall i old, elements s !! i = Some old -> elements s' !! i = Some old) /\
  (forall bg c,
      content (drawElement bg el c) =
      content c ++ [PStrokePath (mkPen bg 20 "round" "round") (elementPath el)]) /\
  (forall c, exists rest,
      content (repaint s' c) =
      backgroundPaint s' (canvas_width c) (canvas_height c) ::
      map (elementPaint (backgroundColor s')) (elements s) ++
      PStrokePath (mkPen (backgroundColor s') 20 "round" "round")
        (elementPath el) :: rest).
Proof.
  intros s'. subst s'. rewrite (handleMouseUp_commits s el Hact Hel).
  cbn [elements backgroundColor setResizeHandle setSelectedElement setAction
       setElements].
  assert (Hpen : forall bg, elementPen bg el = mkPen bg 20 "round" "round").
  { intros bg. unfold elementPen. rewrite Htool. reflexivity. }
  repeat split.
  - rewrite length_app. simpl. lia.
  - intros i old Hold. apply lookup_app_l_Some. exact Hold.
  - intros bg c. rewrite drawElement_paints, Hpen. reflexivity.
  - intros c.
    match goal with |- context [repaint ?st c] =>
      destruct (repaint_prefix st c) as [rest Hrest] end.
    exists rest. rewrite Hrest.
    cbn [elements backgroundColor setResizeHandle setSelectedElement
         setAction setElements].
    rewrite map_app, <- app_assoc. simpl.
    unfold elementPaint at 2. rewrite Hpen. reflexivity.
Qed.

Lemma eraser_overpaints_witness :
  action erasingScene = drawing /\
  selectedElement erasingScene = Some eraserStroke /\
  el_tool eraserStroke = eraser /\
  elements (handleMouseUp erasingScene) = [pencilStroke; eraserStroke] /\
  length (elements (handleMouseUp erasingScene)) = 2%nat.
Proof.
  pose proof (eraser_overpaints erasingScene eraserStroke eq_refl eq_refl
                eq_refl) as (Hels & Hlen & _).
  split; [reflexivity|]. split; [reflexivity|]. split; [reflexivity|].
  split; [exact Hels | exact Hlen].
Defined.

(** ** The points of an element *)




(** ** Adding and dragging an image *)

(** *** Doubles *)

Lemma Qred_inject_Z (z : Z) : Qred (inject_Z z) = inject_Z z.
Proof.
  unfold Qred, inject_Z.
  pose proof (Z.ggcd_gcd z 1) as Hg.
  pose proof (Z.ggcd_correct_divisors z 1) as Hd.
  destruct (Z.ggcd z 1) as [g [aa bb]]. simpl in Hg, Hd.
  rewrite Z.gcd_1_r in Hg. subst g. destruct Hd as [Ha Hb].
  rewrite Z.mul_1_l in Ha, Hb. subst aa bb. reflexivity.
Qed.

Lemma nearestEven_exact (n den : Z) :
  (0 < den)%Z -> nearestEven (n * den) den = n.
Proof.
  intros Hden. unfold nearestEven.
  rewrite Z.div_mul by lia. rewrite Z.mod_mul by lia.
  destruct (Z.compare_spec (2 * 0) den); [lia | reflexivity | lia].
Qed.

Lemma nearestEven_one (n : Z) : nearestEven n 1 = n.
Proof.
  rewrite <- (Z.mul_1_r n) at 1. apply nearestEven_exact. lia.
Qed.

(** A whole number up to [2 ^ 53] is a double. *)
Lemma round64_whole (z : Z) :
  (Z.abs z <= 2 ^ 53)%Z -> round64 (inject_Z z) = inject_Z z.
Proof.
  intros Hz. unfold round64. cbn [Qnum Qden inject_Z].
  destruct (Z.eqb_spec (Z.abs z) 0) as [H0|H0].
  { assert (z = 0%Z) by lia. subst z. reflexivity. }
  assert (Hpos : (0 < Z.abs z)%Z) by lia.
  assert (Hlead : leadingExponent (Z.abs z) 1 = Z.log2 (Z.abs z)).
  { unfold leadingExponent. change (Z.log2 1) with 0%Z. rewrite Z.sub_0_r.
    pose proof (Z.log2_nonneg (Z.abs z)) as Hnn.
    destruct (Z.leb_spec 0 (Z.log2 (Z.abs z))); [|lia].
    pose proof (Z.log2_spec _ Hpos) as [Hlow _].
    destruct (Z.leb_spec (1 * 2 ^ Z.log2 (Z.abs z)) (Z.abs z));
      [reflexivity|lia]. }
  rewrite Hlead.
  pose proof (Z.log2_nonneg (Z.abs z)) as Hnn.
  assert (Hl : (Z.log2 (Z.abs z) <= 53)%Z).
  { destruct (Z.le_gt_cases (Z.log2 (Z.abs z)) 53) as [H|H]; [exact H|].
    exfalso. assert (H' : (54 <= Z.log2 (Z.abs z))%Z) by lia.
    apply Z.log2_le_pow2 in H'; [|exact Hpos].
    assert ((2 ^ 53 < 2 ^ 54)%Z) by (apply Z.pow_lt_mono_r; lia). lia. }
  rewrite Z.max_l by lia.
  set (l := Z.log2 (Z.abs z)) in *.
  assert (Hsgn : (Z.sgn z * Z.abs z = z)%Z) by lia.
  rewrite <- (Qred_inject_Z z). apply Qred_complete.
  destruct (Z.leb_spec 0 (l - 52)) as [He|He].
  - assert (Hcase : (l = 52 \/ l = 53)%Z) by lia.
    destruct Hcase as [Hl52|Hl53].
    + replace (l - 52)%Z with 0%Z by lia. cbn [Z.pow]. unfold scale2.
      simpl Z.leb.
      replace (Z.abs z) with (Z.abs z * (1 * 1))%Z at 1 by lia.
      rewrite nearestEven_exact by lia.
      unfold Qeq, inject_Z. simpl. nia.
    + replace (l - 52)%Z with 1%Z by lia.
      assert (Habs : Z.abs z = (2 ^ 53)%Z).
      { pose proof (Z.log2_spec _ Hpos) as [Hlow _]. fold l in Hlow.
        rewrite Hl53 in Hlow. lia. }
      rewrite Habs. unfold scale2. simpl Z.leb.
      replace (2 ^ 53)%Z with (2 ^ 52 * (1 * 2 ^ 1))%Z at 1 by reflexivity.
      rewrite nearestEven_exact by (cbn; lia).
      unfold Qeq, inject_Z. change (0 <=? 1)%Z with true. cbn [Qnum Qden].
      assert (Hz' : z = (Z.sgn z * 2 ^ 53)%Z) by lia.
      change (2 ^ 53)%Z with (2 ^ 52 * 2 ^ 1)%Z in Hz'. lia.
  - set (k := (- (l - 52))%Z). assert (Hk : (0 < k)%Z) by (unfold k; lia).
    rewrite nearestEven_one.
    unfold scale2. destruct (Z.leb_spec 0 (l - 52)); [lia|].
    fold k. unfold Qeq, inject_Z. cbn [Qnum Qden].
    rewrite Z2Pos.id by (apply Z.pow_pos_nonneg; lia). nia.
Qed.

Lemma inject_Z_plus_whole (a b : Z) :
  inject_Z a + inject_Z b = inject_Z (a * 1 + b * 1).
Proof. reflexivity. Qed.

(** The sum of two whole numbers is exact when it stays within
    [2 ^ 53]. *)
Lemma fadd_whole (a b : Z) :
  (Z.abs a <= 2 ^ 53)%Z -> (Z.abs b <= 2 ^ 53)%Z ->
  (Z.abs (a + b) <= 2 ^ 53)%Z ->
  fadd (inject_Z a) (inject_Z b) = inject_Z (a + b).
Proof.
  intros Ha Hb Hab. unfold fadd.
  rewrite (round64_whole a Ha), (round64_whole b Hb), inject_Z_plus_whole.
  rewrite !Z.mul_1_r. apply round64_whole, Hab.
Qed.

Lemma whole_in_range (z : Z) :
  (Z.abs z <= 2 ^ 53)%Z -> Qabs (inject_Z z) <= MAX_VALUE.
Proof.
  intros Hz. unfold MAX_VALUE, Qle, Qabs, inject_Z. cbn [Qnum Qden].
  rewrite !Z.mul_1_r.
  assert (Hmax : (2 ^ 53 <= (2 ^ 53 - 1) * 2 ^ 971)%Z)
    by (vm_compute; discriminate).
  eapply Z.le_trans; [exact Hz | exact Hmax].
Qed.

(** Whole movements whose running sums stay within [2 ^ 53] are added
    without rounding. *)
Lemma wholeSums_exact (ds : list Z) :
  forall x, wholeSums x ds -> exactSums (inject_Z x) (List.map inject_Z ds).
Proof.
  induction ds as [|d ds IH]; intros x Hwhole; [exact I|].
  destruct Hwhole as (Hx & Hd & Hxd & Hrest). cbn [List.map exactSums].
  rewrite (fadd_whole x d Hx Hd Hxd). split_and!.
  - rewrite inject_Z_plus_whole, !Z.mul_1_r. reflexivity.
  - rewrite inject_Z_plus_whole, !Z.mul_1_r. apply whole_in_range, Hxd.
  - apply IH, Hrest.
Qed.

(** *** How far a double is from the number it stands for *)

Lemma two_pos (e : Z) : 0 < 2 ^ e.
Proof. apply Qpower_0_lt. reflexivity. Qed.

Lemma two_succ (e : Z) : 2 ^ (e + 1) == 2 * 2 ^ e.
Proof. rewrite Qpower_plus by discriminate. rewrite Qpower_1_r. ring. Qed.

Lemma two_Zpow (e : Z) : (0 <= e)%Z -> inject_Z (2 ^ e) == 2 ^ e.
Proof. intros He. apply (Zpower_Qpower 2 e He). Qed.

Lemma two_neg (e : Z) : (e < 0)%Z -> 2 ^ e == / inject_Z (2 ^ (- e)).
Proof.
  intros He. rewrite two_Zpow by lia. rewrite <- Qpower_opp.
  rewrite Z.opp_involutive. reflexivity.
Qed.

Lemma scale2_value (n e : Z) : scale2 n e == inject_Z n * 2 ^ e.
Proof.
  unfold scale2. destruct (Z.leb_spec 0 e) as [He|He].
  - rewrite inject_Z_mult, two_Zpow by exact He. reflexivity.
  - rewrite two_neg by exact He. rewrite Qmake_Qdiv.
    rewrite Z2Pos.id by (apply Z.pow_pos_nonneg; lia). reflexivity.
Qed.

(** nearestEven is within one half of the quotient *)
Lemma nearestEven_near (num den : Z) :
  (0 <= num)%Z -> (0 < den)%Z ->
  (Z.abs (2 * nearestEven num den * den - 2 * num) <= den)%Z /\
  (0 <= nearestEven num den)%Z.
Proof.
  intros Hnum Hden. unfold nearestEven.
  pose proof (Z.div_mod num den ltac:(lia)) as Hdm.
  pose proof (Z.mod_pos_bound num den Hden) as Hr.
  pose proof (Z.div_pos num den Hnum Hden) as Hq.
  set (q0 := (num / den)%Z) in *. set (r := (num mod den)%Z) in *.
  destruct (Z.compare_spec (2 * r) den) as [H|H|H];
    [destruct (Z.even q0)| |]; split; nia.
Qed.

Lemma log2_bounds (a : Z) :
  (0 < a)%Z ->
  2 ^ Z.log2 a <= inject_Z a /\ inject_Z a < 2 * 2 ^ Z.log2 a.
Proof.
  intros Ha. pose proof (Z.log2_spec a Ha) as [Hlow Hhigh].
  pose proof (Z.log2_nonneg a) as Hnn.
  rewrite <- two_succ. rewrite <- !two_Zpow by lia.
  split; [rewrite <- Zle_Qle; exact Hlow | rewrite <- Zlt_Qlt; exact Hhigh].
Qed.

Lemma exponent_test (a d l : Z) :
  (0 < a)%Z -> (0 < d)%Z ->
  (if (0 <=? l)%Z then (d * 2 ^ l <=? a)%Z else (d <=? a * 2 ^ (- l))%Z) = true
  <-> 2 ^ l * inject_Z d <= inject_Z a.
Proof.
  intros Ha Hd. destruct (Z.leb_spec 0 l) as [Hl|Hl].
  - rewrite Z.leb_le, Zle_Qle, inject_Z_mult, two_Zpow by exact Hl.
    rewrite (Qmult_comm (inject_Z d)). reflexivity.
  - rewrite Z.leb_le, Zle_Qle, inject_Z_mult, two_Zpow by lia.
    pose proof (two_pos l) as Hp. pose proof (two_pos (- l)) as Hq.
    assert (Hinv : 2 ^ l * 2 ^ (- l) == 1).
    { rewrite <- Qpower_plus by discriminate. rewrite Z.add_opp_diag_r.
      reflexivity. }
    split; intros H.
    + apply (Qmult_le_l _ _ (2 ^ (- l)) Hq).
      rewrite Qmult_assoc, (Qmult_comm (2 ^ (- l))), Hinv, Qmult_1_l.
      rewrite (Qmult_comm (2 ^ (- l))). exact H.
    + apply (Qmult_le_l _ _ (2 ^ l) Hp).
      rewrite (Qmult_comm (inject_Z a)), Qmult_assoc, Hinv, Qmult_1_l.
      exact H.
Qed.

Lemma leadingExponent_spec (a d : Z) :
  (0 < a)%Z -> (0 < d)%Z ->
  2 ^ leadingExponent a d * inject_Z d <= inject_Z a /\
  inject_Z a < 2 * 2 ^ leadingExponent a d * inject_Z d.
Proof.
  intros Ha Hd. unfold leadingExponent.
  set (l := (Z.log2 a - Z.log2 d)%Z).
  pose proof (exponent_test a d l Ha Hd) as Htest.
  destruct (log2_bounds a Ha) as [Hal Hah].
  destruct (log2_bounds d Hd) as [Hdl Hdh].
  assert (Hsplit : 2 ^ Z.log2 a == 2 ^ l * 2 ^ Z.log2 d).
  { unfold l. rewrite <- Qpower_plus by discriminate.
    replace (Z.log2 a - Z.log2 d + Z.log2 d)%Z with (Z.log2 a) by lia.
    reflexivity. }
  pose proof (two_pos l) as Hl. pose proof (two_pos (Z.log2 d)) as Hld.
  pose proof (two_pos (Z.log2 a)) as Hla.
  destruct (if (0 <=? l)%Z then (d * 2 ^ l <=? a)%Z else (d <=? a * 2 ^ (- l))%Z)
    eqn:E.
  - split; [apply Htest; reflexivity|].
    (* a < 2 * 2^la = 2 * 2^l * 2^ld <= 2 * 2^l * d *)
    eapply Qlt_le_trans; [exact Hah|].
    rewrite Hsplit. rewrite Qmult_assoc.
    apply Qmult_le_l; [|exact Hdl]. 
    apply Qmult_lt_0_compat; [reflexivity | exact Hl].
  - assert (Hno : ~ 2 ^ l * inject_Z d <= inject_Z a).
    { intros H. apply Htest in H. congruence. }
    apply Qnot_le_lt in Hno.
    assert (Hhalf : 2 * 2 ^ (l - 1) == 2 ^ l).
    { rewrite <- two_succ. replace (l - 1 + 1)%Z with l by lia. reflexivity. }
    split.
    + (* 2^(l-1) * d < 2^(l-1) * 2 * 2^ld = 2^la <= a *)
      apply Qle_trans with (2 ^ Z.log2 a); [|exact Hal].
      rewrite Hsplit, <- Hhalf.
      rewrite <- Qmult_assoc, (Qmult_comm 2), <- Qmult_assoc.
      apply Qmult_le_l; [apply two_pos|].
      rewrite Qmult_comm. apply Qlt_le_weak. exact Hdh.
    + rewrite Hhalf. exact Hno.
Qed.

Lemma Zabs_Qbounds (m den num : Z) :
  (Z.abs (2 * m * den - 2 * num) <= den)%Z ->
  - inject_Z den <= 2 * inject_Z m * inject_Z den - 2 * inject_Z num /\
  2 * inject_Z m * inject_Z den - 2 * inject_Z num <= inject_Z den.
Proof.
  intros H.
  assert (Heq : inject_Z (2 * m * den - 2 * num) =
                2 * inject_Z m * inject_Z den - 2 * inject_Z num).
  { unfold Z.sub. rewrite inject_Z_plus, inject_Z_opp, !inject_Z_mult.
    reflexivity. }
  rewrite <- Heq, <- inject_Z_opp, <- !Zle_Qle. lia.
Qed.

Lemma half_ulp (M A D E X : Q) :
  0 < D -> 0 < E -> X * D == A ->
  - (D * E) <= 2 * M * D * E - 2 * A -> 2 * M * D * E - 2 * A <= D * E ->
  Qabs (M * E - X) <= E / 2.
Proof.
  intros HD HE HX Hlow Hhigh. apply Qabs_Qle_condition.
  rewrite <- HX in Hlow, Hhigh.
  split.
  - apply Qnot_lt_le. intros Hc.
    assert (0 < D * (- (E / 2) - (M * E - X))) by
      (apply Qmult_lt_0_compat; [exact HD | lra]).
    assert (Heq : D * (- (E / 2) - (M * E - X)) ==
                  (- (D * E) - (2 * M * D * E - 2 * (X * D))) * (1 # 2))
      by field.
    rewrite Heq in H.
    set (P := D * E) in *. set (R := 2 * M * D * E) in *. set (S := X * D) in *.
    clearbody P R S. clear - H Hlow. lra.
  - apply Qnot_lt_le. intros Hc.
    assert (0 < D * ((M * E - X) - E / 2)) by
      (apply Qmult_lt_0_compat; [exact HD | lra]).
    assert (Heq : D * ((M * E - X) - E / 2) ==
                  ((2 * M * D * E - 2 * (X * D)) - D * E) * (1 # 2))
      by field.
    rewrite Heq in H.
    set (P := D * E) in *. set (R := 2 * M * D * E) in *. set (S := X * D) in *.
    clearbody P R S. clear - H Hhigh. lra.
Qed.

(** The double nearest to a positive number is within half a unit in
    the last place. *)
Lemma round64_near (q : Q) :
  0 < q ->
  let e := Z.max (leadingExponent (Qnum q) (Zpos (Qden q)) - 52) (-1074) in
  exists m, (0 <= m)%Z /\
    round64 q == inject_Z m * 2 ^ e /\
    Qabs (inject_Z m * 2 ^ e - q) <= 2 ^ e / 2.
Proof.
  intros Hq e. destruct q as [a d]. cbn [Qnum Qden] in *.
  assert (Ha : (0 < a)%Z).
  { unfold Qlt in Hq. cbn in Hq. lia. }
  unfold round64. cbn [Qnum Qden].
  rewrite (Z.abs_eq a) by lia.
  destruct (Z.eqb_spec a 0) as [H0|_]; [lia|].
  fold e. rewrite (Z.sgn_pos a Ha).
  set (m := if (0 <=? e)%Z then nearestEven a (Zpos d * 2 ^ e)
            else nearestEven (a * 2 ^ (- e)) (Zpos d)).
  exists m.
  assert (HD : 0 < inject_Z (Zpos d)) by reflexivity.
  assert (HX : (a # d) * inject_Z (Zpos d) == inject_Z a).
  { rewrite (Qmake_Qdiv a d). field. discriminate. }
  pose proof (two_pos e) as HE.
  assert (Hm : (0 <= m)%Z /\
               - (inject_Z (Zpos d) * 2 ^ e) <=
                 2 * inject_Z m * inject_Z (Zpos d) * 2 ^ e - 2 * inject_Z a /\
               2 * inject_Z m * inject_Z (Zpos d) * 2 ^ e - 2 * inject_Z a
                 <= inject_Z (Zpos d) * 2 ^ e).
  { unfold m. destruct (Z.leb_spec 0 e) as [He|He].
    - destruct (nearestEven_near a (Zpos d * 2 ^ e)) as [Hnear Hpos];
        [lia | apply Z.mul_pos_pos; [lia | apply Z.pow_pos_nonneg; lia] |].
      split; [exact Hpos|].
      apply Zabs_Qbounds in Hnear.
      rewrite !inject_Z_mult, two_Zpow in Hnear by exact He.
      destruct Hnear as [Hl Hh]. split.
      + eapply Qle_trans; [exact Hl|]. apply Qle_lteq. right. ring.
      + eapply Qle_trans; [|exact Hh]. apply Qle_lteq. right. ring.
    - destruct (nearestEven_near (a * 2 ^ (- e)) (Zpos d)) as [Hnear Hpos];
        [apply Z.mul_nonneg_nonneg; [lia | apply Z.pow_nonneg; lia] | lia |].
      split; [exact Hpos|].
      apply Zabs_Qbounds in Hnear.
      rewrite !inject_Z_mult, two_Zpow in Hnear by lia.
      assert (Hinv : 2 ^ e * 2 ^ (- e) == 1).
      { rewrite <- Qpower_plus by discriminate. rewrite Z.add_opp_diag_r.
        reflexivity. }
      destruct Hnear as [Hl Hh].
      set (M := inject_Z (nearestEven (a * 2 ^ (- e)) (Zpos d))) in *.
      set (D := inject_Z (Zpos d)) in *. set (A := inject_Z a) in *.
      split.
      + setoid_replace (2 * M * D * 2 ^ e - 2 * A)
          with ((2 * M * D - 2 * (A * 2 ^ (- e))) * 2 ^ e)
          using relation Qeq.
        * setoid_replace (- (D * 2 ^ e)) with ((- D) * 2 ^ e)
          using relation Qeq by ring.
          apply Qmult_le_compat_r; [exact Hl | apply Qlt_le_weak, HE].
        * setoid_replace ((2 * M * D - 2 * (A * 2 ^ (- e))) * 2 ^ e)
            with (2 * M * D * 2 ^ e - 2 * A * (2 ^ e * 2 ^ (- e)))
          using relation Qeq by ring.
          rewrite Hinv. ring.
      + setoid_replace (2 * M * D * 2 ^ e - 2 * A)
          with ((2 * M * D - 2 * (A * 2 ^ (- e))) * 2 ^ e)
          using relation Qeq.
        * apply Qmult_le_compat_r; [exact Hh | apply Qlt_le_weak, HE].
        * setoid_replace ((2 * M * D - 2 * (A * 2 ^ (- e))) * 2 ^ e)
            with (2 * M * D * 2 ^ e - 2 * A * (2 ^ e * 2 ^ (- e)))
          using relation Qeq by ring.
          rewrite Hinv. ring. }
  destruct Hm as (Hpos & Hl & Hh).
  split; [exact Hpos|]. split.
  - rewrite Qred_correct, scale2_value. rewrite Z.mul_1_l. reflexivity.
  - apply (half_ulp _ (inject_Z a) (inject_Z (Zpos d)) _ _ HD HE HX Hl Hh).
Qed.

Lemma Qmake_bounds (a : Z) (d : positive) (lo hi : Q) :
  lo * inject_Z (Zpos d) <= inject_Z a -> inject_Z a < hi * inject_Z (Zpos d) ->
  lo <= a # d /\ a # d < hi.
Proof.
  intros Hlo Hhi.
  assert (HD : 0 < inject_Z (Zpos d)) by reflexivity.
  assert (HX : (a # d) * inject_Z (Zpos d) == inject_Z a).
  { rewrite (Qmake_Qdiv a d). field. discriminate. }
  rewrite <- HX in Hlo, Hhi. split.
  - apply (Qmult_le_r _ _ _ HD). exact Hlo.
  - apply (Qmult_lt_r _ _ _ HD). exact Hhi.
Qed.

(** In the normal range the double nearest to a number is within
    [2 ^ -53] of it, relatively. *)
Lemma round64_relative (q : Q) :
  2 ^ (-1022) <= q ->
  0 <= round64 q /\ Qabs (round64 q - q) <= q * 2 ^ (-53).
Proof.
  intros Hnormal.
  assert (Hq : 0 < q) by (eapply Qlt_le_trans; [apply two_pos | exact Hnormal]).
  destruct (round64_near q Hq) as (m & Hm & Hval & Hnear).
  destruct q as [a d]. cbn [Qnum Qden] in *.
  assert (Ha : (0 < a)%Z) by (unfold Qlt in Hq; cbn in Hq; lia).
  destruct (leadingExponent_spec a (Zpos d) Ha ltac:(lia)) as [Hlo Hhi].
  set (L := leadingExponent a (Zpos d)) in *.
  destruct (Qmake_bounds a d (2 ^ L) (2 * 2 ^ L) Hlo Hhi) as [Hlow Hhigh].
  assert (HL : (-1022 <= L)%Z).
  { rewrite <- two_succ in Hhigh.
    assert (Hlt : 2 ^ (-1022) < 2 ^ (L + 1))
      by (eapply Qle_lt_trans; [exact Hnormal | exact Hhigh]).
    apply Qpower_lt_compat_l_inv in Hlt; [lia | reflexivity]. }
  rewrite Z.max_l in Hval, Hnear by lia.
  split.
  - rewrite Hval. apply Qmult_le_0_compat.
    + rewrite <- (Zle_Qle 0). exact Hm.
    + apply Qlt_le_weak, two_pos.
  - rewrite Hval. eapply Qle_trans; [exact Hnear|].
    assert (Hulp : 2 ^ (L - 52) / 2 == 2 ^ L * 2 ^ (-53)).
    { rewrite <- Qpower_plus by discriminate.
      replace (L + -53)%Z with (L - 52 + -1)%Z by lia.
      rewrite Qpower_plus by discriminate. reflexivity. }
    rewrite Hulp. apply Qmult_le_compat_r; [exact Hlow|].
    apply Qlt_le_weak, two_pos.
Qed.

Lemma relative_bounds (x y u : Q) :
  Qabs (y - x) <= x * u -> x * (1 - u) <= y /\ y <= x * (1 + u).
Proof.
  intros H. apply Qabs_Qle_condition in H as [Hl Hh].
  setoid_replace (x * (1 - u)) with (x - x * u)
          using relation Qeq by ring.
  setoid_replace (x * (1 + u)) with (x + x * u)
          using relation Qeq by ring.
  set (xu := x * u) in *. clearbody xu. split; lra.
Qed.

Lemma chain_up (x y z a b : Q) :
  0 <= b -> y <= x * a -> z <= y * b -> z <= x * (a * b).
Proof.
  intros Hb Hy Hz. eapply Qle_trans; [exact Hz|].
  rewrite Qmult_assoc. apply Qmult_le_compat_r; assumption.
Qed.

Lemma chain_down (x y z a b : Q) :
  0 <= b -> x * a <= y -> y * b <= z -> x * (a * b) <= z.
Proof.
  intros Hb Hy Hz. eapply Qle_trans; [|exact Hz].
  rewrite Qmult_assoc. apply Qmult_le_compat_r; assumption.
Qed.

Lemma Qmult_le_l_weak (x y z : Q) : 0 <= z -> x <= y -> z * x <= z * y.
Proof.
  intros Hz Hxy. rewrite !(Qmult_comm z). apply Qmult_le_compat_r; assumption.
Qed.

Lemma scaled_height_close (w h : positive) :
  (Zpos w < 2 ^ 32)%Z -> (Zpos h < 2 ^ 32)%Z ->
  let height := fmul (pixels h) (fdiv 150 (pixels w)) in
  150 * pixels h * (1 - 2 ^ (-51)) <= height * pixels w /\
  height * pixels w <= 150 * pixels h * (1 + 2 ^ (-51)).
Proof.
  intros Hw Hh height.
  assert (HW : 0 < pixels w) by reflexivity.
  assert (HH : 1 <= pixels h).
  { unfold pixels. rewrite <- (Zle_Qle 1). lia. }
  assert (HW32 : pixels w <= inject_Z (2 ^ 32)).
  { unfold pixels. rewrite <- Zle_Qle. lia. }
  set (u := 2 ^ (-53)).
  assert (Hu0 : 0 <= 1 - u) by (vm_compute; discriminate).
  assert (Hu1 : 0 <= 1 + u) by (vm_compute; discriminate).
  set (c := 150 / pixels w).
  assert (Hc : 150 * 2 ^ (-32) <= c).
  { unfold c. apply Qle_shift_div_l; [exact HW|].
    apply Qle_trans with (150 * 2 ^ (-32) * inject_Z (2 ^ 32)).
    - apply Qmult_le_l; [reflexivity | exact HW32].
    - vm_compute. discriminate. }
  assert (Hc0 : 0 < c) by (eapply Qlt_le_trans; [|exact Hc]; reflexivity).
  (* the scale *)
  assert (Hscale : fdiv 150 (pixels w) = round64 c).
  { unfold fdiv, c, pixels. change 150 with (inject_Z 150).
    rewrite !round64_whole by lia. reflexivity. }
  destruct (round64_relative c) as [_ H1].
  { eapply Qle_trans; [|exact Hc]. vm_compute. discriminate. }
  apply relative_bounds in H1 as [H1l H1h]. fold u in H1l, H1h.
  set (s1 := round64 c) in *.
  assert (Hs1 : 75 * 2 ^ (-32) <= s1).
  { eapply Qle_trans; [|exact H1l].
    apply Qle_trans with (150 * 2 ^ (-32) * (1 - u)).
    - vm_compute. discriminate.
    - apply Qmult_le_compat_r; [exact Hc | exact Hu0]. }
  destruct (round64_relative s1) as [_ H2].
  { eapply Qle_trans; [|exact Hs1]. vm_compute. discriminate. }
  apply relative_bounds in H2 as [H2l H2h]. fold u in H2l, H2h.
  set (s2 := round64 s1) in *.
  assert (Hs2 : 37 * 2 ^ (-32) <= s2).
  { eapply Qle_trans; [|exact H2l].
    apply Qle_trans with (75 * 2 ^ (-32) * (1 - u)).
    - vm_compute. discriminate.
    - apply Qmult_le_compat_r; [exact Hs1 | exact Hu0]. }
  assert (Hs20 : 0 <= s2) by (eapply Qle_trans; [|exact Hs2]; vm_compute; discriminate).
  (* the product *)
  assert (Hheight : height = round64 (pixels h * s2)).
  { unfold height, fmul. rewrite Hscale. fold s1. fold s2.
    unfold pixels at 1. rewrite round64_whole by lia. reflexivity. }
  set (p := pixels h * s2) in *.
  assert (Hp : 37 * 2 ^ (-32) <= p).
  { unfold p. eapply Qle_trans; [exact Hs2|].
    rewrite <- (Qmult_1_l s2) at 1. apply Qmult_le_compat_r; assumption. }
  destruct (round64_relative p) as [_ H3].
  { eapply Qle_trans; [|exact Hp]. vm_compute. discriminate. }
  apply relative_bounds in H3 as [H3l H3h]. fold u in H3l, H3h.
  rewrite <- Hheight in H3l, H3h.
  (* putting the three together *)
  assert (Hup : height <= pixels h * c * ((1 + u) * (1 + u) * (1 + u))).
  { apply (chain_up _ p); [exact Hu1| |exact H3h].
    unfold p. rewrite <- Qmult_assoc. apply Qmult_le_l; [lra|].
    apply (chain_up _ s1); assumption. }
  assert (Hdown : pixels h * c * ((1 - u) * (1 - u) * (1 - u)) <= height).
  { apply (chain_down _ p); [exact Hu0| |exact H3l].
    unfold p. rewrite <- Qmult_assoc. apply Qmult_le_l; [lra|].
    apply (chain_down _ s1); assumption. }
  assert (Hhc : pixels h * c * pixels w == 150 * pixels h).
  { unfold c. field. intros H0. rewrite H0 in HW. inversion HW. }
  assert (Hpos : 0 <= 150 * pixels h) by lra.
  split.
  - apply Qle_trans with (pixels h * c * ((1 - u) * (1 - u) * (1 - u)) * pixels w).
    + setoid_replace (pixels h * c * ((1 - u) * (1 - u) * (1 - u)) * pixels w)
        with (pixels h * c * pixels w * ((1 - u) * (1 - u) * (1 - u)))
          using relation Qeq by ring.
      rewrite Hhc. apply Qmult_le_l_weak; [exact Hpos|]. vm_compute. discriminate.
    + apply Qmult_le_compat_r; [exact Hdown | lra].
  - apply Qle_trans with (pixels h * c * ((1 + u) * (1 + u) * (1 + u)) * pixels w).
    + apply Qmult_le_compat_r; [exact Hup | lra].
    + setoid_replace (pixels h * c * ((1 + u) * (1 + u) * (1 + u)) * pixels w)
        with (pixels h * c * pixels w * ((1 + u) * (1 + u) * (1 + u)))
          using relation Qeq by ring.
      rewrite Hhc. apply Qmult_le_l_weak; [exact Hpos|]. vm_compute. discriminate.
Qed.

(** Whether a picture of [w] by [h] pixels is placed above the size
    floor of resizing is settled by its proportions, except when it is
    exactly fifteen times as wide as it is high. *)
Lemma scaled_height_floor (w h : positive) :
  (Zpos w < 2 ^ 32)%Z -> (Zpos h < 2 ^ 32)%Z ->
  let height := fmul (pixels h) (fdiv 150 (pixels w)) in
  ((Zpos w < 15 * Zpos h)%Z -> 10 < height) /\
  ((15 * Zpos h < Zpos w)%Z -> height < 10).
Proof.
  intros Hw Hh height.
  destruct (scaled_height_close w h Hw Hh) as [Hlow Hhigh].
  fold height in Hlow, Hhigh.
  assert (HW : 0 < pixels w) by reflexivity.
  assert (HW32 : pixels w <= 4294967296).
  { unfold pixels. change 4294967296 with (inject_Z (2 ^ 32)).
    rewrite <- Zle_Qle. lia. }
  assert (Heps : 2 ^ (-51) == 1 # 2251799813685248) by reflexivity.
  rewrite Heps in Hlow, Hhigh.
  set (T := height * pixels w) in *.
  split.
  - intros Hratio.
    assert (H15 : pixels w + 1 <= 15 * pixels h).
    { unfold pixels. change 1 with (inject_Z 1). change 15 with (inject_Z 15).
      rewrite <- inject_Z_plus, <- inject_Z_mult, <- Zle_Qle. lia. }
    apply (Qmult_lt_r _ _ _ HW). fold T.
    set (W := pixels w) in *. set (H := pixels h) in *.
    clearbody T W H. lra.
  - intros Hratio.
    assert (H15 : 15 * pixels h <= pixels w - 1).
    { unfold pixels, Qminus. change 1 with (inject_Z 1).
      change 15 with (inject_Z 15).
      rewrite <- inject_Z_opp, <- inject_Z_plus, <- inject_Z_mult, <- Zle_Qle.
      lia. }
    assert (HH : 0 < pixels h) by reflexivity.
    apply (Qmult_lt_r _ _ _ HW). fold T.
    set (W := pixels w) in *. set (H := pixels h) in *.
    clearbody T W H. lra.
Qed.

(** *** Sums of movements *)

Lemma dragSum_exact (ds : list Q) :
  forall x, exactSums x ds -> dragSum x ds == x + foldr Qplus 0 ds.
Proof.
  induction ds as [|d ds IH]; intros x Hexact; simpl.
  - ring.
  - destruct Hexact as (Hsum & _ & Hrest).
    rewrite (IH _ Hrest), Hsum. ring.
Qed.

Lemma totalMovementX_sum (moves : list (DOMRect * MouseEvent)) :
  totalMovementX moves = foldr Qplus 0 (List.map (fun m => movementX m.2) moves).
Proof.
  induction moves as [|m moves IH]; [reflexivity|].
  simpl. rewrite <- IH. reflexivity.
Qed.

Lemma totalMovementY_sum (moves : list (DOMRect * MouseEvent)) :
  totalMovementY moves = foldr Qplus 0 (List.map (fun m => movementY m.2) moves).
Proof.
  induction moves as [|m moves IH]; [reflexivity|].
  simpl. rewrite <- IH. reflexivity.
Qed.

Lemma handleMouseMove_dragging rect e s i img :
  action s = dragging -> selectedImageIndex s = Some i ->
  placedImages s !! i = Some img ->
  handleMouseMove rect e s =
  Some (setPlacedImages
          (<[i := mkPlacedImage (img_id img) (img_image img)
                    (fadd (img_x img) (movementX e))
                    (fadd (img_y img) (movementY e))
                    (img_width img) (img_height img)]> (placedImages s))
          (setCursor (cursor s)
             (setMousePosition (Some (getMousePos rect e)) s))).
Proof.
  intros Hact Hi Himg. unfold handleMouseMove, hoverCursor, dragUpdater.
  rewrite Hact, Hi, Himg. reflexivity.
Qed.

(** The moves of a drag: the coordinates of the selected image are the
    double sums of the movements, its size is kept, nothing else changes
    in the array, and the drag goes on. *)
Lemma run_dragging_moves (moves : list (DOMRect * MouseEvent)) :
  forall s i img,
    action s = dragging -> selectedImageIndex s = Some i ->
    placedImages s !! i = Some img ->
    exists s' img',
      run (map (fun m => MouseMove m.1 m.2) moves) s = Some s' /\
      placedImages s' = <[i := img']> (placedImages s) /\
      img_x img' = dragSum (img_x img) (List.map (fun m => movementX m.2) moves) /\
      img_y img' = dragSum (img_y img) (List.map (fun m => movementY m.2) moves) /\
      img_width img' = img_width img /\ img_height img' = img_height img /\
      img_id img' = img_id img /\ img_image img' = img_image img /\
      action s' = dragging /\ selectedImageIndex s' = Some i.
Proof.
  induction moves as [|[rect e] moves IH]; intros s i img Hact Hi Himg; simpl.
  - exists s, img. rewrite list_insert_id by exact Himg.
    repeat split; try reflexivity; assumption.
  - rewrite (handleMouseMove_dragging rect e s i img Hact Hi Himg).
    cbn [mbind option_bind].
    pose proof (lookup_lt_Some _ _ _ Himg) as Hlt.
    set (step1 := mkPlacedImage (img_id img) (img_image img)
                    (fadd (img_x img) (movementX e))
                    (fadd (img_y img) (movementY e))
                    (img_width img) (img_height img)).
    destruct (IH (setPlacedImages (<[i := step1]> (placedImages s))
                    (setCursor (cursor s)
                       (setMousePosition (Some (getMousePos rect e)) s)))
                 i step1 Hact Hi)
      as (s' & img' & Hrun & Himgs & Hx & Hy & Hw & Hh & Hid & Him & Ha & Hs).
    { simpl. apply list_lookup_insert_eq. exact Hlt. }
    exists s', img'. split; [exact Hrun|].
    simpl in Himgs, Hx, Hy, Hw, Hh, Hid, Him.
    rewrite list_insert_insert_eq in Himgs.
    repeat split; auto.
Qed.

(** The moves of a drag whose sums are not rounded translate the image
    by the total of the movements. *)
Lemma dragSum_total_x (moves : list (DOMRect * MouseEvent)) (x : Q) :
  exactSums x (List.map (fun m => movementX m.2) moves) ->
  dragSum x (List.map (fun m => movementX m.2) moves) == x + totalMovementX moves.
Proof.
  intros Hexact. rewrite totalMovementX_sum. apply dragSum_exact, Hexact.
Qed.

Lemma dragSum_total_y (moves : list (DOMRect * MouseEvent)) (y : Q) :
  exactSums y (List.map (fun m => movementY m.2) moves) ->
  dragSum y (List.map (fun m => movementY m.2) moves) == y + totalMovementY moves.
Proof.
  intros Hexact. rewrite totalMovementY_sum. apply dragSum_exact, Hexact.
Qed.

(** C9, as the code has it.  On a canvas without images, with the move
    tool and nothing selected, adding a furniture image places it at
    (50, 50), 150 wide, with the height [h * (150 / w)] computed in
    doubles from its intrinsic size [w] by [h]: 100 for a picture of
    300 by 200, and for any picture below 2^32 pixels each way a height
    that has the proportions of the picture within 2^-51 of them.
    Pressing the pointer inside it and then moving leaves its width,
    height, identifier and picture unchanged, and its position is
    (50, 50) with the movements added one after the other in doubles.
    When no sum of the movements is rounded, as with movements in whole
    pixels, it is left at (50, 50) plus the total of the movements: at
    (70, 40) for movements that total (20, -10). *)
Theorem add_then_drag (file : UploadedFile) (photo : HTMLImage)
    (rect : DOMRect) (e0 : MouseEvent) (uuid : string)
    (moves : list (DOMRect * MouseEvent)) (s : EditorState)
    (Hempty : placedImages s = []) (Htool : activeTool s = move)
    (Hsel : selectedImageIndex s = None) :
  exists placed,
    placedImages (addImageToCanvas file photo s) = [placed] /\
    img_id placed = file_id file /\ img_image placed = photo /\
    img_x placed = 50 /\ img_y placed = 50 /\ img_width placed = 150 /\
    img_height placed =
      fmul (pixels (naturalHeight photo))
        (fdiv 150 (pixels (naturalWidth photo))) /\
    (naturalWidth photo = 300%positive -> naturalHeight photo = 200%positive ->
     img_height placed = 100) /\
    ((Zpos (naturalWidth photo) < 2 ^ 32)%Z ->
     (Zpos (naturalHeight photo) < 2 ^ 32)%Z ->
     150 * pixels (naturalHeight photo) * (1 - 2 ^ (-51))
       <= img_height placed * pixels (naturalWidth photo) /\
     img_height placed * pixels (naturalWidth photo)
       <= 150 * pixels (naturalHeight photo) * (1 + 2 ^ (-51))) /\
    (50 <= px (getMousePos rect e0) <= 200 ->
     50 <= py (getMousePos rect e0) <= 50 + img_height placed ->
     exists s' moved,
       run (MouseDown rect e0 uuid :: map (fun m => MouseMove m.1 m.2) moves)
         (addImageToCanvas file photo s) = Some s' /\
       placedImages s' = [moved] /\
       img_width moved = 150 /\ img_height moved = img_height placed /\
       img_id moved = file_id file /\ img_image moved = photo /\
       img_x moved = dragSum 50 (List.map (fun m => movementX m.2) moves) /\
       img_y moved = dragSum 50 (List.map (fun m => movementY m.2) moves) /\
       (exactSums 50 (List.map (fun m => movementX m.2) moves) ->
        img_x moved == 50 + totalMovementX moves) /\
       (exactSums 50 (List.map (fun m => movementY m.2) moves) ->
        img_y moved == 50 + totalMovementY moves) /\
       (exactSums 50 (List.map (fun m => movementX m.2) moves) ->
        exactSums 50 (List.map (fun m => movementY m.2) moves) ->
        totalMovementX moves == 20 -> totalMovementY moves == -10 ->
        img_x moved == 70 /\ img_y moved == 40) /\
       (forall dxs dys : list Z,
           List.map (fun m => movementX m.2) moves = List.map inject_Z dxs ->
           List.map (fun m => movementY m.2) moves = List.map inject_Z dys ->
           wholeSums 50 dxs -> wholeSums 50 dys ->
           img_x moved == 50 + totalMovementX moves /\
           img_y moved == 50 + totalMovementY moves)).
Proof.
  set (placed := {| img_id := file_id file; img_image := photo; img_x := 50;
                    img_y := 50; img_width := MAX_WIDTH;
                    img_height :=
                      fmul (pixels (naturalHeight photo))
                        (fdiv MAX_WIDTH (pixels (naturalWidth photo))) |}).
  assert (Hadd : placedImages (addImageToCanvas file photo s) = [placed]).
  { unfold addImageToCanvas. simpl. rewrite Hempty. reflexivity. }
  exists placed. split; [exact Hadd|]. do 6 (split; [reflexivity|]).
  split.
  { intros Hw Hh. unfold placed. cbn [img_height]. rewrite Hw, Hh.
    vm_compute. reflexivity. }
  split.
  { intros Hw Hh. exact (scaled_height_close _ _ Hw Hh). }
  intros Hinx Hiny.
  set (s1 := addImageToCanvas file photo s) in *.
  assert (Hhit : hits (getMousePos rect e0) placed = true).
  { apply hits_inside. unfold inside. 
    change (img_x placed) with 50. change (img_y placed) with 50.
    change (img_width placed) with 150.
    destruct Hinx as [? ?], Hiny as [? ?]. repeat split; try assumption; lra. }
  assert (Hdown : handleMouseDown rect e0 uuid s1 =
                  Some (setSelectedImageIndex (Some O) (setAction dragging s1))).
  { rewrite handleMouseDown_hit_test.
    - rewrite Hadd. simpl. rewrite Hhit. reflexivity.
    - exact Htool.
    - unfold noHandleHit. simpl. rewrite Hsel. exact I. }
  destruct (run_dragging_moves moves
              (setSelectedImageIndex (Some O) (setAction dragging s1))
              O placed eq_refl eq_refl)
    as (s' & moved & Hrun & Himgs & Hx & Hy & Hmw & Hmh & Hid & Him & _).
  { change (placedImages s1 !! O = Some placed). rewrite Hadd. reflexivity. }
  exists s', moved. cbn [run step]. rewrite Hdown. cbn [mbind option_bind].
  split; [exact Hrun|].
  change (placedImages s' = <[O := moved]> (placedImages s1)) in Himgs.
  rewrite Hadd in Himgs.
  split; [exact Himgs|].
  split; [exact Hmw|]. split; [exact Hmh|].
  split; [exact Hid|]. split; [exact Him|].
  split; [exact Hx|]. split; [exact Hy|].
  assert (Hxs : exactSums 50 (List.map (fun m => movementX m.2) moves) ->
                img_x moved == 50 + totalMovementX moves).
  { intros Hexact. rewrite Hx. apply (dragSum_total_x moves 50 Hexact). }
  assert (Hys : exactSums 50 (List.map (fun m => movementY m.2) moves) ->
                img_y moved == 50 + totalMovementY moves).
  { intros Hexact. rewrite Hy. apply (dragSum_total_y moves 50 Hexact). }
  split; [exact Hxs|]. split; [exact Hys|]. split.
  - intros Hex Hey Hdx Hdy. rewrite (Hxs Hex), (Hys Hey), Hdx, Hdy.
    split; reflexivity.
  - intros dxs dys Hdxs Hdys Hwx Hwy. split.
    + apply Hxs. rewrite Hdxs. exact (wholeSums_exact dxs 50 Hwx).
    + apply Hys. rewrite Hdys. exact (wholeSums_exact dys 50 Hwy).
Qed.

Lemma add_then_drag_witness :
  exists placed,
    placedImages (addImageToCanvas chairFile chairPhoto initialState)
      = [placed] /\
    img_height placed = 100 /\
    exists s' moved,
      run (MouseDown origin (at_ 60 60) "unused" ::
           map (fun m => MouseMove m.1 m.2) dragMoves)
        (addImageToCanvas chairFile chairPhoto initialState) = Some s' /\
      placedImages s' = [moved] /\
      img_x moved == 70 /\ img_y moved == 40 /\
      img_width moved = 150 /\ img_height moved = 100.
Proof.
  destruct (add_then_drag chairFile chairPhoto origin (at_ 60 60) "unused"
              dragMoves initialState eq_refl eq_refl eq_refl)
    as (placed & Hadd & _ & _ & _ & _ & _ & _ & Hheight & _ & Hdrag).
  specialize (Hheight eq_refl eq_refl).
  exists placed. split; [exact Hadd|]. split; [exact Hheight|].
  destruct Hdrag
    as (s' & moved & Hrun & Himgs & Hw & Hh & _ & _ & _ & _ & _ & _ & Hat
        & _).
  { vm_compute. split; discriminate. }
  { rewrite Hheight. vm_compute. split; discriminate. }
  exists s', moved. split; [exact Hrun|]. split; [exact Himgs|].
  destruct Hat as [Hx70 Hy40].
  - repeat split; vm_compute; try reflexivity; discriminate.
  - repeat split; vm_compute; try reflexivity; discriminate.
  - reflexivity.
  - reflexivity.
  - split; [exact Hx70|]. split; [exact Hy40|].
    split; [exact Hw | rewrite Hh; exact Hheight].
Defined.

(** C9, as the specification has it, fails: the chair of 300 by 200 is
    added and dragged by movements of 1.3333333333333333, 20 and
    -1.3333333333333333 across and 0, -10 and 0 down.  These are doubles
    and total (20, -10); the sums being made in doubles one after the
    other, the chair is left at 70.00000000000001, not 70, across. *)
Lemma add_then_drag_counterexample :
  Forall (fun m => isDouble (movementX m.2) = true /\
                   isDouble (movementY m.2) = true) fractionalMoves /\
  totalMovementX fractionalMoves == 20 /\
  totalMovementY fractionalMoves == -10 /\
  exists s' moved,
    run (MouseDown origin (at_ 60 60) "unused" ::
         map (fun m => MouseMove m.1 m.2) fractionalMoves)
      (addImageToCanvas chairFile chairPhoto initialState) = Some s' /\
    placedImages s' = [moved] /\
    img_x moved == 70 + (1 # 70368744177664) /\
    ~ img_x moved == 70 /\
    img_y moved == 40.
Proof.
  split; [repeat constructor; vm_compute; reflexivity|].
  split; [vm_compute; reflexivity|]. split; [reflexivity|].
  eexists. eexists. split; [vm_compute; reflexivity|].
  split; [reflexivity|]. cbn [img_x img_y].
  split; [reflexivity|]. split; [|reflexivity]. discriminate.
Qed.

(** ** The background *)

(** C6, as the code has it.  The component starts with the colour
    [#FFFFFF] and no background image.  Choosing a colour stores it and
    clears the image.  Loading a background image stores the image and
    leaves the stored colour as it was.  The background that is painted
    is the image alone when there is one and the fill in the stored
    colour alone otherwise. *)
Theorem background_choice :
  (backgroundColor initialState = "#FFFFFF" /\
   backgroundImage initialState = None) /\
  (forall s value,
      backgroundColor (handleBackgroundColorChange value s) = value /\
      backgroundImage (handleBackgroundColorChange value s) = None) /\
  (forall s img,
      backgroundImage (handleBackgroundImageUpload (Some img) s) = Some img /\
      backgroundColor (handleBackgroundImageUpload (Some img) s)
        = backgroundColor s) /\
  (forall s c,
      content (drawBackground s c) =
      content c ++
      [match backgroundImage s with
       | Some img => PDrawImage img 0 0 (canvas_width c) (canvas_height c)
       | None =>
           PFillRect (backgroundColor s) 0 0 (canvas_width c) (canvas_height c)
       end]).
Proof.
  repeat split. intros s c. apply drawBackground_content.
Qed.

(** C6, as the specification has it, fails: after red is chosen and a
    room photo is then loaded as the background, the state holds the
    photo and still holds red, and red is what an eraser stroke drawn
    afterwards is painted with, on top of the photo. *)
Lemma background_exclusive_counterexample :
  exists s',
    run eraseOverPhoto initialState = Some s' /\
    backgroundImage s' = Some roomPhoto /\ backgroundColor s' = "#FF0000" /\
    content (repaint s' mountedCanvas) =
      [ PDrawImage roomPhoto 0 0 800 600;
        PStrokePath (mkPen "#FF0000" 20 "round" "round")
          [MoveTo 10 60; LineTo 10 60; LineTo 60 10] ].
Proof.
  eexists. split; [vm_compute; reflexivity|]. repeat split.
Qed.

(** ** Rectangles *)

Lemma Qmin_sym_shift (a b : Q) : Qmin a (a + (b - a)) == Qmin b (b + (a - b)).
Proof.
  destruct (Q.min_spec a (a + (b - a))) as [[H1 ->]|[H1 ->]];
    destruct (Q.min_spec b (b + (a - b))) as [[H2 ->]|[H2 ->]]; lra.
Qed.

Lemma Qmax_sym_shift (a b : Q) : Qmax a (a + (b - a)) == Qmax b (b + (a - b)).
Proof.
  destruct (Q.max_spec a (a + (b - a))) as [[H1 ->]|[H1 ->]];
    destruct (Q.max_spec b (b + (a - b))) as [[H2 ->]|[H2 ->]]; lra.
Qed.

Lemma Qmin_shift (a b : Q) : Qmin a (a + (b - a)) == Qmin a b.
Proof.
  destruct (Q.min_spec a (a + (b - a))) as [[H1 ->]|[H1 ->]];
    destruct (Q.min_spec a b) as [[H2 ->]|[H2 ->]]; lra.
Qed.

Lemma Qmax_shift (a b : Q) : Qmax a (a + (b - a)) == Qmax a b.
Proof.
  destruct (Q.max_spec a (a + (b - a))) as [[H1 ->]|[H1 ->]];
    destruct (Q.max_spec a b) as [[H2 ->]|[H2 ->]]; lra.
Qed.

(** C8.  A rectangle element with corner points [a] then [b] and the one
    with [b] then [a] are stroked with the same pen, each as one [rect]
    sub-path, [rect(a.x, a.y, b.x - a.x, b.y - a.y)] and
    [rect(b.x, b.y, a.x - b.x, a.y - b.y)].  The two sub-paths pass
    through the same four corners (the second starts at the opposite
    corner) and span the same box, which is the one between the smaller
    and the larger coordinates of [a] and [b]: a negative width or height
    changes nothing in what is rendered. *)
Theorem rectangle_order_independent (a b : Point) (id1 id2 color bg : string)
    (width : Q) (c : Ctx2D) :
  let el1 := mkCanvasElement id1 rectangle [a; b] color width in
  let el2 := mkCanvasElement id2 rectangle [b; a] color width in
  let w := px b - px a in
  let h := py b - py a in
  content (drawElement bg el1 c) =
    content c ++ [PStrokePath (mkPen color width "round" "round")
                    [RectPath (px a) (py a) w h]] /\
  content (drawElement bg el2 c) =
    content c ++ [PStrokePath (mkPen color width "round" "round")
                    [RectPath (px b) (py b) (px a - px b) (py a - py b)]] /\
  sameBox (rectBox (px a) (py a) w h)
          (rectBox (px b) (py b) (px a - px b) (py a - py b)) /\
  sameBox (rectBox (px a) (py a) w h)
          (mkBox (Qmin (px a) (px b)) (Qmin (py a) (py b))
                 (Qmax (px a) (px b)) (Qmax (py a) (py b))) /\
  Forall2 samePoint
    (rectCorners (px b) (py b) (px a - px b) (py a - py b))
    (rotate 2 (rectCorners (px a) (py a) w h)).
Proof.
  intros el1 el2 w h. subst el1 el2 w h.
  split; [rewrite drawElement_paints; reflexivity|].
  split; [rewrite drawElement_paints; reflexivity|].
  split; [|split].
  - repeat split; simpl;
      auto using Qmin_sym_shift, Qmax_sym_shift.
  - repeat split; simpl; auto using Qmin_shift, Qmax_shift.
  - unfold rectCorners, rotate. simpl.
    repeat constructor; simpl; ring.
Qed.

(** A rectangle drawn from its bottom-right corner (110, 60) up to
    (10, 10), and the same box drawn the other way round. *)
Example rectangle_backwards :
  rectBox 110 60 (10 - 110) (10 - 60) = mkBox 10 10 110 60 /\
  rectBox 10 10 (110 - 10) (60 - 10) = mkBox 10 10 110 60.
Proof. split; reflexivity. Qed.

(** ** The size of the canvas *)

Lemma keeps_size_seq a b : keeps_size a -> keeps_size b -> keeps_size (a >>> b).
Proof.
  intros Ha Hb c. unfold seqDraw.
  destruct (Hb (a c)) as [-> ->]. apply Ha.
Qed.

Lemma keeps_size_forEach {A} (f : A -> Draw) (l : list A) :
  (forall a, keeps_size (f a)) -> keeps_size (forEach f l).
Proof.
  intros Hf. unfold forEach. induction l as [|a l IH]; intros c; simpl.
  - split; reflexivity.
  - destruct (IH (f a c)) as [-> ->]. apply Hf.
Qed.

Lemma keeps_size_forEachFrom {A} (f : A -> nat -> Draw) (k : nat) (l : list A) :
  (forall a i, keeps_size (f a i)) -> keeps_size (forEachFrom f k l).
Proof.
  intros Hf. revert k. induction l as [|a l IH]; intros k; simpl.
  - intros c. split; reflexivity.
  - apply keeps_size_seq; auto.
Qed.

Lemma keeps_size_drawElement bg el : keeps_size (drawElement bg el).
Proof. intros c. rewrite drawElement_paints. split; reflexivity. Qed.

Lemma keeps_size_drawSelection img : keeps_size (drawSelection img).
Proof. intros c. split; reflexivity. Qed.

Lemma keeps_size_drawPlacedImage sel img i :
  keeps_size (drawPlacedImage sel img i).
Proof.
  intros c. unfold drawPlacedImage, seqDraw. case_match; split; reflexivity.
Qed.

Lemma keeps_size_drawPreview s : keeps_size (drawPreview s).
Proof.
  intros c. unfold drawPreview. repeat case_match; split; reflexivity.
Qed.

Lemma repaint_size (s : EditorState) (c : Ctx2D) :
  canvas_width (repaint s c) = canvas_width c /\
  canvas_height (repaint s c) = canvas_height c.
Proof.
  unfold repaint. rewrite clearRect_all_seq.
  assert (H : keeps_size
            (drawBackground s >>>
             forEach (drawElement (backgroundColor s)) (elements s) >>>
             match selectedElement s with
             | Some el => drawElement (backgroundColor s) el
             | None => skip
             end >>>
             forEachFrom (drawPlacedImage (selectedImageIndex s)) 0
               (placedImages s) >>>
             drawPreview s)).
  { apply keeps_size_seq; [intros c'; apply drawBackground_size|].
    apply keeps_size_seq;
      [apply keeps_size_forEach, keeps_size_drawElement|].
    apply keeps_size_seq.
    { destruct (selectedElement s); [apply keeps_size_drawElement|].
      intros c'. split; reflexivity. }
    apply keeps_size_seq; [|apply keeps_size_drawPreview].
    apply keeps_size_forEachFrom. intros a i.
    apply keeps_size_drawPlacedImage. }
  apply (H (set_content [] c)).
Qed.

(** ** Export *)

Lemma exportCanvas_content (canvas : Ctx2D) (s : EditorState) :
  content (exportCanvas canvas s) =
  [ backgroundPaint s (canvas_width canvas) (canvas_height canvas);
    PDrawCanvas (content canvas) 0 0 ].
Proof.
  unfold exportCanvas, seqDraw, drawCanvas, paint. simpl.
  rewrite drawBackground_content. reflexivity.
Qed.

Lemma exportCanvas_size (canvas : Ctx2D) (s : EditorState) :
  canvas_width (exportCanvas canvas s) = canvas_width canvas /\
  canvas_height (exportCanvas canvas s) = canvas_height canvas.
Proof.
  unfold exportCanvas, seqDraw, drawCanvas, paint. simpl.
  destruct (drawBackground_size s
              (newCanvas (canvas_width canvas) (canvas_height canvas)))
    as [-> ->].
  split; reflexivity.
Qed.

Lemma split_comma_free (s : string) :
  comma_free s = true -> split_comma s = [s].
Proof.
  induction s as [|ch rest IH]; simpl; [reflexivity|].
  destruct (Ascii.eqb ch ","); simpl; [discriminate|].
  intros H. rewrite (IH H). reflexivity.
Qed.

Lemma split_comma_head (s : string) :
  exists first more, split_comma s = first :: more.
Proof.
  induction s as [|ch rest (first & more & IH)]; simpl; [eauto|].
  destruct (Ascii.eqb ch ","); [eauto|]. rewrite IH. eauto.
Qed.

Lemma Qeq_bool_positive (q : Q) : 0 < q -> Qeq_bool q 0 = false.
Proof.
  intros Hq. destruct (Qeq_bool q 0) eqn:E; [|reflexivity].
  apply Qeq_bool_iff in E. rewrite E in Hq. inversion Hq.
Qed.

Section ExportProperties.

Variable jpegBase64 : Q -> Q -> list Paint -> string.

Lemma toDataURL_split (c : Ctx2D) :
  0 < canvas_width c -> 0 < canvas_height c ->
  split_comma (toDataURL jpegBase64 c) =
  "data:image/jpeg;base64" ::
  split_comma (jpegBase64 (canvas_width c) (canvas_height c) (content c)).
Proof.
  intros Hw Hh. unfold toDataURL.
  rewrite (Qeq_bool_positive _ Hw), (Qeq_bool_positive _ Hh). simpl.
  reflexivity.
Qed.

(** On a canvas with an area the export is never [null]. *)
Lemma getCanvasAsBase64_Some (canvas : Ctx2D) (s : EditorState) :
  0 < canvas_width canvas -> 0 < canvas_height canvas ->
  is_Some (getCanvasAsBase64 jpegBase64 (Some canvas) s).
Proof.
  intros Hw Hh. unfold getCanvasAsBase64.
  destruct (exportCanvas_size canvas s) as [Ew Eh].
  rewrite toDataURL_split by (rewrite ?Ew, ?Eh; assumption).
  destruct (split_comma_head
              (jpegBase64 (canvas_width (exportCanvas canvas s))
                 (canvas_height (exportCanvas canvas s))
                 (content (exportCanvas canvas s))))
    as (first & more & ->).
  simpl. eauto.
Qed.

(** With an encoder that produces base64 text, the export is that
    text for the painted temporary canvas. *)
Lemma getCanvasAsBase64_payload (canvas : Ctx2D) (s : EditorState) :
  (forall w h frame, comma_free (jpegBase64 w h frame) = true) ->
  0 < canvas_width canvas -> 0 < canvas_height canvas ->
  getCanvasAsBase64 jpegBase64 (Some canvas) s =
  Some (jpegBase64 (canvas_width canvas) (canvas_height canvas)
          [ backgroundPaint s (canvas_width canvas) (canvas_height canvas);
            PDrawCanvas (content canvas) 0 0 ]).
Proof.
  intros Henc Hw Hh. unfold getCanvasAsBase64.
  destruct (exportCanvas_size canvas s) as [Ew Eh].
  rewrite toDataURL_split by (rewrite ?Ew, ?Eh; assumption).
  rewrite split_comma_free by apply Henc.
  rewrite Ew, Eh, exportCanvas_content. reflexivity.
Qed.

End ExportProperties.

(** With nothing placed, nothing drawn, nothing in progress and no
    pointer over the canvas, a repaint leaves the background alone on
    it. *)
Lemma repaint_empty (s : EditorState) (c : Ctx2D) :
  placedImages s = [] -> elements s = [] -> selectedElement s = None ->
  mousePosition s = None ->
  content (repaint s c) =
  [backgroundPaint s (canvas_width c) (canvas_height c)].
Proof.
  intros Himgs Hels Hsel Hmouse. unfold repaint. rewrite clearRect_all_seq.
  unfold seqDraw, drawPreview. rewrite Himgs, Hels, Hsel, Hmouse. simpl.
  unfold skip. rewrite drawBackground_content. reflexivity.
Qed.

Lemma repaint_unfold (s : EditorState) (c : Ctx2D) :
  repaint s c =
  drawPreview s
    (forEachFrom (drawPlacedImage (selectedImageIndex s)) 0 (placedImages s)
       (match selectedElement s with
        | Some el => drawElement (backgroundColor s) el
        | None => skip
        end
          (forEach (drawElement (backgroundColor s)) (elements s)
             (drawBackground s (set_content [] c))))).
Proof. unfold repaint. rewrite clearRect_all_seq. reflexivity. Qed.

Lemma drawPreview_hidden (s : EditorState) (c : Ctx2D) :
  previewHidden s -> drawPreview s c = c.
Proof.
  unfold previewHidden, drawPreview. intros [H|[H|H]].
  - rewrite H. reflexivity.
  - rewrite H. destruct (mousePosition s); reflexivity.
  - destruct (mousePosition s); [|reflexivity].
    rewrite bool_decide_eq_false_2 by exact H.
    rewrite andb_false_r. reflexivity.
Qed.

Lemma drawPreview_shown (s : EditorState) (c : Ctx2D) (pos : Point) :
  mousePosition s = Some pos -> isDrawingTool (activeTool s) = true ->
  action s = none ->
  content (drawPreview s c) =
  content c ++
  [PStrokePath
     (mkPen (if decide (activeTool s = eraser) then "#000000" else strokeColor s)
        1 (pen_cap (pen c)) (pen_join (pen c)))
     [ArcFull (px pos) (py pos)
        (RExact ((if decide (activeTool s = eraser) then 20 else strokeWidth s)
                 / 2))]].
Proof.
  intros Hpos Htool Hact. unfold drawPreview. rewrite Hpos, Htool, Hact.
  reflexivity.
Qed.

(** The first piece of a split is empty exactly when the text is empty
    or starts with a comma. *)
Lemma split_comma_first (s : string) :
  exists first more,
    split_comma s = first :: more /\
    (first <> EmptyString <->
     exists ch rest, s = String ch rest /\ ch <> ","%char).
Proof.
  destruct s as [|ch rest].
  - exists EmptyString, []. split; [reflexivity|]. split; [congruence|].
    intros (ch & rest & H & _). discriminate H.
  - cbn [split_comma]. destruct (Ascii.eqb_spec ch ","%char) as [->|Hch].
    + eexists _, _. split; [reflexivity|]. split; [congruence|].
      intros (ch & rest' & [= -> _] & Hne). congruence.
    + destruct (split_comma_head rest) as (first & more & ->).
      eexists _, _. split; [reflexivity|]. split; [|discriminate].
      intros _. eauto.
Qed.

(** C10, as the code has it.  On a mounted canvas (one with an area)
    the export of a state without placed image and without committed
    element is a string, never [null]: the text the encoder gives for
    the background with the mounted canvas copied over it, up to its
    first comma.  It is that whole text when the text has no comma, and
    it is not empty exactly when the text starts with a character other
    than a comma, as base64 text does.  The mounted canvas holds the
    background alone when no draw is in progress and the brush-size
    circle is not shown; otherwise it also holds the element in progress
    or the circle under the pointer, and so does the export.  Before the
    canvas is mounted the export is [null]. *)
Theorem export_empty_scene (jpegBase64 : Q -> Q -> list Paint -> string)
    (s : EditorState) (c0 : Ctx2D)
    (Hw : 0 < canvas_width c0) (Hh : 0 < canvas_height c0)
    (Himgs : placedImages s = []) (Hels : elements s = []) :
  let background :=
    backgroundPaint s (canvas_width c0) (canvas_height c0) in
  let encoded :=
    jpegBase64 (canvas_width c0) (canvas_height c0)
      [background; PDrawCanvas (content (repaint s c0)) 0 0] in
  (exists payload more,
      getCanvasAsBase64 jpegBase64 (Some (repaint s c0)) s = Some payload /\
      split_comma encoded = payload :: more /\
      (comma_free encoded = true -> payload = encoded) /\
      (payload <> EmptyString <->
       exists ch rest, encoded = String ch rest /\ ch <> ","%char)) /\
  (selectedElement s = None -> previewHidden s ->
   content (repaint s c0) = [background]) /\
  (forall el,
      selectedElement s = Some el ->
      exists rest,
        content (repaint s c0) =
        background :: elementPaint (backgroundColor s) el :: rest) /\
  (forall pos,
      selectedElement s = None -> mousePosition s = Some pos ->
      isDrawingTool (activeTool s) = true -> action s = none ->
      exists stroke_pen radius,
        content (repaint s c0) =
        [background; PStrokePath stroke_pen [ArcFull (px pos) (py pos) radius]] /\
        content (repaint s c0) <> [background]) /\
  getCanvasAsBase64 jpegBase64 None s = None.
Proof.
  intros background encoded.
  destruct (repaint_size s c0) as [Ew Eh].
  split; [|split; [|split; [|split; [|reflexivity]]]].
  - destruct (split_comma_first encoded) as (payload & more & Hsplit & Hne).
    exists payload, more.
    assert (Hexport : getCanvasAsBase64 jpegBase64 (Some (repaint s c0)) s
                      = Some payload).
    { unfold getCanvasAsBase64.
      destruct (exportCanvas_size (repaint s c0) s) as [Xw Xh].
      rewrite toDataURL_split by (rewrite ?Xw, ?Xh, ?Ew, ?Eh; assumption).
      rewrite Xw, Xh, exportCanvas_content, Ew, Eh.
      fold background. fold encoded. rewrite Hsplit. reflexivity. }
    split; [exact Hexport|]. split; [exact Hsplit|]. split; [|exact Hne].
    intros Hfree. rewrite (split_comma_free _ Hfree) in Hsplit.
    congruence.
  - intros Hsel Hprev. rewrite repaint_unfold, drawPreview_hidden by exact Hprev.
    rewrite Himgs, Hels, Hsel. unfold skip. cbn [forEachFrom forEach fold_left].
    unfold skip. rewrite drawBackground_content. reflexivity.
  - intros el Hsel. rewrite repaint_unfold, Himgs, Hels, Hsel.
    cbn [forEachFrom forEach fold_left]. unfold skip.
    destruct (appends_drawPreview s
                (drawElement (backgroundColor s) el
                   (drawBackground s (set_content [] c0)))) as [rest Hrest].
    exists rest. rewrite Hrest, drawElement_paints, drawBackground_content.
    reflexivity.
  - intros pos Hsel Hpos Htool Hact. rewrite repaint_unfold.
    rewrite (drawPreview_shown s _ pos Hpos Htool Hact).
    rewrite Himgs, Hels, Hsel. cbn [forEachFrom forEach fold_left].
    unfold skip. rewrite drawBackground_content.
    eexists _, _. split; [reflexivity|]. discriminate.
Qed.

Lemma export_empty_scene_witness :
  0 < canvas_width mountedCanvas /\ 0 < canvas_height mountedCanvas /\
  exists payload,
    getCanvasAsBase64 sampleEncoder
      (Some (repaint initialState mountedCanvas)) initialState = Some payload /\
    payload <> EmptyString /\
    content (repaint initialState mountedCanvas)
      = [PFillRect "#FFFFFF" 0 0 800 600].
Proof.
  assert (Hw : 0 < canvas_width mountedCanvas) by reflexivity.
  assert (Hh : 0 < canvas_height mountedCanvas) by reflexivity.
  split; [exact Hw|]. split; [exact Hh|].
  destruct (export_empty_scene sampleEncoder initialState mountedCanvas
              Hw Hh eq_refl eq_refl)
    as ((payload & more & Hexport & _ & _ & Hne) & Hclean & _).
  exists payload. split; [exact Hexport|]. split.
  - apply Hne. eexists _, _. split; [reflexivity | discriminate].
  - apply Hclean; [reflexivity | left; reflexivity].
Defined.

(** C10, as the specification has it, fails: with the pencil armed and
    the pointer resting on the canvas at (100, 100), nothing is placed
    and nothing is drawn, and the export holds the brush-size circle
    over the background. *)
Lemma export_brush_counterexample :
  exists s,
    run [ToolClick pencil; MouseMove origin (at_ 100 100)] initialState
      = Some s /\
    placedImages s = [] /\ elements s = [] /\ selectedElement s = None /\
    content (exportCanvas (repaint s mountedCanvas) s) =
      [ PFillRect "#FFFFFF" 0 0 800 600;
        PDrawCanvas
          [ PFillRect "#FFFFFF" 0 0 800 600;
            PStrokePath (mkPen "#000000" 1 "butt" "miter")
              [ArcFull 100 100 (RExact (5 # 2))] ] 0 0 ] /\
    content (exportCanvas (repaint s mountedCanvas) s) <>
      [ PFillRect "#FFFFFF" 0 0 800 600;
        PDrawCanvas [PFillRect "#FFFFFF" 0 0 800 600] 0 0 ].
Proof.
  eexists. split; [vm_compute; reflexivity|].
  do 3 (split; [reflexivity|]).
  split; [vm_compute; reflexivity|].
  intros H. vm_compute in H. discriminate H.
Qed.

(** ** What the export shows *)

Lemma forEachFrom_unselected (k : nat) (imgs : list PlacedImage) (c : Ctx2D) :
  content (forEachFrom (drawPlacedImage None) k imgs c) =
  content c ++ map imagePaint imgs.
Proof.
  revert k c. induction imgs as [|img imgs IH]; intros k c; simpl.
  - symmetry. apply app_nil_r.
  - unfold seqDraw. rewrite IH. unfold drawPlacedImage, seqDraw. simpl.
    rewrite <- app_assoc. reflexivity.
Qed.

Lemma forEachFrom_image sel (imgs : list PlacedImage) :
  forall k c i img,
    imgs !! i = Some img ->
    imagePaint img ∈ content (forEachFrom (drawPlacedImage sel) k imgs c).
Proof.
  induction imgs as [|first imgs IH]; intros k c i img Hi; [discriminate|].
  simpl. unfold seqDraw. destruct i as [|i]; simpl in Hi.
  - injection Hi as ->.
    apply appends_keeps; [auto with draw|].
    unfold drawPlacedImage, seqDraw.
    apply appends_keeps; [case_match; auto with draw|].
    apply elem_of_app. right. left.
  - apply (IH _ _ i). exact Hi.
Qed.

Lemma drawPlacedImage_selected (k : nat) (img : PlacedImage) (c : Ctx2D) :
  exists cap join,
    PStrokeRect (mkPen "#007bff" 2 cap join) (img_x img) (img_y img)
      (img_width img) (img_height img)
    ∈ content (drawPlacedImage (Some k) img k c).
Proof.
  unfold drawPlacedImage, seqDraw.
  destruct (decide (Some k = Some k)); [|congruence].
  unfold drawSelection. unfold seqDraw at 1 2 3.
  eexists _, _. apply appends_keeps; [auto 10 with draw|].
  apply elem_of_app. right. left.
Qed.

Lemma forEachFrom_selection (imgs : list PlacedImage) :
  forall k c i img,
    imgs !! i = Some img ->
    exists cap join,
      PStrokeRect (mkPen "#007bff" 2 cap join) (img_x img) (img_y img)
        (img_width img) (img_height img)
      ∈ content (forEachFrom (drawPlacedImage (Some (k + i)%nat)) k imgs c).
Proof.
  induction imgs as [|first imgs IH]; intros k c i img Hi; [discriminate|].
  simpl. unfold seqDraw at 1. destruct i as [|i]; simpl in Hi.
  - injection Hi as ->. rewrite Nat.add_0_r.
    destruct (drawPlacedImage_selected k img c) as (cap & join & Hin).
    exists cap, join. apply appends_keeps; [auto with draw|]. exact Hin.
  - rewrite Nat.add_succ_r. apply (IH (S k) _ i). exact Hi.
Qed.

(** C1, as the code has it.  The export is the background painted on a
    new canvas with the mounted canvas copied over it, so it shows what
    the mounted canvas shows: the background, the committed elements,
    the placed images, and also the element in progress, the outline
    and the handles of the selected image and the brush-size circle
    whenever these are on the canvas.  When no image is selected, no
    draw is in progress and the brush-size circle is not shown, the
    export holds the background, the committed elements and the placed
    images only, and equals the export of the same state with the
    selection cleared, the pointer away and no element in progress. *)
Theorem export_shows_live_canvas (s : EditorState) (c0 : Ctx2D)
    (Hsel : selectedImageIndex s = None)
    (Hel : selectedElement s = None)
    (Hprev : previewHidden s) :
  let background := backgroundPaint s (canvas_width c0) (canvas_height c0) in
  (content (exportCanvas (repaint s c0) s) =
     [ background;
       PDrawCanvas
         (background ::
          map (elementPaint (backgroundColor s)) (elements s) ++
          map imagePaint (placedImages s)) 0 0 ] /\
   content (exportCanvas (repaint s c0) s) =
     content (exportCanvas (repaint (withoutEphemeral s) c0)
                (withoutEphemeral s))) /\
  (forall s1 c1,
      content (exportCanvas (repaint s1 c1) s1) =
      [ backgroundPaint s1 (canvas_width c1) (canvas_height c1);
        PDrawCanvas (content (repaint s1 c1)) 0 0 ]) /\
  (forall s1 c1 el,
      el ∈ elements s1 ->
      elementPaint (backgroundColor s1) el ∈ content (repaint s1 c1)) /\
  (forall s1 c1 i img,
      placedImages s1 !! i = Some img ->
      imagePaint img ∈ content (repaint s1 c1)) /\
  (forall s1 c1 el,
      selectedElement s1 = Some el ->
      elementPaint (backgroundColor s1) el ∈ content (repaint s1 c1)) /\
  (forall s1 c1 i img,
      selectedImageIndex s1 = Some i -> placedImages s1 !! i = Some img ->
      exists cap join,
        PStrokeRect (mkPen "#007bff" 2 cap join) (img_x img) (img_y img)
          (img_width img) (img_height img) ∈ content (repaint s1 c1)) /\
  (forall s1 c1 pos,
      mousePosition s1 = Some pos -> isDrawingTool (activeTool s1) = true ->
      action s1 = none ->
      exists stroke_pen radius,
        PStrokePath stroke_pen [ArcFull (px pos) (py pos) radius]
        ∈ content (repaint s1 c1)).
Proof.
  intros background.
  assert (Hexport : forall s1 c1,
             content (exportCanvas (repaint s1 c1) s1) =
             [ backgroundPaint s1 (canvas_width c1) (canvas_height c1);
               PDrawCanvas (content (repaint s1 c1)) 0 0 ]).
  { intros s1 c1. rewrite exportCanvas_content.
    destruct (repaint_size s1 c1) as [-> ->]. reflexivity. }
  assert (Hclean : content (repaint s c0) =
                   background ::
                   map (elementPaint (backgroundColor s)) (elements s) ++
                   map imagePaint (placedImages s)).
  { rewrite repaint_unfold, drawPreview_hidden by exact Hprev.
    rewrite Hsel, Hel, forEachFrom_unselected. unfold skip.
    rewrite forEach_drawElement, drawBackground_content.
    rewrite <- app_assoc. reflexivity. }
  split; [split|split; [exact Hexport|split; [|split; [|split; [|split]]]]].
  - rewrite Hexport, Hclean. reflexivity.
  - rewrite !Hexport. f_equal. f_equal. f_equal.
    rewrite Hclean, (repaint_unfold (withoutEphemeral s)).
    cbn [withoutEphemeral selectedImageIndex selectedElement placedImages
         elements backgroundColor setSelectedImageIndex setMousePosition
         setSelectedElement].
    rewrite drawPreview_hidden by (left; reflexivity).
    rewrite forEachFrom_unselected. unfold skip.
    rewrite forEach_drawElement, drawBackground_content.
    rewrite <- app_assoc. reflexivity.
  - intros s1 c1 el Hin. apply repaint_element, Hin.
  - intros s1 c1 i img Himg. rewrite repaint_unfold.
    apply appends_keeps; [auto with draw|].
    eapply forEachFrom_image, Himg.
  - intros s1 c1 el Hsome. rewrite repaint_unfold, Hsome.
    apply appends_keeps; [auto with draw|].
    apply appends_keeps; [auto with draw|].
    rewrite drawElement_paints. simpl. apply elem_of_app. right. left.
  - intros s1 c1 i img Hi Himg. rewrite repaint_unfold, Hi.
    destruct (forEachFrom_selection (placedImages s1) O
                (match selectedElement s1 with
                 | Some el => drawElement (backgroundColor s1) el
                 | None => skip
                 end
                   (forEach (drawElement (backgroundColor s1)) (elements s1)
                      (drawBackground s1 (set_content [] c1))))
                i img Himg) as (cap & join & Hin).
    exists cap, join. apply appends_keeps; [auto with draw|]. exact Hin.
  - intros s1 c1 pos Hpos Htool Hact. rewrite repaint_unfold.
    eexists _, _. rewrite (drawPreview_shown s1 _ pos Hpos Htool Hact).
    apply elem_of_app. right. left.
Qed.

Lemma export_shows_live_canvas_witness :
  selectedImageIndex hoverScene = None /\ selectedElement hoverScene = None /\
  previewHidden hoverScene /\
  content (exportCanvas (repaint hoverScene mountedCanvas) hoverScene) =
    [ PFillRect "#FFFFFF" 0 0 800 600;
      PDrawCanvas
        (PFillRect "#FFFFFF" 0 0 800 600 ::
         map (elementPaint "#FFFFFF") [pencilStroke] ++
         map imagePaint [chair; table]) 0 0 ] /\
  content (exportCanvas (repaint hoverScene mountedCanvas) hoverScene) =
    content (exportCanvas (repaint (withoutEphemeral hoverScene) mountedCanvas)
               (withoutEphemeral hoverScene)).
Proof.
  assert (Hprev : previewHidden hoverScene) by (right; left; reflexivity).
  split; [reflexivity|]. split; [reflexivity|]. split; [exact Hprev|].
  exact (proj1 (export_shows_live_canvas hoverScene mountedCanvas
                  eq_refl eq_refl Hprev)).
Defined.

(** C1, as the specification has it, fails.  After the chair is added
    and selected with a click and the pointer has left the canvas, the
    export differs from the export of the same state with the selection
    cleared: it holds the outline and the handles.  The pixel at
    (49, 100), one pixel left of the chair, is white without the
    selection and has the outline colour with it. *)
Lemma export_ephemeral_counterexample :
  exists s,
    run selectChair initialState = Some s /\
    selectedImageIndex s = Some O /\ action s = none /\
    mousePosition s = None /\ selectedElement s = None /\
    content (exportCanvas (repaint s mountedCanvas) s) <>
      content (exportCanvas (repaint (withoutEphemeral s) mountedCanvas)
                 (withoutEphemeral s)) /\
    pixelAt (exportCanvas (repaint s mountedCanvas) s) 49 100
      = Opaque "#007bff" /\
    pixelAt (exportCanvas (repaint (withoutEphemeral s) mountedCanvas)
               (withoutEphemeral s)) 49 100
      = Opaque "#FFFFFF".
Proof.
  eexists. split; [vm_compute; reflexivity|].
  do 4 (split; [reflexivity|]).
  split; [|split; vm_compute; reflexivity].
  intros H. vm_compute in H. discriminate H.
Qed.

(** * Further properties of the editor *)

(** ** Resize handles *)








Lemma handleMouseMove_hover rect e s i img :
  action s = none -> activeTool s = move -> selectedImageIndex s = Some i ->
  placedImages s !! i = Some img ->
  handleMouseMove rect e s =
  Some (setCursor
          (getCursorForHandle
             (getHandleAtPosition (px (getMousePos rect e))
                (py (getMousePos rect e)) img))
          (setMousePosition (Some (getMousePos rect e)) s)).
Proof.
  intros Hact Htool Hi Himg. unfold handleMouseMove, hoverCursor.
  rewrite Hact, Htool, Hi, Himg.
  destruct (decide (move = move)); [|congruence].
  destruct (resizeHandle s), (selectedElement s); reflexivity.
Qed.

(** X2.  With the move tool, an image selected and nothing in progress,
    a pointer move sets the cursor from the very hit test that a press
    at the same place uses: over a handle the cursor is the diagonal
    resize cursor of that handle and a press there starts resizing with
    it; elsewhere the cursor is [move] and a press starts no resize. *)
Theorem hover_cursor_matches_press (rect : DOMRect) (e : MouseEvent)
    (uuid : string) (s : EditorState) (i : nat) (img : PlacedImage)
    (Hact : action s = none) (Htool : activeTool s = move)
    (Hi : selectedImageIndex s = Some i)
    (Himg : placedImages s !! i = Some img) :
  let pos := getMousePos rect e in
  exists hovered,
    handleMouseMove rect e s = Some hovered /\
    placedImages hovered = placedImages s /\
    selectedImageIndex hovered = Some i /\ action hovered = none /\
    (forall handle,
        getHandleAtPosition (px pos) (py pos) img = Some handle ->
        cursor hovered =
          (if decide (handle = tl \/ handle = br) then "nwse-resize"
           else "nesw-resize") /\
        handleMouseDown rect e uuid hovered =
          Some (setResizeHandle (Some handle) (setAction resizing hovered))) /\
    (getHandleAtPosition (px pos) (py pos) img = None ->
     cursor hovered = "move" /\
     exists pressed,
       handleMouseDown rect e uuid hovered = Some pressed /\
       action pressed <> resizing /\ resizeHandle pressed = resizeHandle s).
Proof.
  intros pos. rewrite (handleMouseMove_hover rect e s i img Hact Htool Hi Himg).
  fold pos. eexists. split; [reflexivity|].
  split; [reflexivity|]. split; [exact Hi|]. split; [exact Hact|]. split.
  - intros handle Hhandle. rewrite Hhandle. split.
    + destruct handle; reflexivity.
    + unfold handleMouseDown.
      cbn [activeTool selectedImageIndex placedImages setCursor
           setMousePosition].
      rewrite Htool, Hi, Himg. fold pos. rewrite Hhandle.
      destruct (decide (move = move)); [reflexivity | congruence].
  - intros Hnone. rewrite Hnone. split; [reflexivity|].
    unfold handleMouseDown.
    cbn [activeTool selectedImageIndex placedImages setCursor
         setMousePosition].
    rewrite Htool, Hi, Himg. fold pos. rewrite Hnone.
    destruct (decide (move = move)); [|congruence].
    destruct (findIndex (hits pos) (placedImages s)); eexists;
      (split; [reflexivity|]); split; try reflexivity; simpl;
      rewrite ?Hact; discriminate.
Qed.

Lemma hover_cursor_matches_press_witness :
  exists hovered,
    handleMouseMove origin (at_ 203 146) chairSelected = Some hovered /\
    cursor hovered = "nwse-resize" /\
    handleMouseDown origin (at_ 203 146) "unused" hovered =
      Some (setResizeHandle (Some br) (setAction resizing hovered)).
Proof.
  destruct (hover_cursor_matches_press origin (at_ 203 146) "unused"
              chairSelected O chair eq_refl eq_refl eq_refl eq_refl)
    as (hovered & Hmove & _ & _ & _ & Hover & _).
  exists hovered. split; [exact Hmove|].
  apply (Hover br). reflexivity.
Defined.

(** ** Resizing and dragging *)




(** X4.  While an image is dragged, any sequence of pointer moves is
    handled, whatever the pointer positions were; the size, identifier
    and picture of the selected image, the other images and the number
    of images are unchanged, and the drag goes on.  The position is
    changed by the movements reported by the events, added one after
    the other in doubles: when none of the sums is rounded, as with
    whole pixels, the image is left at its starting position plus the
    total of the movements, and movements that cancel out bring it
    back. *)
Theorem drag_translates (moves : list (DOMRect * MouseEvent))
    (s : EditorState) (i : nat) (img : PlacedImage)
    (Hact : action s = dragging) (Hi : selectedImageIndex s = Some i)
    (Himg : placedImages s !! i = Some img) :
  exists s' moved,
    run (map (fun m => MouseMove m.1 m.2) moves) s = Some s' /\
    placedImages s' !! i = Some moved /\
    img_width moved = img_width img /\ img_height moved = img_height img /\
    img_id moved = img_id img /\ img_image moved = img_image img /\
    (forall j, j <> i -> placedImages s' !! j = placedImages s !! j) /\
    length (placedImages s') = length (placedImages s) /\
    action s' = dragging /\ selectedImageIndex s' = Some i /\
    img_x moved = dragSum (img_x img) (List.map (fun m => movementX m.2) moves) /\
    img_y moved = dragSum (img_y img) (List.map (fun m => movementY m.2) moves) /\
    (exactSums (img_x img) (List.map (fun m => movementX m.2) moves) ->
     img_x moved == img_x img + totalMovementX moves) /\
    (exactSums (img_y img) (List.map (fun m => movementY m.2) moves) ->
     img_y moved == img_y img + totalMovementY moves) /\
    (exactSums (img_x img) (List.map (fun m => movementX m.2) moves) ->
     exactSums (img_y img) (List.map (fun m => movementY m.2) moves) ->
     totalMovementX moves == 0 -> totalMovementY moves == 0 ->
     img_x moved == img_x img /\ img_y moved == img_y img) /\
    (forall (x y : Z) (dxs dys : list Z),
        img_x img = inject_Z x -> img_y img = inject_Z y ->
        List.map (fun m => movementX m.2) moves = List.map inject_Z dxs ->
        List.map (fun m => movementY m.2) moves = List.map inject_Z dys ->
        wholeSums x dxs -> wholeSums y dys ->
        img_x moved == img_x img + totalMovementX moves /\
        img_y moved == img_y img + totalMovementY moves).
Proof.
  destruct (run_dragging_moves moves s i img Hact Hi Himg)
    as (s' & moved & Hrun & Himgs & Hx & Hy & Hw & Hh & Hid & Him & Ha & Hs).
  exists s', moved. split; [exact Hrun|]. rewrite Himgs.
  split; [apply list_lookup_insert_eq; eapply lookup_lt_Some, Himg|].
  do 4 (split; [assumption|]).
  split; [intros j Hj; apply list_lookup_insert_ne; congruence|].
  split; [apply length_insert|].
  split; [exact Ha|]. split; [exact Hs|].
  split; [exact Hx|]. split; [exact Hy|].
  assert (Hxs : exactSums (img_x img) (List.map (fun m => movementX m.2) moves) ->
                img_x moved == img_x img + totalMovementX moves).
  { intros Hexact. rewrite Hx. apply dragSum_total_x, Hexact. }
  assert (Hys : exactSums (img_y img) (List.map (fun m => movementY m.2) moves) ->
                img_y moved == img_y img + totalMovementY moves).
  { intros Hexact. rewrite Hy. apply dragSum_total_y, Hexact. }
  split; [exact Hxs|]. split; [exact Hys|]. split.
  - intros Hex Hey Hx0 Hy0. rewrite (Hxs Hex), (Hys Hey), Hx0, Hy0.
    split; ring.
  - intros x y dxs dys Ex Ey Hdxs Hdys Hwx Hwy. split.
    + apply Hxs. rewrite Ex, Hdxs. exact (wholeSums_exact dxs x Hwx).
    + apply Hys. rewrite Ey, Hdys. exact (wholeSums_exact dys y Hwy).
Qed.

Lemma drag_translates_witness :
  exists s' moved,
    run (map (fun m => MouseMove m.1 m.2) dragMoves) draggingTable = Some s' /\
    placedImages s' !! 1%nat = Some moved /\
    img_x moved == 120 /\ img_y moved == 70 /\
    placedImages s' !! O = Some chair.
Proof.
  destruct (drag_translates dragMoves draggingTable 1%nat table
              eq_refl eq_refl eq_refl)
    as (s' & moved & Hrun & Hmoved & _ & _ & _ & _ & Hothers & _ & _ & _
        & _ & _ & Hx & Hy & _ & _).
  exists s', moved. split; [exact Hrun|]. split; [exact Hmoved|].
  split; [rewrite Hx; [reflexivity|]|].
  { repeat split; vm_compute; try reflexivity; discriminate. }
  split; [rewrite Hy; [reflexivity|]|].
  { repeat split; vm_compute; try reflexivity; discriminate. }
  rewrite (Hothers O) by discriminate. reflexivity.
Defined.

(** ** Invariants *)













(** ** What the events keep *)

Lemma handleMouseDown_elements rect e uuid s s' :
  handleMouseDown rect e uuid s = Some s' -> elements s' = elements s.
Proof.
  unfold handleMouseDown. repeat case_match; intros; simplify_eq; reflexivity.
Qed.

Lemma handleMouseMove_elements rect e s s' :
  handleMouseMove rect e s = Some s' -> elements s' = elements s.
Proof.
  unfold handleMouseMove. intros Hmove.
  destruct (hoverCursor _ s) as [c|]; [simpl in Hmove | discriminate].
  repeat case_match; simplify_option_eq; reflexivity.
Qed.

Lemma handleMouseUp_elements s :
  exists added, elements (handleMouseUp s) = elements s ++ added /\
                (length added <= 1)%nat.
Proof.
  unfold handleMouseUp.
  destruct (action s), (selectedElement s) as [el|]; simpl;
    try (exists []; rewrite app_nil_r; split; [reflexivity | simpl; lia]).
  exists [el]. split; [reflexivity | simpl; lia].
Qed.

Lemma step_elements ev s s' :
  step ev s = Some s' ->
  exists added, elements s' = elements s ++ added /\
                (length added <= if isRelease ev then 1 else 0)%nat.
Proof.
  destruct ev; simpl; intros Hstep.
  all: try (injection Hstep as <-).
  all: try (exists []; rewrite app_nil_r; split; [|simpl; lia];
            eauto using handleMouseDown_elements, handleMouseMove_elements;
            fail).
  - apply handleMouseUp_elements.
  - apply (handleMouseUp_elements s).
Qed.

(** X7.  No event removes or changes a committed element: after any
    events the committed elements are the earlier ones, in the same
    order, followed by those committed since, and at most one element
    is committed for each pointer-up or pointer-leave. *)
Theorem elements_append_only (evs : list Event) (s s' : EditorState)
    (Hrun : run evs s = Some s') :
  exists added,
    elements s' = elements s ++ added /\
    (length added <= length (List.filter isRelease evs))%nat.
Proof.
  revert s Hrun. induction evs as [|ev evs IH]; intros s Hrun; simpl in *.
  - injection Hrun as <-. exists []. rewrite app_nil_r. auto.
  - destruct (step ev s) as [s1|] eqn:Hstep; [simpl in Hrun | discriminate].
    destruct (step_elements ev s s1 Hstep) as (first & Hfirst & Hlen1).
    destruct (IH s1 Hrun) as (rest & Hrest & Hlen2).
    exists (first ++ rest). rewrite Hrest, Hfirst, <- app_assoc.
    split; [reflexivity|]. rewrite length_app.
    destruct (isRelease ev); simpl in *; lia.
Qed.

Lemma elements_append_only_witness :
  run mixedSession initialState = Some afterMixedSession /\
  exists added,
    elements afterMixedSession = elements initialState ++ added /\
    (length added <= length (List.filter isRelease mixedSession))%nat.
Proof.
  assert (Hrun : run mixedSession initialState = Some afterMixedSession)
    by (vm_compute; reflexivity).
  split; [exact Hrun|].
  exact (elements_append_only mixedSession initialState afterMixedSession Hrun).
Defined.

Lemma handleMouseMove_images rect e s s' :
  handleMouseMove rect e s = Some s' ->
  placedImages s' = placedImages s \/
  exists j old new,
    placedImages s !! j = Some old /\
    placedImages s' = <[j := new]> (placedImages s) /\
    img_id new = img_id old /\ img_image new = img_image old.
Proof.
  unfold handleMouseMove. intros Hmove.
  destruct (hoverCursor _ s) as [c|]; [simpl in Hmove | discriminate].
  destruct (action s); destruct (selectedImageIndex s) as [i|];
    destruct (resizeHandle s) as [h|];
    destruct (selectedElement s) as [el|]; simpl in Hmove.
  all: try (destruct (extendPoints _ _ _) as [pts|]; simpl in Hmove;
            [|discriminate]).
  all: try (injection Hmove as <-; left; reflexivity).
  all: try (unfold dragUpdater in Hmove;
            destruct (placedImages s !! i) as [old|] eqn:Hold;
            simpl in Hmove; [|discriminate];
            injection Hmove as <-; right; eexists i, old, _;
            split; [exact Hold|]; split; [reflexivity|];
            split; reflexivity).
  all: injection Hmove as <-; cbn [placedImages setPlacedImages];
       match goal with
       | |- context [resizeUpdater ?j ?handle ?x ?y ?l] =>
           destruct (resizeUpdater_cases j handle x y l)
             as [(old & Hold & _ & ->) | ->]; [|left; reflexivity];
           right; eexists j, old, _; split; [exact Hold|];
           split; [reflexivity|]; destruct handle; split; reflexivity
       end.
Qed.

Lemma step_images ev s s' :
  step ev s = Some s' ->
  length (placedImages s') =
    (length (placedImages s) + if isFurnitureLoaded ev then 1 else 0)%nat /\
  forall i img, placedImages s !! i = Some img ->
    exists img', placedImages s' !! i = Some img' /\
                 img_id img' = img_id img /\ img_image img' = img_image img.
Proof.
  assert (Hsame : forall t : EditorState,
             placedImages t = placedImages s ->
             length (placedImages t) = (length (placedImages s) + 0)%nat /\
             forall i img, placedImages s !! i = Some img ->
               exists img', placedImages t !! i = Some img' /\
                            img_id img' = img_id img /\
                            img_image img' = img_image img).
  { intros t ->. split; [lia | eauto]. }
  destruct ev; simpl; intros Hstep.
  - apply Hsame. eapply handleMouseDown_images, Hstep.
  - apply handleMouseMove_images in Hstep
      as [Hstep | (j & old & new & Hold & -> & Hid & Him)];
      [apply Hsame, Hstep|].
    rewrite length_insert. split; [lia|]. intros i img Himg.
    destruct (decide (j = i)) as [->|Hne].
    + rewrite list_lookup_insert_eq by (eapply lookup_lt_Some, Himg).
      exists new. rewrite Himg in Hold. injection Hold as <-. auto.
    + rewrite list_lookup_insert_ne by exact Hne. eauto.
  - injection Hstep as <-. apply Hsame, handleMouseUp_images.
  - injection Hstep as <-. apply Hsame.
    change (placedImages (handleMouseLeave s))
      with (placedImages (handleMouseUp s)).
    apply handleMouseUp_images.
  - injection Hstep as <-. apply Hsame. reflexivity.
  - injection Hstep as <-. apply Hsame. reflexivity.
  - injection Hstep as <-. apply Hsame. reflexivity.
  - injection Hstep as <-. apply Hsame. reflexivity.
  - injection Hstep as <-. apply Hsame. reflexivity.
  - injection Hstep as <-. unfold addImageToCanvas.
    cbn [placedImages setPlacedImages].
    rewrite length_app. split; [simpl; lia|].
    intros k placed Hplaced. exists placed. split; [|auto].
    apply lookup_app_l_Some, Hplaced.
Qed.

(** X8.  No event removes or reorders a placed image: after any events
    every image that was placed is still at its index with the same
    identifier and the same picture, and the number of placed images has
    grown by exactly the number of furniture images loaded since. *)
Theorem placed_images_persist (evs : list Event) (s s' : EditorState)
    (Hrun : run evs s = Some s') :
  length (placedImages s') =
    (length (placedImages s) + length (List.filter isFurnitureLoaded evs))%nat /\
  forall i img, placedImages s !! i = Some img ->
    exists img', placedImages s' !! i = Some img' /\
                 img_id img' = img_id img /\ img_image img' = img_image img.
Proof.
  revert s Hrun. induction evs as [|ev evs IH]; intros s Hrun; simpl in *.
  - injection Hrun as <-. split; [lia | eauto].
  - destruct (step ev s) as [s1|] eqn:Hstep; [simpl in Hrun | discriminate].
    destruct (step_images ev s s1 Hstep) as [Hlen1 Hkeep1].
    destruct (IH s1 Hrun) as [Hlen2 Hkeep2].
    split.
    + rewrite Hlen2, Hlen1. destruct (isFurnitureLoaded ev); simpl; lia.
    + intros i img Himg.
      destruct (Hkeep1 i img Himg) as (img1 & Himg1 & Hid1 & Him1).
      destruct (Hkeep2 i img1 Himg1) as (img2 & Himg2 & Hid2 & Him2).
      exists img2. split; [exact Himg2|]. split; congruence.
Qed.

Lemma placed_images_persist_witness :
  run resizeMoves resizingScene
    = Some (default resizingScene (run resizeMoves resizingScene)) /\
  length (placedImages (default resizingScene (run resizeMoves resizingScene)))
    = 1%nat /\
  exists img',
    placedImages (default resizingScene (run resizeMoves resizingScene)) !! O
      = Some img' /\
    img_id img' = "chair" /\ img_image img' = chairPhoto.
Proof.
  assert (Hrun : run resizeMoves resizingScene
                 = Some (default resizingScene (run resizeMoves resizingScene)))
    by (vm_compute; reflexivity).
  destruct (placed_images_persist resizeMoves resizingScene _ Hrun)
    as [Hlen Hkeep].
  split; [exact Hrun|]. split; [exact Hlen|].
  exact (Hkeep O chair eq_refl).
Defined.

(** ** The frame while drawing *)

Lemma forEach_snoc {A} (f : A -> Draw) (l : list A) (a : A) (c : Ctx2D) :
  forEach f (l ++ [a]) c = f a (forEach f l c).
Proof. unfold forEach. rewrite fold_left_app. reflexivity. Qed.

(** X9.  Committing the element in progress changes nothing of what is
    painted: the repaint after pointer-leave produces the very context
    the repaint during the draw produced, and the repaint after
    pointer-up differs from it by the brush-size circle alone, which is
    drawn again once the action is [none]. *)
Theorem commit_keeps_frame (s : EditorState) (el : CanvasElement) (c : Ctx2D)
    (Hact : action s = drawing) (Hel : selectedElement s = Some el) :
  repaint (handleMouseLeave s) c = repaint s c /\
  repaint (handleMouseUp s) c = drawPreview (handleMouseUp s) (repaint s c) /\
  (mousePosition s = None \/ activeTool s = move ->
   repaint (handleMouseUp s) c = repaint s c).
Proof.
  assert (Hhidden : forall c', drawPreview s c' = c').
  { intros c'. apply drawPreview_hidden. right. right. congruence. }
  assert (Hup : repaint (handleMouseUp s) c
                = drawPreview (handleMouseUp s) (repaint s c)).
  { rewrite (repaint_unfold s), Hhidden, Hel.
    rewrite (repaint_unfold (handleMouseUp s)).
    rewrite (handleMouseUp_commits s el Hact Hel).
    cbn [selectedImageIndex selectedElement placedImages elements
         backgroundColor setResizeHandle setSelectedElement setAction
         setElements].
    rewrite forEach_snoc. reflexivity. }
  split; [|split; [exact Hup|]].
  - rewrite (repaint_unfold s), Hhidden, Hel.
    rewrite (repaint_unfold (handleMouseLeave s)).
    unfold handleMouseLeave. rewrite (handleMouseUp_commits s el Hact Hel).
    cbn [selectedImageIndex selectedElement placedImages elements
         backgroundColor setResizeHandle setSelectedElement setAction
         setElements setMousePosition].
    rewrite forEach_snoc.
    rewrite drawPreview_hidden by (left; reflexivity). reflexivity.
  - intros Hno. rewrite Hup. apply drawPreview_hidden.
    rewrite (handleMouseUp_commits s el Hact Hel).
    destruct Hno as [Hpos | Htool]; [left; exact Hpos|].
    right. left. simpl. rewrite Htool. reflexivity.
Qed.

Lemma commit_keeps_frame_witness :
  repaint (handleMouseLeave drawingScene) mountedCanvas
    = repaint drawingScene mountedCanvas /\
  content (repaint drawingScene mountedCanvas) =
    [ PFillRect "#FFFFFF" 0 0 800 600;
      PStrokePath (mkPen "#000000" 5 "round" "round")
        [MoveTo 10 10; LineTo 10 10; LineTo 20 15; LineTo 30 30] ].
Proof.
  split; [|reflexivity].
  exact (proj1 (commit_keeps_frame drawingScene strokeInProgress mountedCanvas
                  eq_refl eq_refl)).
Defined.

(** X11.  The brush-size circle shows the stroke to come: when it is
    drawn, its centre is the pointer position, it is stroked 1 wide, and
    its diameter is the line width with which an element started by a
    press at that moment is stroked (20 for the eraser, the chosen
    stroke width otherwise); except for the eraser it also has that
    element's colour. *)
Theorem preview_shows_brush (rect : DOMRect) (e : MouseEvent) (uuid : string)
    (s : EditorState) (c : Ctx2D) (pos : Point)
    (Hpos : mousePosition s = Some pos)
    (Htool : isDrawingTool (activeTool s) = true)
    (Hact : action s = none) :
  exists circle_pen radius s' el,
    content (drawPreview s c) =
      content c ++
      [PStrokePath circle_pen [ArcFull (px pos) (py pos) (RExact radius)]] /\
    pen_width circle_pen = 1 /\
    handleMouseDown rect e uuid s = Some s' /\
    selectedElement s' = Some el /\ action s' = drawing /\
    pen_width (elementPen (backgroundColor s') el) == 2 * radius /\
    (activeTool s <> eraser ->
     pen_style circle_pen = pen_style (elementPen (backgroundColor s') el)).
Proof.
  assert (Hnotmove : activeTool s <> move).
  { intros Hmove. rewrite Hmove in Htool. discriminate. }
  rewrite (drawPreview_shown s c pos Hpos Htool Hact).
  rewrite (handleMouseDown_drawing rect e uuid s Hnotmove).
  eexists _, _, _, _. split; [reflexivity|]. split; [reflexivity|].
  split; [reflexivity|]. split; [reflexivity|]. split; [reflexivity|].
  unfold elementPen. simpl.
  destruct (decide (activeTool s = eraser)); split; try contradiction;
    try reflexivity; field.
Qed.

Lemma preview_shows_brush_witness :
  exists circle_pen s' el,
    content (drawPreview brushScene mountedCanvas) =
      [PStrokePath circle_pen [ArcFull 40 40 (RExact (8 / 2))]] /\
    handleMouseDown origin (at_ 40 40) "stroke-1" brushScene = Some s' /\
    selectedElement s' = Some el /\
    pen_width (elementPen (backgroundColor s') el) == 2 * (8 / 2).
Proof.
  destruct (preview_shows_brush origin (at_ 40 40) "stroke-1" brushScene
              mountedCanvas (mkPoint 40 40) eq_refl eq_refl eq_refl)
    as (circle_pen & radius & s' & el & Hcontent & _ & Hdown & Hsel & _ & Hw & _).
  simpl in Hcontent. injection Hcontent as Hpen Hr.
  exists circle_pen, s', el.
  split; [simpl; rewrite <- Hpen; reflexivity|].
  split; [exact Hdown|]. split; [exact Hsel|].
  rewrite Hw, <- Hr. reflexivity.
Defined.

(** ** Layers *)

Lemma drawPlacedImage_overlay sel (img : PlacedImage) (k : nat) (c : Ctx2D) :
  exists l,
    content (drawPlacedImage sel img k c) = content c ++ imagePaint img :: l /\
    Forall isOverlayPaint l.
Proof.
  unfold drawPlacedImage, seqDraw.
  destruct (decide (sel = Some k)).
  - unfold drawSelection, seqDraw, forEach. simpl.
    rewrite <- !app_assoc. simpl. eexists. split; [reflexivity|].
    repeat constructor.
  - exists []. split; [reflexivity | constructor].
Qed.

Lemma forEachFrom_overlay sel (imgs : list PlacedImage) :
  forall k c, exists l,
    content (forEachFrom (drawPlacedImage sel) k imgs c) = content c ++ l /\
    Forall isOverlayPaint l /\
    forall i img, imgs !! i = Some img -> imagePaint img ∈ l.
Proof.
  induction imgs as [|first imgs IH]; intros k c; simpl.
  - exists []. rewrite app_nil_r. repeat split; [constructor|].
    intros i img Hi. discriminate.
  - unfold seqDraw.
    destruct (drawPlacedImage_overlay sel first k c) as (l1 & H1 & Hall1).
    destruct (IH (S k) (drawPlacedImage sel first k c)) as (l2 & H2 & Hall2 & Hin2).
    exists (imagePaint first :: l1 ++ l2). rewrite H2, H1, <- app_assoc.
    split; [reflexivity|]. split.
    + constructor; [exact I|]. apply Forall_app. auto.
    + intros [|i] img Hi; simpl in Hi.
      * injection Hi as ->. left.
      * right. apply elem_of_app. right. eapply Hin2, Hi.
Qed.

Lemma drawPreview_overlay (s : EditorState) : appendsOverlay (drawPreview s).
Proof.
  intros c. unfold drawPreview.
  destruct (mousePosition s) as [pos|];
    [|exists []; rewrite app_nil_r; split; [reflexivity | constructor]].
  destruct (isDrawingTool (activeTool s) && bool_decide (action s = none));
    [|exists []; rewrite app_nil_r; split; [reflexivity | constructor]].
  eexists. split; [reflexivity|]. repeat constructor.
Qed.

(** X12.  Every frame is painted in three layers: the background, then
    the committed elements in insertion order followed by the element in
    progress, then everything else.  The placed images all belong to
    that last layer, which holds nothing but images, the outline and
    handles of the selection and the brush-size circle: an image covers
    every drawing, whichever was made first. *)
Theorem images_cover_drawings (s : EditorState) (c : Ctx2D) :
  exists overlay,
    content (repaint s c) =
      backgroundPaint s (canvas_width c) (canvas_height c) ::
      drawingLayer s ++ overlay /\
    Forall isOverlayPaint overlay /\
    (forall i img, placedImages s !! i = Some img -> imagePaint img ∈ overlay) /\
    (forall el, el ∈ elements s ->
                elementPaint (backgroundColor s) el ∈ drawingLayer s).
Proof.
  rewrite repaint_unfold.
  set (drawn := match selectedElement s with
                | Some el => drawElement (backgroundColor s) el
                | None => skip
                end
                  (forEach (drawElement (backgroundColor s)) (elements s)
                     (drawBackground s (set_content [] c)))).
  assert (Hdrawn : content drawn =
                   backgroundPaint s (canvas_width c) (canvas_height c) ::
                   drawingLayer s).
  { unfold drawn, drawingLayer. rewrite map_app.
    destruct (selectedElement s) as [el|].
    - rewrite drawElement_paints. cbn [content].
      rewrite forEach_drawElement, drawBackground_content. reflexivity.
    - unfold skip. rewrite forEach_drawElement, drawBackground_content.
      simpl. rewrite app_nil_r. reflexivity. }
  destruct (forEachFrom_overlay (selectedImageIndex s) (placedImages s) O drawn)
    as (l1 & H1 & Hall1 & Hin1).
  destruct (drawPreview_overlay s
              (forEachFrom (drawPlacedImage (selectedImageIndex s)) 0
                 (placedImages s) drawn)) as (l2 & H2 & Hall2).
  exists (l1 ++ l2). rewrite H2, H1, Hdrawn. split.
  - simpl. rewrite <- !app_assoc. reflexivity.
  - split; [apply Forall_app; auto|]. split.
    + intros i img Hi. apply elem_of_app. left. eapply Hin1, Hi.
    + intros el Hin. unfold drawingLayer. apply list_elem_of_fmap.
      exists el. split; [reflexivity|]. apply elem_of_app. left. exact Hin.
Qed.

(** ** Repainting *)

(** Takes two contexts apart and identifies what [agree] says they
    share. *)
Ltac agree_contexts c c' H :=
  destruct c as [? ? ? [? ? ? ?] ? ?]; destruct c' as [? ? ? [? ? ? ?] ? ?];
  unfold agree, sameLook, sameSize in *; simpl in H;
  destruct H as [[[? ?] [? ?]] ?]; subst.

Lemma agree_drawBackground s c c' :
  agree c c' -> agree (drawBackground s c) (drawBackground s c').
Proof.
  intros H. agree_contexts c c' H. unfold drawBackground.
  destruct (backgroundImage s); simpl; auto.
Qed.

Lemma agree_drawElement bg el c c' :
  sameSize c c' -> content c = content c' ->
  agree (drawElement bg el c) (drawElement bg el c').
Proof.
  intros [Hw Hh] Hcontent. rewrite !drawElement_paints.
  unfold agree, sameLook, sameSize. simpl. rewrite Hw, Hh, Hcontent. auto.
Qed.

Lemma agree_forEach_drawElement bg els c c' :
  agree c c' -> agree (forEach (drawElement bg) els c)
                      (forEach (drawElement bg) els c').
Proof.
  unfold forEach. revert c c'. induction els as [|el els IH]; intros c c' H;
    simpl; [exact H|].
  apply IH. destruct H as [[Hsize _] Hcontent].
  apply agree_drawElement; assumption.
Qed.

Lemma agree_drawPlacedImage sel img k c c' :
  agree c c' -> agree (drawPlacedImage sel img k c) (drawPlacedImage sel img k c').
Proof.
  intros H. agree_contexts c c' H. unfold drawPlacedImage, seqDraw.
  destruct (decide (sel = Some k)); simpl; auto.
Qed.

Lemma agree_forEachFrom sel imgs :
  forall k c c',
    agree c c' ->
    agree (forEachFrom (drawPlacedImage sel) k imgs c)
          (forEachFrom (drawPlacedImage sel) k imgs c').
Proof.
  induction imgs as [|img imgs IH]; intros k c c' H; simpl; [exact H|].
  unfold seqDraw. apply IH, agree_drawPlacedImage, H.
Qed.

Lemma agree_drawPreview s c c' :
  agree c c' -> agree (drawPreview s c) (drawPreview s c').
Proof.
  intros H. agree_contexts c c' H. unfold drawPreview.
  destruct (mousePosition s); [|simpl; auto].
  destruct (isDrawingTool (activeTool s) && bool_decide (action s = none));
    simpl; auto.
Qed.

(** From the drawing layer on, two repaints of the same state go the
    same way. *)
Lemma agree_after_drawings s drawn drawn' :
  agree drawn drawn' ->
  agree (drawPreview s
           (forEachFrom (drawPlacedImage (selectedImageIndex s)) 0
              (placedImages s) drawn))
        (drawPreview s
           (forEachFrom (drawPlacedImage (selectedImageIndex s)) 0
              (placedImages s) drawn')).
Proof. intros H. apply agree_drawPreview, agree_forEachFrom, H. Qed.

Lemma repaint_agree s c c' :
  sameLook c c' -> agree (repaint s c) (repaint s c').
Proof.
  intros Hlook. rewrite !repaint_unfold. apply agree_after_drawings.
  assert (Hels : agree
            (forEach (drawElement (backgroundColor s)) (elements s)
               (drawBackground s (set_content [] c)))
            (forEach (drawElement (backgroundColor s)) (elements s)
               (drawBackground s (set_content [] c')))).
  { apply agree_forEach_drawElement, agree_drawBackground.
    split; [exact Hlook | reflexivity]. }
  destruct (selectedElement s); [|exact Hels].
  destruct Hels as [[Hsize _] Hcontent]. apply agree_drawElement; assumption.
Qed.

Lemma repaint_agree_drawn s c c' :
  sameSize c c' -> elements s <> [] \/ selectedElement s <> None ->
  agree (repaint s c) (repaint s c').
Proof.
  intros Hsize Hdrawn. rewrite !repaint_unfold. apply agree_after_drawings.
  assert (Hbg : sameSize (drawBackground s (set_content [] c))
                         (drawBackground s (set_content [] c')) /\
                content (drawBackground s (set_content [] c))
                = content (drawBackground s (set_content [] c'))).
  { destruct Hsize as [Hw Hh]. rewrite !drawBackground_content.
    unfold sameSize.
    destruct (drawBackground_size s (set_content [] c)) as [-> ->].
    destruct (drawBackground_size s (set_content [] c')) as [-> ->].
    simpl. rewrite Hw, Hh. repeat split. }
  destruct Hbg as [Hbgsize Hbgcontent].
  destruct (elements s) as [|el els] eqn:Hels.
  - destruct (selectedElement s) as [el|]; [|destruct Hdrawn; congruence].
    unfold forEach. simpl. apply agree_drawElement; assumption.
  - assert (Hdone : agree
              (forEach (drawElement (backgroundColor s)) (el :: els)
                 (drawBackground s (set_content [] c)))
              (forEach (drawElement (backgroundColor s)) (el :: els)
                 (drawBackground s (set_content [] c')))).
    { unfold forEach. simpl.
      apply (agree_forEach_drawElement (backgroundColor s) els).
      apply agree_drawElement; assumption. }
    destruct (selectedElement s); [|exact Hdone].
    destruct Hdone as [[Hsz _] Hco]. apply agree_drawElement; assumption.
Qed.

Lemma sameLook_drawPlacedImage sel img k c :
  sameLook (drawPlacedImage sel img k c) c.
Proof.
  destruct c as [? ? ? [? ? ? ?] ? ?]. unfold drawPlacedImage, seqDraw.
  destruct (decide (sel = Some k)); repeat split.
Qed.

Lemma sameLook_trans c1 c2 c3 : sameLook c1 c2 -> sameLook c2 c3 -> sameLook c1 c3.
Proof.
  unfold sameLook, sameSize. intros [[? ?] [? ?]] [[? ?] [? ?]].
  repeat split; congruence.
Qed.

Lemma sameLook_forEachFrom sel imgs :
  forall k c, sameLook (forEachFrom (drawPlacedImage sel) k imgs c) c.
Proof.
  induction imgs as [|img imgs IH]; intros k c; simpl; [repeat split|].
  unfold seqDraw. eapply sameLook_trans; [apply IH|].
  apply sameLook_drawPlacedImage.
Qed.

Lemma sameLook_drawPreview s c : sameLook (drawPreview s c) c.
Proof.
  destruct c as [? ? ? [? ? ? ?] ? ?]. unfold drawPreview.
  destruct (mousePosition s); [|repeat split].
  destruct (isDrawingTool (activeTool s) && bool_decide (action s = none));
    repeat split.
Qed.

Lemma sameLook_drawBackground s c : sameLook (drawBackground s c) c.
Proof.
  destruct c as [? ? ? [? ? ? ?] ? ?]. unfold drawBackground.
  destruct (backgroundImage s); repeat split.
Qed.

(** Without drawings a repaint leaves the line cap and join as they
    were. *)
Lemma repaint_sameLook_plain s c :
  elements s = [] -> selectedElement s = None -> sameLook (repaint s c) c.
Proof.
  intros Hels Hsel. rewrite repaint_unfold, Hels, Hsel. unfold forEach, skip.
  simpl.
  eapply sameLook_trans; [apply sameLook_drawPreview|].
  eapply sameLook_trans; [apply sameLook_forEachFrom|].
  eapply sameLook_trans; [apply sameLook_drawBackground|].
  destruct c as [? ? ? [? ? ? ?] ? ?]. repeat split.
Qed.

(** X10.  What a repaint leaves on the canvas depends on the state and,
    of the context, on the size of the canvas and on the line cap and
    line join registers only; with an element drawn, on the size only.
    In particular it does not depend on what was on the canvas before,
    and repainting a second time without a change of state leaves the
    same paints. *)
Theorem repaint_reads_little (s : EditorState) (c c' : Ctx2D) :
  content (repaint s (repaint s c)) = content (repaint s c) /\
  (sameLook c c' -> content (repaint s c) = content (repaint s c')) /\
  (sameSize c c' -> elements s <> [] \/ selectedElement s <> None ->
   content (repaint s c) = content (repaint s c')) /\
  (forall prior, content (repaint s (set_content prior c))
                 = content (repaint s c)).
Proof.
  split; [|split; [|split]].
  - destruct (elements s) as [|el els] eqn:Hels;
      [destruct (selectedElement s) as [el|] eqn:Hsel|].
    + apply repaint_agree_drawn; [apply repaint_size|].
      right. congruence.
    + apply repaint_agree, repaint_sameLook_plain; assumption.
    + apply repaint_agree_drawn; [apply repaint_size|].
      left. congruence.
  - intros Hlook. apply repaint_agree, Hlook.
  - intros Hsize Hdrawn. apply repaint_agree_drawn; assumption.
  - intros prior. apply repaint_agree.
    destruct c as [? ? ? [? ? ? ?] ? ?]. repeat split.
Qed.

Lemma repaint_reads_little_witness :
  sameSize (newCanvas 800 600) mountedCanvas /\
  content (repaint erasingScene (repaint erasingScene (newCanvas 800 600)))
    = content (repaint erasingScene (newCanvas 800 600)) /\
  content (repaint erasingScene
             (set_lineCap "square" (set_lineJoin "bevel" (newCanvas 800 600))))
    = content (repaint erasingScene mountedCanvas).
Proof.
  assert (Hsize : sameSize
            (set_lineCap "square" (set_lineJoin "bevel" (newCanvas 800 600)))
            mountedCanvas) by (split; reflexivity).
  split; [split; reflexivity|].
  destruct (repaint_reads_little erasingScene (newCanvas 800 600) mountedCanvas)
    as (Hidem & _).
  split; [exact Hidem|].
  destruct (repaint_reads_little erasingScene
              (set_lineCap "square" (set_lineJoin "bevel" (newCanvas 800 600)))
              mountedCanvas) as (_ & _ & Hdrawn & _).
  apply Hdrawn; [exact Hsize|]. left. discriminate.
Defined.

(** * Properties of the generation service *)

(** ** Strings *)

Lemma split_comma_parts_free (s : string) :
  Forall (fun part => comma_free part = true) (split_comma s).
Proof.
  induction s as [|ch rest IH]; simpl.
  - repeat constructor.
  - destruct (Ascii.eqb ch ",") eqn:E.
    + constructor; [reflexivity | exact IH].
    + destruct (split_comma rest) as [|hd more].
      * repeat constructor. simpl. rewrite E. reflexivity.
      * inversion IH; subst.
        constructor; [simpl; rewrite E; simpl; assumption | assumption].
Qed.

Lemma append_cons (ch : ascii) (a b : string) :
  String ch a +:+ b = String ch (a +:+ b).
Proof. reflexivity. Qed.

Lemma append_nil_l (b : string) : EmptyString +:+ b = b.
Proof. reflexivity. Qed.

Lemma split_comma_app (header rest : string) :
  comma_free header = true ->
  split_comma (header +:+ "," +:+ rest) = header :: split_comma rest.
Proof.
  induction header as [|ch header IH].
  - reflexivity.
  - rewrite append_cons. simpl.
    destruct (Ascii.eqb ch ","); simpl; [discriminate|].
    intros H. rewrite (IH H). reflexivity.
Qed.

Lemma prefix_app (a b : string) : String.prefix a (a +:+ b) = true.
Proof.
  induction a as [|ch a IH]; [destruct b; reflexivity|].
  rewrite append_cons. simpl.
  destruct (ascii_dec ch ch); [exact IH | contradiction].
Qed.

Lemma includes_prefix (a s : string) :
  String.prefix a s = true -> includes a s = true.
Proof. intros H. destruct s; cbn [includes]; rewrite H; reflexivity. Qed.

Lemma includes_app_r (a x s : string) :
  includes a s = true -> includes a (x +:+ s) = true.
Proof.
  intros H. induction x as [|ch x IH]; [exact H|].
  rewrite append_cons. cbn [includes].
  rewrite IH. apply orb_true_r.
Qed.

Lemma includes_app (a x y : string) : includes a (x +:+ a +:+ y) = true.
Proof. apply includes_app_r, includes_prefix, prefix_app. Qed.

Lemma append_nil_r (a : string) : a +:+ EmptyString = a.
Proof.
  induction a as [|ch a IH]; [reflexivity|].
  rewrite append_cons, IH. reflexivity.
Qed.

Lemma append_assoc (a b c : string) : (a +:+ b) +:+ c = a +:+ b +:+ c.
Proof.
  induction a as [|ch a IH]; [reflexivity|].
  rewrite !append_cons, IH. reflexivity.
Qed.

Lemma append_eq_self (a x : string) : a +:+ x = a -> x = EmptyString.
Proof.
  induction a as [|ch a IH]; [auto|].
  rewrite append_cons. intros H. injection H as H. auto.
Qed.

Lemma append_eq_nil (a b : string) :
  a +:+ b = EmptyString -> a = EmptyString /\ b = EmptyString.
Proof. destruct a; [auto | rewrite append_cons; discriminate]. Qed.

(** ** Reading a file *)

(** X13.  [fileToBase64] is rejected exactly when the reader fails.
    What it resolves with never holds a comma.  For a data URL without
    a comma it resolves with [undefined]; for one whose header holds no
    comma it resolves with what follows the header's comma up to the
    next comma, which is the whole payload when the payload has none. *)
Theorem fileToBase64_payload (f : File) :
  (fileToBase64 f = None <-> file_dataURL f = None) /\
  (forall b64, fileToBase64 f = Some (Some b64) -> comma_free b64 = true) /\
  (forall result,
      file_dataURL f = Some result ->
      (comma_free result = true -> fileToBase64 f = Some None) /\
      (forall header rest,
          comma_free header = true ->
          result = header +:+ "," +:+ rest ->
          fileToBase64 f = Some (head (split_comma rest)) /\
          (comma_free rest = true -> fileToBase64 f = Some (Some rest)))).
Proof.
  unfold fileToBase64. split_and!.
  - destruct (file_dataURL f); split; intros; congruence.
  - intros b64. destruct (file_dataURL f) as [result|]; [|discriminate].
    intros H. injection H as H.
    pose proof (split_comma_parts_free result) as Hall.
    rewrite Forall_lookup in Hall. exact (Hall _ _ H).
  - intros result ->. split.
    + intros Hfree. rewrite split_comma_free by exact Hfree. reflexivity.
    + intros header rest Hheader ->.
      rewrite split_comma_app by exact Hheader. simpl.
      split.
      * destruct (split_comma rest); reflexivity.
      * intros Hrest. rewrite split_comma_free by exact Hrest. reflexivity.
Qed.

Lemma fileToBase64_payload_witness :
  file_dataURL chairPng = Some ("data:image/png;base64" +:+ "," +:+ "iVBORw0KGgo=") /\
  fileToBase64 chairPng = Some (Some "iVBORw0KGgo=").
Proof.
  split; [reflexivity|].
  destruct (fileToBase64_payload chairPng) as (_ & _ & Hurl).
  destruct (Hurl _ eq_refl) as [_ Hheader].
  destruct (Hheader "data:image/png;base64" "iVBORw0KGgo=" eq_refl eq_refl)
    as [_ Hpayload].
  exact (Hpayload eq_refl).
Defined.

(** ** The parts of a request *)

Lemma buildContents_parts (options : GenerationOptions)
    (files : list FurnitureFile) (base64Images : list (option string)) :
  length base64Images = length files ->
  let contents := buildContents options files base64Images in
  let offset := firstFurniturePart options in
  length contents = (offset + length files + 1)%nat /\
  (truthy (opt_canvasImage options) = true ->
   contents !! 0%nat = Some (InlineData (opt_canvasImage options) "image/jpeg")) /\
  (forall i f b64,
      files !! i = Some f -> base64Images !! i = Some b64 ->
      contents !! (offset + i)%nat = Some (InlineData b64 (file_type (file f)))) /\
  contents !! (offset + length files)%nat = Some (TextPart (buildPrompt options files)) /\
  (forall i text,
      contents !! i = Some (TextPart text) -> i = (offset + length files)%nat).
Proof.
  intros Hlen contents offset. subst contents offset.
  unfold buildContents, firstFurniturePart.
  set (sketch := if truthy (opt_canvasImage options)
                 then [InlineData (opt_canvasImage options) "image/jpeg"]
                 else []).
  set (furniture := zip_with (fun b64 f => InlineData b64 (file_type (file f)))
                      base64Images files).
  assert (Hsketch : length sketch =
                    if truthy (opt_canvasImage options) then 1%nat else 0%nat)
    by (unfold sketch; destruct (truthy (opt_canvasImage options)); reflexivity).
  assert (Hfurniture : length furniture = length files)
    by (unfold furniture; rewrite length_zip_with; lia).
  rewrite <- Hsketch. split_and!.
  - rewrite !length_app, Hfurniture. simpl. lia.
  - intros Hcanvas. unfold sketch. rewrite Hcanvas. reflexivity.
  - intros i f b64 Hf Hb.
    rewrite lookup_app_r by lia.
    replace (length sketch + i - length sketch)%nat with i by lia.
    rewrite lookup_app_l by (rewrite Hfurniture; eapply lookup_lt_Some, Hf).
    unfold furniture. rewrite lookup_zip_with, Hb. simpl. rewrite Hf. reflexivity.
  - rewrite lookup_app_r by lia.
    replace (length sketch + length files - length sketch)%nat
      with (length furniture) by lia.
    rewrite lookup_app_r by lia. rewrite Nat.sub_diag. reflexivity.
  - intros i text Hpart.
    apply lookup_app_Some in Hpart as [Hpart | [Hge Hpart]].
    { unfold sketch in Hpart. destruct (truthy (opt_canvasImage options)).
      - destruct i; simpl in Hpart; [discriminate|]. discriminate.
      - discriminate. }
    apply lookup_app_Some in Hpart as [Hpart | [Hge' Hpart]].
    { unfold furniture in Hpart.
      apply lookup_zip_with_Some in Hpart as (? & ? & ? & _). discriminate. }
    rewrite Hfurniture in Hge', Hpart.
    destruct (i - length sketch - length files)%nat eqn:E; [lia|].
    simpl in Hpart. discriminate.
Qed.

Lemma readAll_Some (files : list FurnitureFile) (base64Images : list (option string)) :
  readAll files = Some base64Images ->
  length base64Images = length files /\
  forall i f, files !! i = Some f ->
    exists result,
      file_dataURL (file f) = Some result /\
      base64Images !! i = Some (split_comma result !! 1%nat).
Proof.
  unfold readAll. intros H. apply mapM_Some in H.
  split; [symmetry; eapply Forall2_length, H|].
  intros i f Hf.
  destruct (Forall2_lookup_l _ _ _ _ _ H Hf) as (b64 & Hb & Hread).
  unfold fileToBase64 in Hread.
  destruct (file_dataURL (file f)) as [result|]; [|discriminate].
  exists result. split; [reflexivity|]. congruence.
Qed.

(** X14.  Every request sent to the model was sent with a key set and
    after every file was read; all the requests of one generation have
    the same parts.  The parts are, in this order: the sketch as a JPEG
    if there is one, the payload of each uploaded file under the MIME
    type of that file, and the prompt, which is the only text part.  So
    with a sketch the picture of the file at position [i] is the part at
    position [i + 1]. *)
Theorem requests_carry_files (apiKey : option string)
    (files : list FurnitureFile) (options : GenerationOptions) (n : nat)
    (contents : list Part) :
  contents ∈ requestsSent apiKey files options n ->
  let offset := firstFurniturePart options in
  truthy apiKey = true /\
  requestsSent apiKey files options n = replicate n contents /\
  length contents = (offset + length files + 1)%nat /\
  (truthy (opt_canvasImage options) = true ->
   offset = 1%nat /\
   contents !! 0%nat = Some (InlineData (opt_canvasImage options) "image/jpeg")) /\
  (truthy (opt_canvasImage options) = false -> offset = 0%nat) /\
  (forall i f,
      files !! i = Some f ->
      exists result,
        file_dataURL (file f) = Some result /\
        contents !! (offset + i)%nat =
          Some (InlineData (split_comma result !! 1%nat) (file_type (file f)))) /\
  contents !! (offset + length files)%nat =
    Some (TextPart (buildPrompt options files)) /\
  (forall i text,
      contents !! i = Some (TextPart text) -> i = (offset + length files)%nat).
Proof.
  intros Hin offset. unfold requestsSent in *.
  destruct (truthy apiKey); [|by apply elem_of_nil in Hin].
  destruct (readAll files) as [base64Images|] eqn:Hread;
    [|by apply elem_of_nil in Hin].
  apply elem_of_replicate in Hin as [-> _].
  destruct (readAll_Some files base64Images Hread) as [Hlen Hfiles].
  destruct (buildContents_parts options files base64Images Hlen)
    as (Hlength & Hsketch & Hfurniture & Htext & Honly).
  split_and!; auto.
  - intros Hcanvas. split; [|auto].
    unfold offset, firstFurniturePart. rewrite Hcanvas. reflexivity.
  - intros Hcanvas. unfold offset, firstFurniturePart. rewrite Hcanvas.
    reflexivity.
  - intros i f Hf. destruct (Hfiles i f Hf) as (result & Hresult & Hb).
    exists result. split; [exact Hresult|]. apply Hfurniture; assumption.
Qed.

Lemma requests_carry_files_witness :
  buildContents sampleOptions sampleFiles [Some "iVBORw0KGgo="; Some "/9j/4AAQ"]
    ∈ requestsSent (Some "key") sampleFiles sampleOptions 3 /\
  buildContents sampleOptions sampleFiles [Some "iVBORw0KGgo="; Some "/9j/4AAQ"]
    !! 2%nat = Some (InlineData (Some "/9j/4AAQ") "image/jpeg").
Proof.
  assert (Hin : buildContents sampleOptions sampleFiles
                  [Some "iVBORw0KGgo="; Some "/9j/4AAQ"]
                ∈ requestsSent (Some "key") sampleFiles sampleOptions 3)
    by (apply elem_of_replicate; split; [reflexivity | lia]).
  split; [exact Hin|].
  destruct (requests_carry_files _ _ _ _ _ Hin)
    as (_ & _ & _ & _ & _ & Hfurniture & _).
  destruct (Hfurniture 1%nat (newUpload chosenTable) eq_refl)
    as (result & Hresult & Hpart).
  injection Hresult as <-. exact Hpart.
Defined.

(** ** The prompt *)

Lemma join_nil (sep : string) (lines : list string) :
  Forall (fun line => line <> EmptyString) lines ->
  join sep lines = EmptyString -> lines = [].
Proof.
  destruct lines as [|a rest]; [reflexivity|].
  intros Hall Hjoin. inversion Hall as [|? ? Ha _]; subst.
  exfalso. apply Ha. simpl in Hjoin. destruct rest; [exact Hjoin|].
  apply append_eq_nil in Hjoin as [-> _]. reflexivity.
Qed.

Lemma includes_refl (a : string) : includes a a = true.
Proof.
  apply includes_prefix. rewrite <- (append_nil_r a) at 2. apply prefix_app.
Qed.

Lemma includes_join (sep line : string) (lines : list string) :
  line ∈ lines -> includes line (join sep lines) = true.
Proof.
  induction lines as [|a rest IH]; intros Hin; [by apply elem_of_nil in Hin|].
  apply elem_of_cons in Hin as [-> | Hin]; simpl.
  - destruct rest; [apply includes_refl|].
    apply includes_prefix, prefix_app.
  - destruct rest as [|b rest]; [by apply elem_of_nil in Hin|].
    apply includes_app_r, includes_app_r, IH, Hin.
Qed.

Lemma dimensionLine_Some (i : nat) (f : FurnitureFile) :
  hasDimensions f = true ->
  exists rest,
    dimensionLine i f =
      Some (("- Furniture piece seen in image #" +:+ pretty (i + 1)%nat +:+
             ": Width ") +:+ rest).
Proof.
  intros Hdim. unfold dimensionLine. unfold hasDimensions in Hdim.
  rewrite Hdim. eexists. rewrite !append_assoc. reflexivity.
Qed.

Lemma dimensionLine_None (i : nat) (f : FurnitureFile) :
  hasDimensions f = false -> dimensionLine i f = None.
Proof.
  intros Hdim. unfold dimensionLine. unfold hasDimensions in Hdim.
  rewrite Hdim. reflexivity.
Qed.

Lemma dimensionLine_nonempty (i : nat) (f : FurnitureFile) (line : string) :
  dimensionLine i f = Some line -> line <> EmptyString.
Proof.
  unfold dimensionLine. destruct (truthy (width f) && truthy (height f));
    [|discriminate].
  intros H. injection H as <-. rewrite append_cons. discriminate.
Qed.

Lemma omap_imap_length {A B : Type} (p : A -> bool) (l : list A) :
  forall f : nat -> A -> option B,
    (forall i x, p x = true -> is_Some (f i x)) ->
    (forall i x, p x = false -> f i x = None) ->
    length (omap id (imap f l)) = length (List.filter p l).
Proof.
  induction l as [|x l IH]; intros f Hyes Hno; [reflexivity|].
  rewrite imap_cons. simpl. destruct (p x) eqn:Hp.
  - destruct (Hyes 0%nat x Hp) as [y Hy]. rewrite Hy. simpl.
    f_equal. apply IH; intros; [apply Hyes | apply Hno]; assumption.
  - rewrite (Hno 0%nat x Hp). simpl.
    apply IH; intros; [apply Hyes | apply Hno]; assumption.
Qed.

Lemma dimensionLines_length (files : list FurnitureFile) :
  length (dimensionLines files) = length (List.filter hasDimensions files).
Proof.
  apply omap_imap_length.
  - intros i f Hdim. destruct (dimensionLine_Some i f Hdim) as [rest ->]. eauto.
  - intros i f. apply dimensionLine_None.
Qed.

Lemma dimensionLines_elem (files : list FurnitureFile) (line : string) :
  line ∈ dimensionLines files <->
  exists i f, files !! i = Some f /\ dimensionLine i f = Some line.
Proof.
  unfold dimensionLines. rewrite list_elem_of_omap. split.
  - intros (o & Hin & Ho). apply elem_of_lookup_imap in Hin as (i & f & -> & Hf).
    exists i, f. split; [exact Hf | exact Ho].
  - intros (i & f & Hf & Hline). exists (Some line). split; [|reflexivity].
    apply elem_of_lookup_imap. exists i, f. split; [symmetry; exact Hline | exact Hf].
Qed.

Lemma dimensionLines_nonempty (files : list FurnitureFile) :
  Forall (fun line => line <> EmptyString) (dimensionLines files).
Proof.
  apply Forall_forall. intros line Hin.
  apply dimensionLines_elem in Hin as (i & f & _ & Hline).
  eapply dimensionLine_nonempty, Hline.
Qed.

Lemma filter_nil_Forall {A : Type} (p : A -> bool) (l : list A) :
  List.filter p l = [] <-> Forall (fun x => p x = false) l.
Proof.
  induction l as [|x l IH]; simpl.
  - split; [constructor | reflexivity].
  - destruct (p x) eqn:Hp.
    + split; [discriminate|]. intros H. inversion H; congruence.
    + rewrite IH. split; [by constructor|]. intros H. by inversion H.
Qed.

Lemma dimensionPrompt_empty (files : list FurnitureFile) :
  dimensionPrompt files = EmptyString <->
  Forall (fun f => hasDimensions f = false) files.
Proof.
  rewrite <- filter_nil_Forall.
  rewrite <- (length_zero_iff_nil (List.filter _ _)), <- dimensionLines_length,
    length_zero_iff_nil.
  unfold dimensionPrompt, dimensionDetails. split.
  - intros Hprompt. apply (join_nil newline); [apply dimensionLines_nonempty|].
    destruct (join newline (dimensionLines files)); [reflexivity|].
    rewrite append_cons in Hprompt. discriminate.
  - intros ->. reflexivity.
Qed.

Lemma dimensionPrompt_includes (files : list FurnitureFile) (line : string) :
  line ∈ dimensionLines files ->
  includes line (dimensionPrompt files) = true.
Proof.
  intros Hin. pose proof (includes_join newline line _ Hin) as Hjoin.
  unfold dimensionPrompt, dimensionDetails.
  destruct (join newline (dimensionLines files)) as [|ch details] eqn:E.
  - exact Hjoin.
  - do 4 apply includes_app_r. exact Hjoin.
Qed.

(** X15.  The dimension section of the prompt has one line for each
    file that has both a width and a height, whatever its depth, and is
    absent, leaving no heading behind, exactly when no file has both.
    The line of the file at position [i] starts by naming image
    [i + 1] and occurs in the section. *)
Theorem dimension_section (files : list FurnitureFile) :
  length (dimensionLines files) = length (List.filter hasDimensions files) /\
  (dimensionPrompt files = EmptyString <->
   Forall (fun f => hasDimensions f = false) files) /\
  (forall i f,
      files !! i = Some f -> hasDimensions f = true ->
      exists line,
        dimensionLine i f = Some line /\
        String.prefix
          ("- Furniture piece seen in image #" +:+ pretty (i + 1)%nat +:+ ": Width ")
          line = true /\
        includes line (dimensionPrompt files) = true).
Proof.
  split; [apply dimensionLines_length|].
  split; [apply dimensionPrompt_empty|].
  intros i f Hf Hdim. destruct (dimensionLine_Some i f Hdim) as [rest Hline].
  eexists. split; [exact Hline|]. split; [apply prefix_app|].
  apply dimensionPrompt_includes, dimensionLines_elem. eauto.
Qed.

Lemma truthy_Some (v : option string) :
  truthy v = true <-> exists value, v = Some value /\ value <> EmptyString.
Proof.
  destruct v as [[|ch rest]|]; simpl; split; try discriminate.
  - intros (value & H & Hne). injection H as <-. contradiction.
  - intros _. eexists. split; [reflexivity | discriminate].
  - reflexivity.
  - intros (value & H & _). discriminate.
Qed.

(** X16.  The prompt always holds the base prompt.  With a sketch it
    starts with the sentence about the sketch, and neither the room nor
    the description has any influence on it.  Without a sketch it starts
    with the base prompt, it is the base prompt alone exactly when there
    is no room, no description and no file with a width and a height,
    and a room or a description that is given occurs in its sentence. *)
Theorem prompt_composition (options : GenerationOptions)
    (files : list FurnitureFile) :
  includes BASE_RENDER_PROMPT (buildPrompt options files) = true /\
  (truthy (opt_canvasImage options) = true ->
   String.prefix sketchPreamble (buildPrompt options files) = true /\
   forall location description,
     buildPrompt
       (mkGenerationOptions location description (opt_canvasImage options)) files
     = buildPrompt options files) /\
  (truthy (opt_canvasImage options) = false ->
   String.prefix BASE_RENDER_PROMPT (buildPrompt options files) = true /\
   (buildPrompt options files = BASE_RENDER_PROMPT <->
    truthy (opt_location options) = false /\
    truthy (opt_description options) = false /\
    Forall (fun f => hasDimensions f = false) files) /\
   (forall room,
       opt_location options = Some room -> room <> EmptyString ->
       includes (" The room should be a " +:+ room +:+ ".")
         (buildPrompt options files) = true) /\
   (forall details,
       opt_description options = Some details -> details <> EmptyString ->
       includes (" Additional details: " +:+ details +:+ ".")
         (buildPrompt options files) = true)).
Proof.
  unfold buildPrompt. split_and!.
  - destruct (truthy (opt_canvasImage options)).
    + apply includes_app.
    + apply includes_prefix, prefix_app.
  - intros Hcanvas. cbn [opt_canvasImage]. rewrite Hcanvas.
    split; [apply prefix_app | reflexivity].
  - intros Hcanvas. rewrite Hcanvas. split_and!.
    + apply prefix_app.
    + rewrite <- dimensionPrompt_empty. split.
      * intros Hprompt. apply append_eq_self in Hprompt.
        apply append_eq_nil in Hprompt as [Hroom Hprompt].
        apply append_eq_nil in Hprompt as [Hdetails Hdimensions].
        split_and!; [| |exact Hdimensions].
        -- destruct (truthy (opt_location options)); [|reflexivity].
           rewrite append_cons in Hroom. discriminate.
        -- destruct (truthy (opt_description options)); [|reflexivity].
           rewrite append_cons in Hdetails. discriminate.
      * intros (-> & -> & ->). rewrite !append_nil_l. apply append_nil_r.
    + intros room Hroom Hne.
      assert (Htruthy : truthy (opt_location options) = true)
        by (apply truthy_Some; eauto).
      rewrite Htruthy, Hroom. apply includes_app.
    + intros details Hdetails Hne.
      assert (Htruthy : truthy (opt_description options) = true)
        by (apply truthy_Some; eauto).
      rewrite Htruthy, Hdetails.
      rewrite <- (append_assoc BASE_RENDER_PROMPT). apply includes_app.
Qed.

(** ** Reading the responses *)

Lemma collectCandidates_all (msg : string) (cs : list Candidate) :
  forall acc,
    Forall (fun c => is_Some (cand_parts c)) cs ->
    collectCandidates msg cs acc = inr (acc ++ omap candidateImage cs).
Proof.
  induction cs as [|c cs IH]; intros acc Hall; simpl.
  - rewrite app_nil_r. reflexivity.
  - inversion Hall as [|? ? [parts Hparts] Hrest]; subst.
    unfold candidateImage at 1. rewrite Hparts.
    rewrite (IH _ Hrest). destruct (firstImage parts).
    + rewrite <- app_assoc. reflexivity.
    + reflexivity.
Qed.

Lemma collectCandidates_missing (msg : string) (cs : list Candidate) :
  forall acc,
    Exists (fun c => cand_parts c = None) cs ->
    collectCandidates msg cs acc = inl (ErrorWith msg).
Proof.
  induction cs as [|c cs IH]; intros acc Hex; [inversion Hex|].
  simpl. destruct (cand_parts c) as [parts|] eqn:Hparts; [|reflexivity].
  apply IH. inversion Hex; [congruence | assumption].
Qed.

Lemma parts_present_or_missing (cs : list Candidate) :
  Forall (fun c => is_Some (cand_parts c)) cs \/
  Exists (fun c => cand_parts c = None) cs.
Proof.
  induction cs as [|c cs [IH|IH]]; [left; constructor| |right; by constructor].
  destruct (cand_parts c) eqn:E.
  - left. constructor; [rewrite E; eauto | exact IH].
  - right. by constructor.
Qed.

Lemma allCandidates_cons (r : Response) (rs : list Response) :
  allCandidates (r :: rs) = default [] (candidates r) ++ allCandidates rs.
Proof. reflexivity. Qed.

Lemma collectImages_cons (msg : string) (r : Response) (rs : list Response)
    (acc : list string) :
  collectImages msg (r :: rs) acc =
  match collectCandidates msg (default [] (candidates r)) acc with
  | inr acc' => collectImages msg rs acc'
  | inl thrown => inl thrown
  end.
Proof. destruct r as [[[|c cs]|]]; reflexivity. Qed.

Lemma collectImages_all (msg : string) (rs : list Response) :
  forall acc,
    Forall (fun c => is_Some (cand_parts c)) (allCandidates rs) ->
    collectImages msg rs acc = inr (acc ++ omap candidateImage (allCandidates rs)).
Proof.
  induction rs as [|r rs IH]; intros acc Hall.
  - simpl. rewrite app_nil_r. reflexivity.
  - rewrite allCandidates_cons in *. apply Forall_app in Hall as [Hhere Hrest].
    rewrite collectImages_cons, (collectCandidates_all msg _ acc Hhere).
    rewrite (IH _ Hrest), omap_app, <- app_assoc. reflexivity.
Qed.

Lemma collectImages_missing (msg : string) (rs : list Response) :
  forall acc,
    Exists (fun c => cand_parts c = None) (allCandidates rs) ->
    collectImages msg rs acc = inl (ErrorWith msg).
Proof.
  induction rs as [|r rs IH]; intros acc Hex; [inversion Hex|].
  rewrite allCandidates_cons in Hex. apply Exists_app in Hex.
  rewrite collectImages_cons.
  destruct (parts_present_or_missing (default [] (candidates r))) as [Hall|Hmiss].
  - rewrite (collectCandidates_all msg _ acc Hall).
    destruct Hex as [Hex|Hex]; [|apply IH, Hex].
    exfalso. apply Exists_exists in Hex as (c' & Hin & Hnone).
    rewrite Forall_forall in Hall. destruct (Hall c' Hin). congruence.
  - rewrite (collectCandidates_missing msg _ acc Hmiss). reflexivity.
Qed.

Lemma firstImage_dataURL (parts : list ResponsePart) (url : string) :
  firstImage parts = Some url -> String.prefix "data:" url = true.
Proof.
  induction parts as [|part parts IH]; simpl; [discriminate|].
  destruct (inlineData part); [|exact IH].
  intros H. injection H as <-. apply prefix_app.
Qed.

Lemma omap_length_le {A B : Type} (f : A -> option B) (l : list A) :
  (length (omap f l) <= length l)%nat.
Proof.
  induction l as [|x l IH]; [simpl; lia|].
  change (omap f (x :: l))
    with (match f x with Some y => y :: omap f l | None => omap f l end).
  destruct (f x); simpl; lia.
Qed.

Lemma collectImages_dataURLs (msg : string) (responses : list Response)
    (images : list string) :
  collectImages msg responses [] = inr images ->
  images = omap candidateImage (allCandidates responses) /\
  Forall (fun url => String.prefix "data:" url = true) images.
Proof.
  intros Himages.
  destruct (parts_present_or_missing (allCandidates responses)) as [Hall|Hmiss].
  - rewrite (collectImages_all msg responses [] Hall) in Himages.
    injection Himages as <-. simpl. split; [reflexivity|].
    apply Forall_forall. intros url Hin.
    apply list_elem_of_omap in Hin as (c & _ & Hc).
    unfold candidateImage in Hc. destruct (cand_parts c); [|discriminate].
    eapply firstImage_dataURL, Hc.
  - rewrite (collectImages_missing msg responses [] Hmiss) in Himages.
    discriminate.
Qed.

(** X17.  When every candidate of every response has parts, the
    pictures collected are, in the order of the responses and of their
    candidates, the first inline picture of each candidate that has
    one; a response without candidates gives none.  When some candidate
    has no parts the loop raises instead.  So there is at most one
    picture per candidate, and each one is a data URL. *)
Theorem images_one_per_candidate (msg : string) (responses : list Response) :
  (Forall (fun c => is_Some (cand_parts c)) (allCandidates responses) ->
   collectImages msg responses [] =
     inr (omap candidateImage (allCandidates responses))) /\
  (Exists (fun c => cand_parts c = None) (allCandidates responses) ->
   collectImages msg responses [] = inl (ErrorWith msg)) /\
  (forall images,
      collectImages msg responses [] = inr images ->
      (length images <= length (allCandidates responses))%nat /\
      Forall (fun url => String.prefix "data:" url = true) images).
Proof.
  split_and!.
  - intros Hall. apply (collectImages_all msg responses [] Hall).
  - apply collectImages_missing.
  - intros images Himages.
    destruct (collectImages_dataURLs msg responses images Himages) as [-> Hall].
    split; [apply omap_length_le | exact Hall].
Qed.

Lemma images_one_per_candidate_witness :
  Forall (fun c => is_Some (cand_parts c)) (allCandidates sampleResponses) /\
  collectImages "undefined is not iterable" sampleResponses [] =
    inr ["data:image/png;base64,AAAA"; "data:image/png;base64,CCCC"].
Proof.
  assert (Hall : Forall (fun c => is_Some (cand_parts c))
                   (allCandidates sampleResponses))
    by (repeat constructor; simpl; eauto).
  split; [exact Hall|].
  destruct (images_one_per_candidate "undefined is not iterable" sampleResponses)
    as [Hcollected _].
  exact (Hcollected Hall).
Defined.

(** ** How a generation ends *)

Lemma rethrow_cases (error : Thrown) :
  rethrow error = Raised MSG_INVALID \/ rethrow error = Raised MSG_FAILED.
Proof.
  destruct error as [message|]; simpl; [|auto].
  destruct (includes "400" message); auto.
Qed.

Lemma generateRenderings_cases (msg : string) (apiKey : option string)
    (files : list FurnitureFile) (options : GenerationOptions) (n : nat)
    (responses : Thrown + list Response) :
  (truthy apiKey = false /\
   generateRenderings msg apiKey files options n responses = Raised MSG_NO_KEY) \/
  (truthy apiKey = true /\
   (generateRenderings msg apiKey files options n responses = Raised MSG_INVALID \/
    generateRenderings msg apiKey files options n responses = Raised MSG_FAILED)) \/
  (truthy apiKey = true /\ is_Some (readAll files) /\
   exists received image images,
     responses = inr received /\
     collectImages msg received [] = inr (image :: images) /\
     generateRenderings msg apiKey files options n responses
       = Returned (image :: images)).
Proof.
  unfold generateRenderings. destruct (truthy apiKey); [|auto].
  right. destruct (readAll files) as [base64Images|];
    [|left; split; [reflexivity | apply rethrow_cases]].
  destruct responses as [thrown|received];
    [left; split; [reflexivity | apply rethrow_cases]|].
  destruct (collectImages msg received []) as [thrown|[|image images]] eqn:E.
  - left. split; [reflexivity | apply rethrow_cases].
  - left. split; [reflexivity | apply rethrow_cases].
  - right. split_and!; eauto 10.
Qed.

(** X18.  A generation that returns gives at least one picture, and
    they are the pictures collected from the responses; it returns only
    with a key set and every file read.  One that raises does so with
    one of three messages: that of the missing key exactly when no key
    is set, and otherwise that of an invalid request or the general
    one.  A file that cannot be read and responses without any picture
    both end in the general message, the message about the model
    returning no pictures being replaced on the way out; a failed
    request gives the message of an invalid request exactly when its
    own message holds [400]. *)
Theorem generation_outcomes (msg : string) (apiKey : option string)
    (files : list FurnitureFile) (options : GenerationOptions) (n : nat)
    (responses : Thrown + list Response) :
  let outcome := generateRenderings msg apiKey files options n responses in
  (forall images,
      outcome = Returned images ->
      images <> [] /\ truthy apiKey = true /\ is_Some (readAll files) /\
      exists received,
        responses = inr received /\
        collectImages msg received [] = inr images) /\
  (forall message,
      outcome = Raised message ->
      message <> MSG_NO_IMAGES /\
      (message = MSG_NO_KEY \/ message = MSG_INVALID \/ message = MSG_FAILED)) /\
  (outcome = Raised MSG_NO_KEY <-> truthy apiKey = false) /\
  (truthy apiKey = true -> readAll files = None ->
   outcome = Raised MSG_FAILED) /\
  (truthy apiKey = true -> is_Some (readAll files) ->
   forall received,
     responses = inr received ->
     collectImages msg received [] = inr [] ->
     outcome = Raised MSG_FAILED) /\
  (truthy apiKey = true -> is_Some (readAll files) ->
   forall message,
     responses = inl (ErrorWith message) ->
     outcome = Raised (if includes "400" message then MSG_INVALID else MSG_FAILED)).
Proof.
  intros outcome.
  pose proof (generateRenderings_cases msg apiKey files options n responses)
    as Hcases. fold outcome in Hcases.
  split_and!.
  - intros images Hout.
    destruct Hcases as [[_ H]|[[_ [H|H]]|(Hkey & Hread & received & image & rest
                                           & Hresp & Hcollect & H)]];
      rewrite H in Hout; try discriminate.
    injection Hout as <-. split_and!; [discriminate | assumption | assumption |].
    exists received. auto.
  - intros message Hout.
    destruct Hcases as [[_ H]|[[_ [H|H]]|(_ & _ & ? & ? & ? & _ & _ & H)]];
      rewrite H in Hout; try discriminate;
      injection Hout as <-; (split; [discriminate | auto]).
  - split.
    + intros Hout.
      destruct Hcases as [[Hkey _]|[[_ [H|H]]|(_ & _ & ? & ? & ? & _ & _ & H)]];
        [assumption | | |]; rewrite H in Hout; discriminate.
    + intros Hkey.
      destruct Hcases as [[_ H]|[[Hkey' _]|[Hkey' _]]]; [exact H | |]; congruence.
  - intros Hkey Hread. unfold outcome, generateRenderings.
    rewrite Hkey, Hread. reflexivity.
  - intros Hkey [base64Images Hread] received -> Hcollect.
    unfold outcome, generateRenderings. rewrite Hkey, Hread, Hcollect.
    reflexivity.
  - intros Hkey [base64Images Hread] message ->.
    unfold outcome, generateRenderings. rewrite Hkey, Hread.
    unfold rethrow. destruct (includes "400" message); reflexivity.
Qed.

Lemma generation_outcomes_witness :
  exists images,
    generateRenderings "undefined is not iterable" (Some "key") sampleFiles
      sampleOptions 3 (inr sampleResponses) = Returned images /\
    images <> [] /\
    collectImages "undefined is not iterable" sampleResponses [] = inr images.
Proof.
  eexists. split; [vm_compute; reflexivity|].
  destruct (generation_outcomes "undefined is not iterable" (Some "key")
              sampleFiles sampleOptions 3 (inr sampleResponses)) as [Hreturned _].
  destruct (Hreturned _ ltac:(vm_compute; reflexivity))
    as (Hne & _ & _ & received & Hreceived & Hcollect).
  injection Hreceived as <-. split; [exact Hne | exact Hcollect].
Defined.

(** * Properties of the application *)

(** ** The carousel *)

Lemma nextIndex_cases (len : nat) (i : Z) :
  (0 <= i < Z.of_nat len)%Z ->
  nextIndex len i = (if (i =? Z.of_nat len - 1)%Z then 0 else i + 1)%Z.
Proof.
  intros Hi. unfold nextIndex.
  destruct (Z.eqb_spec i (Z.of_nat len - 1)) as [->|Hne].
  - replace (Z.of_nat len - 1 + 1)%Z with (Z.of_nat len) by lia.
    apply Z.rem_same. lia.
  - apply Z.rem_small. lia.
Qed.

Lemma previousIndex_cases (len : nat) (i : Z) :
  (0 <= i < Z.of_nat len)%Z ->
  previousIndex len i = (if (i =? 0)%Z then Z.of_nat len - 1 else i - 1)%Z.
Proof.
  intros Hi. unfold previousIndex.
  destruct (Z.eqb_spec i 0) as [->|Hne].
  - replace (0 - 1 + Z.of_nat len)%Z with (Z.of_nat len - 1)%Z by lia.
    apply Z.rem_small. lia.
  - rewrite Z.rem_mod_nonneg by lia.
    replace (i - 1 + Z.of_nat len)%Z with (i - 1 + 1 * Z.of_nat len)%Z by lia.
    rewrite Z.mod_add by lia. apply Z.mod_small. lia.
Qed.

(** X19.  On an index that points into the generated pictures the two
    arrows stay inside, undo each other, and wrap around: the next
    picture after the last one is the first, the previous one before
    the first is the last. *)
Theorem carousel_wraps (len : nat) (i : Z) :
  (0 <= i < Z.of_nat len)%Z ->
  (0 <= nextIndex len i < Z.of_nat len)%Z /\
  (0 <= previousIndex len i < Z.of_nat len)%Z /\
  previousIndex len (nextIndex len i) = i /\
  nextIndex len (previousIndex len i) = i /\
  nextIndex len i = (if (i =? Z.of_nat len - 1)%Z then 0 else i + 1)%Z /\
  previousIndex len i = (if (i =? 0)%Z then Z.of_nat len - 1 else i - 1)%Z.
Proof.
  intros Hi.
  assert (Hnext : (0 <= nextIndex len i < Z.of_nat len)%Z).
  { rewrite nextIndex_cases by exact Hi.
    destruct (Z.eqb_spec i (Z.of_nat len - 1)); lia. }
  assert (Hprev : (0 <= previousIndex len i < Z.of_nat len)%Z).
  { rewrite previousIndex_cases by exact Hi. destruct (Z.eqb_spec i 0); lia. }
  split_and!; try lia.
  - rewrite previousIndex_cases by exact Hnext.
    rewrite nextIndex_cases by exact Hi.
    destruct (Z.eqb_spec i (Z.of_nat len - 1)); simpl; [lia|].
    destruct (Z.eqb_spec (i + 1) 0); lia.
  - rewrite nextIndex_cases by exact Hprev.
    rewrite previousIndex_cases by exact Hi.
    destruct (Z.eqb_spec i 0).
    + rewrite Z.eqb_refl. lia.
    + destruct (Z.eqb_spec (i - 1) (Z.of_nat len - 1)); lia.
  - apply nextIndex_cases, Hi.
  - apply previousIndex_cases, Hi.
Qed.

Lemma carousel_wraps_witness :
  (0 <= 2 < Z.of_nat 3)%Z /\ nextIndex 3 2 = 0%Z /\ previousIndex 3 0 = 2%Z.
Proof.
  split; [lia|].
  destruct (carousel_wraps 3 2 ltac:(lia)) as (_ & _ & _ & _ & Hnext & _).
  destruct (carousel_wraps 3 0 ltac:(lia)) as (_ & _ & _ & _ & _ & Hprev).
  split; [exact Hnext | exact Hprev].
Defined.

(** ** What the application keeps true *)

Lemma prefix_nonempty (url : string) :
  String.prefix "data:" url = true -> exists ch rest, url = String ch rest.
Proof. destruct url; [discriminate | eauto]. Qed.

Lemma appInvariant_initial : appInvariant initialMachine.
Proof.
  unfold appInvariant. simpl. split_and!; done.
Qed.

Lemma handleGenerate_settle_invariant (outcome : Outcome) (r : Request)
    (s : AppState) :
  appInvariant (mkApp s (Some r)) ->
  (forall images, outcome = Returned images ->
     images <> [] /\ Forall (fun url => String.prefix "data:" url = true) images) ->
  (forall message, outcome = Raised message -> knownMessage message) ->
  appInvariant (mkApp (handleGenerate_settle outcome s) None).
Proof.
  intros (Hload & Hidle & _ & _ & _) Hreturned Hraised.
  simpl in Hload, Hidle.
  destruct Hidle as [Himages Herror]; [apply Hload; eauto|].
  unfold appInvariant. destruct outcome as [images|message]; simpl.
  - destruct (Hreturned images eq_refl) as [Hne Hall].
    split_and!; try done.
    + intros _. split; [exact Herror|].
      destruct images; [contradiction | simpl; lia].
    + rewrite Herror. discriminate.
  - rewrite Himages. split_and!; try done.
    intros m Hm. injection Hm as <-. apply Hraised. reflexivity.
Qed.

Lemma performRequest_outcome (msg : string) (apiKey : option string)
    (r : Request) (responses : Thrown + list Response) :
  (forall images,
      performRequest msg apiKey r responses = Returned images ->
      images <> [] /\ Forall (fun url => String.prefix "data:" url = true) images) /\
  (forall message,
      performRequest msg apiKey r responses = Raised message ->
      knownMessage message).
Proof.
  unfold performRequest, knownMessage.
  destruct (generateRenderings_cases msg apiKey (req_files r) (req_options r)
              (req_numImages r) responses)
    as [[_ H]|[[_ [H|H]]|(_ & _ & received & image & images & _ & Hcollect & H)]];
    rewrite H; split; intros ? Hout; try discriminate;
    injection Hout as <-; auto.
  split; [discriminate|].
  eapply collectImages_dataURLs, Hcollect.
Qed.

Lemma updateApp_invariant (f : AppState -> AppState) (a a' : App) :
  appInvariant a ->
  generatedImages (f (app_state a)) = generatedImages (app_state a) ->
  isLoading (f (app_state a)) = isLoading (app_state a) ->
  error (f (app_state a)) = error (app_state a) ->
  activeImageIndex (f (app_state a)) = activeImageIndex (app_state a) ->
  updateApp f a = Some a' ->
  appInvariant a'.
Proof.
  intros Hinv Himages Hload Herror Hindex Hstep.
  injection Hstep as <-. unfold appInvariant in *. simpl.
  rewrite Himages, Hload, Herror, Hindex. exact Hinv.
Qed.

Lemma setActiveImageIndex_invariant (i : Z) (a a' : App) :
  appInvariant a ->
  (0 <= i < Z.of_nat (length (generatedImages (app_state a))))%Z ->
  updateApp (setActiveImageIndex i) a = Some a' ->
  appInvariant a'.
Proof.
  intros (Hload & Hidle & Hshown & Hurls & Hmsg) Hi Hstep.
  injection Hstep as <-. unfold appInvariant. simpl.
  split_and!; try assumption.
  intros Hne. split; [apply Hshown, Hne | exact Hi].
Qed.

Lemma carouselShown_index (a : App) :
  appInvariant a ->
  carouselShown (app_state a) = true ->
  (0 <= activeImageIndex (app_state a)
     < Z.of_nat (length (generatedImages (app_state a))))%Z.
Proof.
  intros (_ & _ & Hshown & _) Hcarousel. apply Hshown.
  unfold carouselShown, resultsShown in Hcarousel.
  destruct (generatedImages (app_state a)); [|discriminate].
  rewrite andb_false_r in Hcarousel. discriminate.
Qed.

Ltac control_on_page H :=
  match type of H with
  | (if ?shown then _ else _) = _ => destruct shown; [|discriminate]
  end.

Lemma appStep_invariant (jpegBase64 : Q -> Q -> list Paint -> string)
    (msg : string) (apiKey : option string) (e : AppEvent) (a a' : App) :
  appInvariant a ->
  appStep jpegBase64 msg apiKey e a = Some a' ->
  appInvariant a'.
Proof.
  intros Hinv Hstep. destruct e; simpl in Hstep.
  - eapply updateApp_invariant; [exact Hinv | | | | | exact Hstep];
      destruct files; reflexivity.
  - control_on_page Hstep.
    eapply updateApp_invariant; [exact Hinv | | | | | exact Hstep]; reflexivity.
  - control_on_page Hstep.
    eapply updateApp_invariant; [exact Hinv | | | | | exact Hstep]; reflexivity.
  - control_on_page Hstep.
    eapply updateApp_invariant; [exact Hinv | | | | | exact Hstep]; reflexivity.
  - control_on_page Hstep.
    eapply updateApp_invariant; [exact Hinv | | | | | exact Hstep]; reflexivity.
  - control_on_page Hstep.
    eapply updateApp_invariant; [exact Hinv | | | | | exact Hstep]; reflexivity.
  - control_on_page Hstep.
    eapply updateApp_invariant; [exact Hinv | | | | | exact Hstep]; reflexivity.
  - control_on_page Hstep.
    eapply updateApp_invariant; [exact Hinv | | | | | exact Hstep]; reflexivity.
  - unfold generateEnabled, generateRequest, handleGenerate_begin in Hstep.
    destruct (uploadedFiles (app_state a)) as [|f fs];
      [rewrite andb_false_r in Hstep; discriminate|].
    destruct (negb (isLoading (app_state a))); [|discriminate].
    injection Hstep as <-. unfold appInvariant. simpl.
    split_and!; done.
  - destruct a as [s [r|]]; simpl in Hstep; [|discriminate].
    injection Hstep as <-.
    destruct (performRequest_outcome msg apiKey r responses) as [Hret Hraised].
    apply (handleGenerate_settle_invariant _ r); assumption.
  - destruct (carouselShown (app_state a)) eqn:Hshown; [|discriminate].
    pose proof (carouselShown_index a Hinv Hshown) as Hi.
    eapply setActiveImageIndex_invariant; [exact Hinv | | exact Hstep].
    rewrite previousIndex_cases by exact Hi.
    destruct (Z.eqb_spec (activeImageIndex (app_state a)) 0); lia.
  - destruct (carouselShown (app_state a)) eqn:Hshown; [|discriminate].
    pose proof (carouselShown_index a Hinv Hshown) as Hi.
    eapply setActiveImageIndex_invariant; [exact Hinv | | exact Hstep].
    rewrite nextIndex_cases by exact Hi.
    destruct (Z.eqb_spec (activeImageIndex (app_state a))
                (Z.of_nat (length (generatedImages (app_state a))) - 1)); lia.
  - destruct (carouselShown (app_state a)
              && (index <? length (generatedImages (app_state a)))%nat)
      eqn:Hshown; [|discriminate].
    apply andb_true_iff in Hshown as [_ Hlt]. apply Nat.ltb_lt in Hlt.
    eapply setActiveImageIndex_invariant; [exact Hinv | | exact Hstep]. lia.
Qed.

Lemma appRun_invariant (jpegBase64 : Q -> Q -> list Paint -> string)
    (msg : string) (apiKey : option string) (evs : list AppEvent) :
  forall a a',
    appInvariant a ->
    appRun jpegBase64 msg apiKey evs a = Some a' ->
    appInvariant a'.
Proof.
  induction evs as [|e evs IH]; intros a a' Hinv Hrun; simpl in Hrun.
  - injection Hrun as <-. exact Hinv.
  - destruct (appStep jpegBase64 msg apiKey e a) as [a1|] eqn:Hstep;
      [|discriminate].
    eapply IH; [|exact Hrun]. eapply appStep_invariant; eassumption.
Qed.

(** X20.  Whenever the results section is on the page, whatever
    happened before, the active index points at one of the generated
    pictures, that picture is a data URL, the download link is made for
    it and named after its position counted from one, no error is
    displayed and no generation is awaited. *)
Theorem shown_results_exist (jpegBase64 : Q -> Q -> list Paint -> string)
    (msg : string) (apiKey : option string) (evs : list AppEvent) (a : App) :
  appRun jpegBase64 msg apiKey evs initialMachine = Some a ->
  resultsShown (app_state a) = true ->
  exists image,
    activeImage (app_state a) = Some image /\
    String.prefix "data:" image = true /\
    handleDownload (app_state a) =
      Some (image,
            "interior-design-" +:+
            pretty (activeImageIndex (app_state a) + 1)%Z +:+ ".png") /\
    error (app_state a) = None /\
    in_flight a = None.
Proof.
  intros Hrun Hshown.
  destruct (appRun_invariant _ _ _ _ _ _ appInvariant_initial Hrun)
    as (Hload & _ & Hresults & Hurls & _).
  unfold resultsShown in Hshown. apply andb_true_iff in Hshown as [Hidle Hsome].
  apply negb_true_iff in Hidle.
  destruct Hresults as [Herror Hindex];
    [destruct (generatedImages (app_state a)); [discriminate | done]|].
  destruct (lookup_lt_is_Some_2 (generatedImages (app_state a))
              (Z.to_nat (activeImageIndex (app_state a)))) as [image Himage];
    [lia|].
  assert (Hactive : activeImage (app_state a) = Some image).
  { unfold activeImage.
    destruct (Z.ltb_spec (activeImageIndex (app_state a)) 0); [lia|].
    exact Himage. }
  assert (Hurl : String.prefix "data:" image = true)
    by (rewrite Forall_lookup in Hurls; eapply Hurls, Himage).
  exists image. split_and!; try assumption.
  - unfold handleDownload. rewrite Hactive.
    destruct (prefix_nonempty image Hurl) as (ch & rest & ->). reflexivity.
  - destruct (in_flight a) eqn:E; [|reflexivity].
    destruct Hload as [_ Hload]. rewrite Hload in Hidle by eauto. discriminate.
Qed.

Lemma shown_results_exist_witness :
  appRun sampleEncoder "undefined is not iterable" (Some "key")
    sampleSession initialMachine = Some afterSampleSession /\
  resultsShown (app_state afterSampleSession) = true /\
  exists image,
    activeImage (app_state afterSampleSession) = Some image /\
    String.prefix "data:" image = true.
Proof.
  assert (Hrun : appRun sampleEncoder "undefined is not iterable" (Some "key")
                   sampleSession initialMachine = Some afterSampleSession)
    by (vm_compute; reflexivity).
  assert (Hshown : resultsShown (app_state afterSampleSession) = true)
    by (vm_compute; reflexivity).
  split; [exact Hrun|]. split; [exact Hshown|].
  destruct (shown_results_exist _ _ _ _ _ Hrun Hshown)
    as (image & Hactive & Hurl & _).
  exists image. split; assumption.
Defined.

(** X21.  Whatever happened before: a generation is awaited exactly
    while the loading flag is set, and then neither pictures nor an
    error are held; an error and pictures are never held together; and
    the error held is one of the three messages of the service, never
    the message about missing uploads, the one about an unknown error or
    the one about the model returning no pictures. *)
Theorem error_or_results (jpegBase64 : Q -> Q -> list Paint -> string)
    (msg : string) (apiKey : option string) (evs : list AppEvent) (a : App) :
  appRun jpegBase64 msg apiKey evs initialMachine = Some a ->
  (isLoading (app_state a) = true <-> is_Some (in_flight a)) /\
  (isLoading (app_state a) = true ->
   generatedImages (app_state a) = [] /\ error (app_state a) = None) /\
  (error (app_state a) = None \/ generatedImages (app_state a) = []) /\
  (forall message,
      error (app_state a) = Some message ->
      (message = MSG_NO_KEY \/ message = MSG_INVALID \/ message = MSG_FAILED) /\
      message <> MSG_NO_FILES /\ message <> MSG_UNKNOWN /\
      message <> MSG_NO_IMAGES).
Proof.
  intros Hrun.
  destruct (appRun_invariant _ _ _ _ _ _ appInvariant_initial Hrun)
    as (Hload & Hidle & Hresults & _ & Hmsg).
  split_and!; try assumption.
  - destruct (generatedImages (app_state a)) eqn:E; [auto|].
    left. apply Hresults. discriminate.
  - intros message Hmessage.
    destruct (Hmsg message Hmessage) as [-> | [-> | ->]];
      (split; [unfold knownMessage; auto | split_and!; discriminate]).
Qed.

Lemma error_or_results_witness :
  appRun sampleEncoder "undefined is not iterable" None
    failedSession initialMachine = Some afterFailedSession /\
  error (app_state afterFailedSession) = Some MSG_NO_KEY /\
  generatedImages (app_state afterFailedSession) = [].
Proof.
  assert (Hrun : appRun sampleEncoder "undefined is not iterable" None
                   failedSession initialMachine = Some afterFailedSession)
    by (vm_compute; reflexivity).
  split; [exact Hrun|]. split; [vm_compute; reflexivity|].
  destruct (error_or_results _ _ _ _ _ Hrun) as (_ & _ & [Herror|Himages] & _).
  - vm_compute in Herror. discriminate.
  - exact Himages.
Defined.

(** ** Uploads *)

Lemma setUploadedFiles_same (s : AppState) :
  setUploadedFiles (uploadedFiles s) s = s.
Proof. destruct s. reflexivity. Qed.

Lemma filter_keep_all {A : Type} (p : A -> bool) (l : list A) :
  Forall (fun x => p x = true) l -> List.filter p l = l.
Proof.
  induction 1 as [|x l Hx _ IH]; simpl; [reflexivity|].
  rewrite Hx, IH. reflexivity.
Qed.

Lemma filter_sublist_of {A : Type} (p : A -> bool) (l : list A) :
  sublist (List.filter p l) l.
Proof.
  induction l as [|x l IH]; simpl; [constructor|].
  destruct (p x); by constructor.
Qed.

Lemma other_id (id : string) (f : FurnitureFile) :
  negb (String.eqb (fileId f) id) = true <-> fileId f <> id.
Proof. rewrite negb_true_iff. apply String.eqb_neq. Qed.

(** X22.  Removing by id removes every upload with that id and nothing
    else: the uploads that remain are the others, in their order, and
    nothing but the list of uploads changes.  Removing an id that no
    upload has changes nothing; so removing a file just chosen, whose
    id is new, gives back the state before it was chosen. *)
Theorem remove_file_by_id (id : string) (s : AppState) :
  Forall (fun f => fileId f <> id) (uploadedFiles (handleRemoveFile id s)) /\
  sublist (uploadedFiles (handleRemoveFile id s)) (uploadedFiles s) /\
  (forall f, f ∈ uploadedFiles s -> fileId f <> id ->
             f ∈ uploadedFiles (handleRemoveFile id s)) /\
  handleRemoveFile id s =
    setUploadedFiles (uploadedFiles (handleRemoveFile id s)) s /\
  (Forall (fun f => fileId f <> id) (uploadedFiles s) ->
   handleRemoveFile id s = s /\
   forall c, chosen_uuid c = id ->
             handleRemoveFile id (handleFileChange (Some [c]) s) = s).
Proof.
  unfold handleRemoveFile. simpl. split_and!.
  - apply Forall_forall. intros f Hin.
    apply list_elem_of_In, filter_In in Hin as [_ Hf]. apply other_id, Hf.
  - apply filter_sublist_of.
  - intros f Hin Hid. apply list_elem_of_In, filter_In.
    split; [apply list_elem_of_In, Hin | apply other_id, Hid].
  - reflexivity.
  - intros Hfresh.
    assert (Hkeep : List.filter (fun f => negb (String.eqb (fileId f) id))
                      (uploadedFiles s) = uploadedFiles s).
    { apply filter_keep_all. eapply Forall_impl; [exact Hfresh|].
      intros f Hf. apply other_id, Hf. }
    split; [rewrite Hkeep; apply setUploadedFiles_same|].
    intros c Hc. simpl. rewrite List.filter_app, Hkeep. simpl.
    unfold fileId at 1. simpl. rewrite Hc, String.eqb_refl. simpl.
    rewrite app_nil_r. destruct s. reflexivity.
Qed.

Lemma map_other_ids (id : string) (g : FurnitureFile -> FurnitureFile)
    (l : list FurnitureFile) :
  Forall (fun f => fileId f <> id) l ->
  List.map (fun f => if String.eqb (fileId f) id then g f else f) l = l.
Proof.
  induction 1 as [|x l Hx _ IH]; simpl; [reflexivity|].
  apply String.eqb_neq in Hx. rewrite Hx, IH. reflexivity.
Qed.

Lemma map_update_at (id : string) (g : FurnitureFile -> FurnitureFile)
    (l : list FurnitureFile) :
  forall i f,
    NoDup (List.map fileId l) ->
    l !! i = Some f -> fileId f = id ->
    List.map (fun x => if String.eqb (fileId x) id then g x else x) l
    = <[i := g f]> l.
Proof.
  induction l as [|x l IH]; intros i f Hnodup Hf Hid; [discriminate|].
  apply NoDup_cons in Hnodup as [Hx Hnodup].
  destruct i as [|i]; simpl in *.
  - injection Hf as ->. rewrite Hid, String.eqb_refl. f_equal.
    apply map_other_ids, Forall_forall. intros y Hy Heq. apply Hx.
    rewrite Hid, <- Heq. apply list_elem_of_fmap_2, Hy.
  - assert (Hne : fileId x <> id).
    { intros Heq. apply Hx. rewrite Heq, <- Hid.
      apply list_elem_of_fmap_2. eapply list_elem_of_lookup_2, Hf. }
    apply String.eqb_neq in Hne. rewrite Hne. f_equal.
    apply IH; assumption.
Qed.

Lemma fileId_withField (field : DimensionField) (value : string)
    (f : FurnitureFile) :
  fileId (withField field value f) = fileId f.
Proof. destruct field; reflexivity. Qed.

Lemma map_fileId_insert (l : list FurnitureFile) (i : nat) (f g : FurnitureFile) :
  l !! i = Some f -> fileId g = fileId f ->
  List.map fileId (<[i := g]> l) = List.map fileId l.
Proof.
  intros Hf Hid. change (List.map fileId) with (fmap (M := list) fileId).
  rewrite list_fmap_insert, Hid. apply list_insert_id.
  rewrite list_lookup_fmap, Hf. reflexivity.
Qed.

Lemma newUpload_no_dimensions (chosen : list ChosenFile) :
  Forall (fun f => hasDimensions f = false) (List.map newUpload chosen).
Proof.
  apply Forall_forall. intros f Hin.
  apply list_elem_of_fmap in Hin as (c & -> & _). reflexivity.
Qed.

(** X23.  Files just chosen add nothing to the prompt.  Once a width
    and a height that are not empty have been typed for the upload at
    position [i], the ids of the uploads being distinct, that upload
    alone has changed, and its line in the prompt names image [i + 1]
    and gives the width and the height followed by the units, and the
    depth only if there is one; for a file just chosen the line ends
    after the height, in centimetres. *)
Theorem dimensions_reach_prompt (s : AppState) (i : nat) (f : FurnitureFile)
    (w h : string) :
  NoDup (List.map fileId (uploadedFiles s)) ->
  uploadedFiles s !! i = Some f ->
  w <> EmptyString -> h <> EmptyString ->
  let s' := handleDimensionChange (fileId f) FieldHeight h
              (handleDimensionChange (fileId f) FieldWidth w s) in
  let f' := withField FieldHeight h (withField FieldWidth w f) in
  uploadedFiles s' = <[i := f']> (uploadedFiles s) /\
  dimensionLine i f' =
    Some ("- Furniture piece seen in image #" +:+ pretty (i + 1)%nat +:+
          ": Width " +:+ w +:+ interpolate (units f) +:+
          ", Height " +:+ h +:+ interpolate (units f) +:+
          (if truthy (depth f)
           then ", Depth " +:+ interpolate (depth f) +:+ interpolate (units f)
           else EmptyString) +:+ ".") /\
  (forall line, dimensionLine i f' = Some line ->
                includes line (dimensionPrompt (uploadedFiles s')) = true) /\
  (forall c, f = newUpload c ->
     dimensionLine i f = None /\
     dimensionLine i f' =
       Some ("- Furniture piece seen in image #" +:+ pretty (i + 1)%nat +:+
             ": Width " +:+ w +:+ "cm, Height " +:+ h +:+ "cm.")) /\
  (forall chosen,
      dimensionPrompt (uploadedFiles (handleFileChange (Some chosen) initialApp))
      = EmptyString).
Proof.
  intros Hnodup Hf Hw Hh s' f'.
  assert (Hfiles : uploadedFiles s' = <[i := f']> (uploadedFiles s)).
  { unfold s', handleDimensionChange, setUploadedFiles. cbn [uploadedFiles].
    rewrite (map_update_at (fileId f) (withField FieldWidth w) _ i f Hnodup Hf
               eq_refl).
    rewrite (map_update_at (fileId f) (withField FieldHeight h) _ i
               (withField FieldWidth w f)).
    - apply list_insert_insert_eq.
    - rewrite (map_fileId_insert _ i f); [exact Hnodup | exact Hf | reflexivity].
    - apply list_lookup_insert_eq. eapply lookup_lt_Some, Hf.
    - reflexivity. }
  assert (Hline : forall (u d : option string) ,
             dimensionLine i
               (mkFurnitureFile (uploaded f) (file f) (Some w) (Some h) d u) =
             Some ("- Furniture piece seen in image #" +:+ pretty (i + 1)%nat +:+
                   ": Width " +:+ w +:+ interpolate u +:+
                   ", Height " +:+ h +:+ interpolate u +:+
                   (if truthy d
                    then ", Depth " +:+ interpolate d +:+ interpolate u
                    else EmptyString) +:+ ".")).
  { intros u d. unfold dimensionLine. simpl.
    destruct w; [contradiction|]. destruct h; [contradiction|]. reflexivity. }
  split; [exact Hfiles|]. split; [apply Hline|]. split_and!.
  - intros line Hl. apply dimensionPrompt_includes, dimensionLines_elem.
    exists i, f'. split; [|exact Hl]. rewrite Hfiles.
    apply list_lookup_insert_eq. eapply lookup_lt_Some, Hf.
  - intros c ->. split; [reflexivity|]. unfold f'. simpl. rewrite Hline.
    reflexivity.
  - intros chosen. apply dimensionPrompt_empty. simpl.
    apply newUpload_no_dimensions.
Qed.

Lemma dimensions_reach_prompt_witness :
  NoDup (List.map fileId
           (uploadedFiles
              (handleFileChange (Some [chosenChair; chosenTable]) initialApp))) /\
  uploadedFiles (handleFileChange (Some [chosenChair; chosenTable]) initialApp)
    !! 0%nat = Some (newUpload chosenChair) /\
  dimensionLine 0
    (withField FieldHeight "90" (withField FieldWidth "45" (newUpload chosenChair)))
  = Some "- Furniture piece seen in image #1: Width 45cm, Height 90cm.".
Proof.
  set (s := handleFileChange (Some [chosenChair; chosenTable]) initialApp).
  assert (Hnodup : NoDup (List.map fileId (uploadedFiles s))).
  { apply NoDup_cons. split; [|apply NoDup_singleton].
    intros Hin. apply list_elem_of_singleton in Hin. discriminate. }
  split; [exact Hnodup|]. split; [reflexivity|].
  destruct (dimensions_reach_prompt s 0 (newUpload chosenChair) "45" "90"
              Hnodup eq_refl ltac:(discriminate) ltac:(discriminate))
    as (_ & _ & _ & Hfresh & _).
  destruct (Hfresh chosenChair eq_refl) as [_ Hline]. exact Hline.
Defined.

(** ** The request of a generation *)

(** X24.  The call made by a click on Generate passes the uploads, the
    number of designs and the description as they are at the click.  In
    simple mode it passes no sketch, whatever the editor holds, and the
    room chosen, or the custom room when the choice is [other].  In
    advanced mode it passes no room; with the editor mounted on a
    canvas with an area, and an encoder whose output is not empty and
    holds no comma, the sketch passed is the encoding of the background
    of the editor with its canvas copied on top, the furniture pictures
    start at the second part, and the prompt is the one for a sketch. *)
Theorem request_follows_mode (jpegBase64 : Q -> Q -> list Paint -> string)
    (canvasRef : option EditorHandle) (s : AppState) (r : Request) :
  generateRequest jpegBase64 canvasRef s = Some r ->
  uploadedFiles s <> [] /\
  req_files r = uploadedFiles s /\
  req_numImages r = numImages s /\
  opt_description (req_options r) = Some (userDescription s) /\
  (isAdvancedMode s = false ->
   opt_canvasImage (req_options r) = None /\
   opt_location (req_options r) =
     Some (if String.eqb (location s) "other"
           then customLocation s else location s) /\
   firstFurniturePart (req_options r) = 0%nat) /\
  (isAdvancedMode s = true ->
   opt_location (req_options r) = None /\
   (canvasRef = None -> opt_canvasImage (req_options r) = None) /\
   forall editor canvas,
     canvasRef = Some editor ->
     editor_canvas editor = Some canvas ->
     0 < canvas_width canvas -> 0 < canvas_height canvas ->
     (forall w h frame, comma_free (jpegBase64 w h frame) = true) ->
     let payload :=
       jpegBase64 (canvas_width canvas) (canvas_height canvas)
         [ backgroundPaint (editor_state editor)
             (canvas_width canvas) (canvas_height canvas);
           PDrawCanvas (content canvas) 0 0 ] in
     payload <> EmptyString ->
     opt_canvasImage (req_options r) = Some payload /\
     firstFurniturePart (req_options r) = 1%nat /\
     buildPrompt (req_options r) (req_files r) =
       sketchPreamble +:+ BASE_RENDER_PROMPT +:+ " " +:+
       dimensionPrompt (uploadedFiles s)).
Proof.
  unfold generateRequest. intros Hreq.
  destruct (uploadedFiles s) as [|f fs] eqn:Hfiles; [discriminate|].
  injection Hreq as <-. cbn [req_files req_options req_numImages
    opt_location opt_description opt_canvasImage].
  split_and!; try done.
  - intros Hmode. unfold firstFurniturePart, canvasImage, finalLocation.
    cbn [opt_canvasImage]. rewrite Hmode. done.
  - intros Hmode. rewrite Hmode. split_and!; [reflexivity | |].
    + intros ->. unfold canvasImage. rewrite Hmode. reflexivity.
    + intros editor canvas -> Hcanvas Hw Hh Hfree Hpayload.
      set (payload := jpegBase64 _ _ _) in *.
      assert (Hsketch : canvasImage jpegBase64 (Some editor) s = Some payload).
      { unfold canvasImage. rewrite Hmode, Hcanvas. cbv zeta.
        rewrite (getCanvasAsBase64_payload jpegBase64 canvas
                   (editor_state editor) Hfree Hw Hh).
        fold payload. destruct payload; [contradiction | reflexivity]. }
      assert (Htruthy : truthy (Some payload) = true)
        by (destruct payload; [contradiction | reflexivity]).
      unfold firstFurniturePart, buildPrompt. cbn [opt_canvasImage].
      rewrite Hsketch, Htruthy. done.
Qed.

Lemma request_follows_mode_witness :
  exists r,
    generateRequest sampleEncoder (Some untouchedEditor) advancedApp = Some r /\
    opt_canvasImage (req_options r) = Some "/9j/4AAQSkZJRgABAQ" /\
    opt_location (req_options r) = None.
Proof.
  eexists. split; [reflexivity|].
  destruct (request_follows_mode sampleEncoder (Some untouchedEditor)
              advancedApp _ eq_refl) as (_ & _ & _ & _ & _ & Hadvanced).
  destruct (Hadvanced eq_refl) as (Hroom & _ & Hsketch).
  split; [|exact Hroom].
  destruct (Hsketch untouchedEditor mountedCanvas eq_refl eq_refl
              ltac:(reflexivity) ltac:(reflexivity)
              ltac:(intros; reflexivity) ltac:(discriminate)) as [Himage _].
  exact Himage.
Defined.

(** * Adding a picture to the canvas *)

(** X25.  A picture, once loaded, is put last among the placed images,
    whatever the editor holds: under the id of its file, at (50, 50),
    150 wide, its height the double [img.height * (150 / img.width)].
    For a picture below 2^32 pixels each way that height is positive
    and has the proportions of the picture within 2^-51 of them; the
    image is above the size floor of resizing when the picture is less
    than fifteen times as wide as it is high, and not above it when it
    is more than fifteen times as wide.  At fifteen times exactly the
    rounding decides: a 2205 x 147 picture gets the height
    10.000000000000002 and is above the floor, a 150 x 10 picture gets
    the height 10 and is not.  Neither the selection, the tool nor the
    drawings change. *)
Theorem added_image_scaled (file : UploadedFile) (img : HTMLImage)
    (s : EditorState) :
  exists placed,
    placedImages (addImageToCanvas file img s) = placedImages s ++ [placed] /\
    img_id placed = file_id file /\ img_image placed = img /\
    img_x placed == 50 /\ img_y placed == 50 /\ img_width placed == 150 /\
    img_height placed
      = fmul (pixels (naturalHeight img))
             (fdiv 150 (pixels (naturalWidth img))) /\
    ((Zpos (naturalWidth img) < 2 ^ 32)%Z ->
     (Zpos (naturalHeight img) < 2 ^ 32)%Z ->
     0 < img_height placed /\
     150 * pixels (naturalHeight img) * (1 - 2 ^ (-51))
       <= img_height placed * pixels (naturalWidth img) /\
     img_height placed * pixels (naturalWidth img)
       <= 150 * pixels (naturalHeight img) * (1 + 2 ^ (-51)) /\
     ((Zpos (naturalWidth img) < 15 * Zpos (naturalHeight img))%Z ->
      valid placed) /\
     ((15 * Zpos (naturalHeight img) < Zpos (naturalWidth img))%Z ->
      ~ valid placed)) /\
    (naturalWidth img = 2205%positive -> naturalHeight img = 147%positive ->
     img_height placed == 10 + (1 # 562949953421312) /\ valid placed) /\
    (naturalWidth img = 150%positive -> naturalHeight img = 10%positive ->
     img_height placed == 10 /\ ~ valid placed) /\
    selectedImageIndex (addImageToCanvas file img s) = selectedImageIndex s /\
    activeTool (addImageToCanvas file img s) = activeTool s /\
    action (addImageToCanvas file img s) = action s /\
    elements (addImageToCanvas file img s) = elements s.
Proof.
  eexists. split; [reflexivity|].
  cbn [img_id img_image img_x img_y img_width img_height].
  unfold valid. cbn [img_width img_height]. unfold MAX_WIDTH.
  split_and!; try reflexivity.
  - intros Hw Hh.
    destruct (scaled_height_close _ _ Hw Hh) as [Hlow Hhigh].
    destruct (scaled_height_floor _ _ Hw Hh) as [Habove Hbelow].
    cbv zeta in Hlow, Hhigh, Habove, Hbelow.
    set (height := fmul _ _) in *.
    assert (HW : 0 < pixels (naturalWidth img)) by reflexivity.
    assert (HH : 0 < pixels (naturalHeight img)) by reflexivity.
    split_and!.
    + assert (Hprod : 0 < height * pixels (naturalWidth img)).
      { eapply Qlt_le_trans; [|exact Hlow].
        apply Qmult_lt_0_compat; [|reflexivity].
        apply Qmult_lt_0_compat; [reflexivity | exact HH]. }
      destruct (Qlt_le_dec 0 height) as [Hpos|Hneg]; [exact Hpos|].
      exfalso. apply (Qlt_not_le _ _ Hprod).
      setoid_replace 0 with (0 * pixels (naturalWidth img))
        using relation Qeq by ring.
      apply Qmult_le_compat_r; [exact Hneg | apply Qlt_le_weak, HW].
    + exact Hlow.
    + exact Hhigh.
    + intros Hratio. split; [reflexivity | exact (Habove Hratio)].
    + intros Hratio [_ Hfloor]. apply (Qlt_irrefl 10).
      exact (Qlt_trans _ _ _ Hfloor (Hbelow Hratio)).
  - intros -> ->. vm_compute. split; [reflexivity|]. split; reflexivity.
  - intros -> ->. vm_compute. split; [reflexivity|].
    intros [_ Hfloor]. discriminate Hfloor.
Qed.

Lemma added_image_scaled_witness :
  exists placed,
    placedImages (addImageToCanvas chairFile chairPhoto initialState)
      = [placed] /\
    img_height placed * 300 <= 150 * 200 * (1 + 2 ^ (-51)) /\
    valid placed.
Proof.
  destruct (added_image_scaled chairFile chairPhoto initialState)
    as (placed & Hplaced & _ & _ & _ & _ & _ & _ & Hsized & _).
  destruct (Hsized ltac:(reflexivity) ltac:(reflexivity))
    as (_ & _ & Hhigh & Habove & _).
  exists placed. split; [exact Hplaced|].
  split; [exact Hhigh | apply Habove; reflexivity].
Defined.

(** * A generation from the click to the end *)

(** X26.  Without uploads a click on Generate only sets the message
    about missing uploads: nothing is requested, and the pictures and
    the loading flag stay as they are.  With uploads, and nothing else
    happening before the answer, the click and the answer together are
    [handleGenerate]; at the end the loading flag is down and the
    uploads are unchanged, and either the pictures returned, at least
    one, are held with the first one active and no error, or an error
    is held and no picture. *)
Theorem generate_click_to_end (jpegBase64 : Q -> Q -> list Paint -> string)
    (msg : string) (apiKey : option string) (canvasRef : option EditorHandle)
    (responses : Thrown + list Response) (s : AppState) :
  (uploadedFiles s = [] ->
   generateRequest jpegBase64 canvasRef s = None /\
   handleGenerate jpegBase64 msg apiKey canvasRef responses s
     = setError (Some MSG_NO_FILES) s) /\
  (generateEnabled s = true ->
   appRun jpegBase64 msg apiKey
     [GenerateClick canvasRef; GenerateSettled responses] (mkApp s None)
   = Some (mkApp (handleGenerate jpegBase64 msg apiKey canvasRef responses s)
             None)) /\
  (uploadedFiles s <> [] ->
   isLoading (handleGenerate jpegBase64 msg apiKey canvasRef responses s)
     = false /\
   uploadedFiles (handleGenerate jpegBase64 msg apiKey canvasRef responses s)
     = uploadedFiles s /\
   ((exists image images,
       generatedImages
         (handleGenerate jpegBase64 msg apiKey canvasRef responses s)
         = image :: images /\
       activeImageIndex
         (handleGenerate jpegBase64 msg apiKey canvasRef responses s) = 0%Z /\
       error (handleGenerate jpegBase64 msg apiKey canvasRef responses s)
         = None) \/
    (exists message,
       error (handleGenerate jpegBase64 msg apiKey canvasRef responses s)
         = Some message /\
       knownMessage message /\
       generatedImages
         (handleGenerate jpegBase64 msg apiKey canvasRef responses s) = []))).
Proof.
  unfold handleGenerate, generateRequest, handleGenerate_begin. split_and!.
  - intros ->. split; reflexivity.
  - intros Henabled. simpl. rewrite Henabled. simpl.
    unfold generateEnabled in Henabled.
    unfold generateRequest, handleGenerate_begin.
    destruct (uploadedFiles s);
      [rewrite andb_false_r in Henabled; discriminate | reflexivity].
  - intros Hfiles. destruct (uploadedFiles s) as [|f fs] eqn:E; [done|].
    set (r := mkRequest _ _ _).
    destruct (performRequest_outcome msg apiKey r responses) as [Hret Hraised].
    destruct (performRequest msg apiKey r responses) as [images|message].
    + destruct (Hret images eq_refl) as [Hne _].
      destruct images as [|image images]; [contradiction|].
      simpl. split_and!; [reflexivity | exact E |]. left. eauto.
    + simpl. split_and!; [reflexivity | exact E |]. right.
      exists message. split_and!; [reflexivity | apply Hraised; reflexivity |
                                   reflexivity].
Qed.

(** * The requests of a generation *)

Lemma appBounds_initial : appBounds initialMachine.
Proof.
  unfold appBounds. simpl. split_and!; [lia | lia | | discriminate].
  unfold locationOptions. apply list_elem_of_here.
Qed.

Lemma updateApp_bounds (f : AppState -> AppState) (a a' : App) :
  appBounds a ->
  numImages (f (app_state a)) = numImages (app_state a) ->
  location (f (app_state a)) = location (app_state a) ->
  updateApp f a = Some a' ->
  appBounds a'.
Proof.
  intros Hbounds Hnum Hloc Hstep. injection Hstep as <-.
  unfold appBounds in *. simpl. rewrite Hnum, Hloc. exact Hbounds.
Qed.

Lemma appStep_bounds (jpegBase64 : Q -> Q -> list Paint -> string)
    (msg : string) (apiKey : option string) (e : AppEvent) (a a' : App) :
  appBounds a ->
  appStep jpegBase64 msg apiKey e a = Some a' ->
  appBounds a'.
Proof.
  intros Hbounds Hstep. destruct e; cbn [appStep] in Hstep.
  - eapply updateApp_bounds; [exact Hbounds | | | exact Hstep];
      destruct files; reflexivity.
  - control_on_page Hstep.
    eapply updateApp_bounds; [exact Hbounds | | | exact Hstep]; reflexivity.
  - control_on_page Hstep.
    eapply updateApp_bounds; [exact Hbounds | | | exact Hstep]; reflexivity.
  - destruct (simpleFormShown (app_state a)
              && bool_decide (id ∈ locationOptions)) eqn:Hid; [|discriminate].
    apply andb_true_iff in Hid as [_ Hid].
    apply bool_decide_eq_true in Hid. injection Hstep as <-.
    destruct Hbounds as (Hnum & _ & Hflight).
    unfold appBounds. simpl. split_and!; try assumption; lia.
  - control_on_page Hstep.
    eapply updateApp_bounds; [exact Hbounds | | | exact Hstep]; reflexivity.
  - control_on_page Hstep.
    eapply updateApp_bounds; [exact Hbounds | | | exact Hstep]; reflexivity.
  - control_on_page Hstep.
    eapply updateApp_bounds; [exact Hbounds | | | exact Hstep]; reflexivity.
  - destruct (customizeShown (app_state a) && (1 <=? value)%nat
              && (value <=? 10)%nat) eqn:Hvalue; [|discriminate].
    apply andb_true_iff in Hvalue as [Hvalue Hmax].
    apply andb_true_iff in Hvalue as [_ Hmin].
    apply Nat.leb_le in Hmin, Hmax.
    injection Hstep as <-. destruct Hbounds as (_ & Hloc & Hflight).
    unfold appBounds. simpl. split_and!; try assumption; lia.
  - unfold generateEnabled, generateRequest, handleGenerate_begin in Hstep.
    destruct (uploadedFiles (app_state a)) as [|f fs];
      [rewrite andb_false_r in Hstep; discriminate|].
    control_on_page Hstep. injection Hstep as <-.
    destruct Hbounds as (Hnum & Hloc & _).
    unfold appBounds. simpl. split_and!; try assumption; try lia.
    intros r Hr. injection Hr as <-. simpl. split; [discriminate | exact Hnum].
  - destruct a as [s [r|]]; cbn [in_flight app_state] in Hstep; [|discriminate].
    injection Hstep as <-. destruct Hbounds as (Hnum & Hloc & _).
    unfold appBounds. simpl in Hnum, Hloc.
    destruct (performRequest msg apiKey r responses); simpl;
      split_and!; try assumption; try lia; discriminate.
  - control_on_page Hstep.
    eapply updateApp_bounds; [exact Hbounds | | | exact Hstep]; reflexivity.
  - control_on_page Hstep.
    eapply updateApp_bounds; [exact Hbounds | | | exact Hstep]; reflexivity.
  - control_on_page Hstep.
    eapply updateApp_bounds; [exact Hbounds | | | exact Hstep]; reflexivity.
Qed.

Lemma appRun_bounds (jpegBase64 : Q -> Q -> list Paint -> string)
    (msg : string) (apiKey : option string) (evs : list AppEvent) :
  forall a a',
    appBounds a ->
    appRun jpegBase64 msg apiKey evs a = Some a' ->
    appBounds a'.
Proof.
  induction evs as [|e evs IH]; intros a a' Hbounds Hrun; simpl in Hrun.
  - injection Hrun as <-. exact Hbounds.
  - destruct (appStep jpegBase64 msg apiKey e a) as [a1|] eqn:Hstep;
      [|discriminate].
    eapply IH; [|exact Hrun]. eapply appStep_bounds; eassumption.
Qed.

(** X27.  Whatever happened before, the number of designs asked for is
    between 1 and 10 and the room chosen is one of the five options.  A
    generation that is awaited was started with at least one upload and
    for 1 to 10 designs; with a key set and every file read it sent
    exactly that many requests, and otherwise none. *)
Theorem generations_within_bounds (jpegBase64 : Q -> Q -> list Paint -> string)
    (msg : string) (apiKey : option string) (evs : list AppEvent) (a : App) :
  appRun jpegBase64 msg apiKey evs initialMachine = Some a ->
  (1 <= numImages (app_state a) <= 10)%nat /\
  location (app_state a) ∈ locationOptions /\
  (forall r,
      in_flight a = Some r ->
      req_files r <> [] /\
      (1 <= req_numImages r <= 10)%nat /\
      (truthy apiKey = true -> is_Some (readAll (req_files r)) ->
       length (requestsSent apiKey (req_files r) (req_options r) (req_numImages r))
       = req_numImages r) /\
      (truthy apiKey = false \/ readAll (req_files r) = None ->
       requestsSent apiKey (req_files r) (req_options r) (req_numImages r) = [])).
Proof.
  intros Hrun.
  destruct (appRun_bounds _ _ _ _ _ _ appBounds_initial Hrun)
    as (Hnum & Hloc & Hflight).
  split; [exact Hnum|]. split; [exact Hloc|].
  intros r Hr. destruct (Hflight r Hr) as [Hfiles Hcount].
  split; [exact Hfiles|]. split; [exact Hcount|].
  unfold requestsSent. split.
  - intros -> [base64Images ->]. apply length_replicate.
  - intros [-> | Hread]; [reflexivity|].
    rewrite Hread. destruct (truthy apiKey); reflexivity.
Qed.

Lemma generations_within_bounds_witness :
  appRun sampleEncoder "undefined is not iterable" (Some "key")
    awaitingSession initialMachine = Some whileAwaiting /\
  exists r,
    in_flight whileAwaiting = Some r /\
    length (requestsSent (Some "key") (req_files r) (req_options r)
              (req_numImages r)) = 3%nat.
Proof.
  assert (Hrun : appRun sampleEncoder "undefined is not iterable" (Some "key")
                   awaitingSession initialMachine = Some whileAwaiting)
    by (vm_compute; reflexivity).
  split; [exact Hrun|].
  destruct (generations_within_bounds _ _ _ _ _ Hrun) as (_ & _ & Hflight).
  eexists. split; [vm_compute; reflexivity|].
  destruct (Hflight _ ltac:(vm_compute; reflexivity)) as (_ & _ & Hsent & _).
  apply Hsent; [reflexivity | vm_compute; eauto].
Defined.
